(** * Response shaping of the n8n MCP server

    A shallow embedding of [src/utils/json-serializer.ts],
    [src/utils/response-formatter.ts] and [src/utils/pagination.ts]:
    the size estimator, the truncator, the chunker, the response
    formatter and the paginator, with the properties their
    specification states about them.

    Conventions of the embedding.
    - A JavaScript number is an integer of [Z] (sizes, lengths, limits and
      offsets are integers in every use the handlers make of this code).
    - A JavaScript string is a [string]; its [length] counts characters.
    - An exception is a value [Throw e] of the [result] type; [try/catch]
      is a [match] on it.
    - Values form an object graph, see [value] and [heap].
    - An object that the code fills by [obj[key] = v] is filled by
      [assign]: the key ["__proto__"] (an own key of objects that
      [JSON.parse] makes) gets no property. *)

From Stdlib Require Import List ZArith Lia Bool String Ascii DecimalString.
Import ListNotations.
Local Open Scope Z_scope.

Infix "+++" := String.append (at level 60, right associativity).

(* ================================================================== *)
(** * The JavaScript fragment the code relies on *)
(* ================================================================== *)

(** ** Exceptions *)

Inductive exn : Type :=
| TypeError
| RangeError.

Inductive result (A : Type) : Type :=
| Ok (a : A)
| Throw (e : exn).

Arguments Ok {A} a.
Arguments Throw {A} e.

Definition bind {A B : Type} (m : result A) (k : A -> result B) : result B :=
  match m with
  | Ok a => k a
  | Throw e => Throw e
  end.

Notation "x <- m ;; k" := (bind m (fun x => k))
  (at level 61, m at next level, right associativity).

Notation "' p <- m ;; k" := (bind m (fun x => let 'p := x in k))
  (at level 61, p pattern, m at next level, right associativity).

(** [arr.map(f)] for an [f] that may throw: left to right, stopping at the
    first exception. *)
Fixpoint mapR {A B : Type} (f : A -> result B) (l : list A) : result (list B) :=
  match l with
  | [] => Ok []
  | x :: r => y <- f x ;; ys <- mapR f r ;; Ok (y :: ys)
  end.

(** ** Values *)

Definition addr := nat.

(** A value is a primitive, a composite written in place, or a reference
    to a composite of the store.  A composite written in place is an
    object reached through this one occurrence only (a node of a tree);
    composites that are shared or that lie on a cycle live in the store and
    are reached through [VRef].  The [props] of an object are its own
    enumerable properties in enumeration order, so their keys are
    distinct. *)
#[warnings="-register-all"]
Inductive value : Type :=
| VNull
| VUndef
| VBool (b : bool)
| VNum (n : Z)
| VStr (s : string)
| VArr (items : list value)
| VObj (props : list (string * value))
| VRef (a : addr).

Inductive cell : Type :=
| CArr (items : list value)
| CObj (props : list (string * value)).

Definition heap := list cell.

Definition cell_value (c : cell) : value :=
  match c with
  | CArr items => VArr items
  | CObj props => VObj props
  end.

(** The composite at an address.  References of a well-formed graph point
    into the store; an address outside it reads as an empty object. *)
Definition lookup (h : heap) (a : addr) : value :=
  match nth_error h a with
  | Some c => cell_value c
  | None => VObj []
  end.

Definition deref (h : heap) (v : value) : value :=
  match v with
  | VRef a => lookup h a
  | _ => v
  end.

(** [typeof v === 'object'] *)
Definition typeof_object (v : value) : bool :=
  match v with
  | VNull | VArr _ | VObj _ | VRef _ => true
  | _ => false
  end.

(** [v === null] *)
Definition is_null (v : value) : bool :=
  match v with
  | VNull => true
  | _ => false
  end.

(** Nesting of the composites written in place. *)
Fixpoint height (v : value) : nat :=
  match v with
  | VArr items => S (list_max (map height items))
  | VObj props => S (list_max (map (fun kv => height (snd kv)) props))
  | _ => O
  end.

Definition cell_weight (c : cell) : nat := S (height (cell_value c)).

(** Length of the longest path of the graph that repeats no stored
    composite, plus one: the recursion depth that every traversal which
    follows such paths stays below. *)
Definition depth_bound (h : heap) (v : value) : nat :=
  S (height v + list_sum (map cell_weight h)).

(** ** Assignment to a property *)

Definition proto : string := "__proto__".

(** [obj[key] = v] on an object that started as [{}], for a [key] that
    [obj] does not hold yet: the property is added after the others.  The
    key ["__proto__"] is the exception: the assignment calls the setter
    that [Object.prototype] has under this name, which replaces the
    prototype of [obj] when [v] is an object or [null] and does nothing
    otherwise; in both cases [obj] gets no property.  The prototype itself
    is not observed by this code, which reads own properties only
    ([Object.keys], [Object.entries], [hasOwnProperty],
    [JSON.stringify]). *)
Definition assign (obj : list (string * value)) (key : string) (v : value)
  : list (string * value) :=
  if String.eqb key proto then obj else obj ++ [(key, v)].

(** [for (const [key, v] of entries) obj[key] = v], from [obj = {}]. *)
Definition assigned (entries : list (string * value)) : list (string * value) :=
  fold_left (fun obj kv => assign obj (fst kv) (snd kv)) entries [].

(** ** Strings *)

Definition str_length (s : string) : Z := Z.of_nat (String.length s).

Definition char (n : nat) : string := String (ascii_of_nat n) EmptyString.

Definition dquote : string := char 34.
Definition newline : string := char 10.

(** [Number.prototype.toString] and [String(n)] on integers. *)
Definition Number_toString (n : Z) : string :=
  NilZero.string_of_int (Z.to_int n).

Fixpoint join (sep : string) (l : list string) : string :=
  match l with
  | [] => EmptyString
  | [x] => x
  | x :: r => x +++ sep +++ join sep r
  end.

(** [arr.slice(start, end)] *)
Definition relative_index (len k : Z) : Z :=
  if k <? 0 then Z.max (len + k) 0 else Z.min k len.

Definition slice {A : Type} (l : list A) (start stop : Z) : list A :=
  let len := Z.of_nat (List.length l) in
  let from := relative_index len start in
  let final := relative_index len stop in
  firstn (Z.to_nat (final - from)) (skipn (Z.to_nat from) l).

(** ** [JSON.stringify] *)

Definition hex_digit (n : nat) : string :=
  match n with
  | 0%nat => "0" | 1%nat => "1" | 2%nat => "2" | 3%nat => "3"
  | 4%nat => "4" | 5%nat => "5" | 6%nat => "6" | 7%nat => "7"
  | 8%nat => "8" | 9%nat => "9" | 10%nat => "a" | 11%nat => "b"
  | 12%nat => "c" | 13%nat => "d" | 14%nat => "e" | _ => "f"
  end%string.

Definition quote_char (c : ascii) : string :=
  let n := nat_of_ascii c in
  if Nat.eqb n 8 then "\b"
  else if Nat.eqb n 9 then "\t"
  else if Nat.eqb n 10 then "\n"
  else if Nat.eqb n 12 then "\f"
  else if Nat.eqb n 13 then "\r"
  else if Nat.eqb n 34 then "\" +++ dquote
  else if Nat.eqb n 92 then "\\"
  else if Nat.ltb n 32 then
    "\u00" +++ hex_digit (Nat.div n 16) +++ hex_digit (Nat.modulo n 16)
  else String c EmptyString.

Fixpoint quote_chars (s : string) : string :=
  match s with
  | EmptyString => EmptyString
  | String c r => quote_char c +++ quote_chars r
  end.

Definition QuoteJSONString (s : string) : string :=
  dquote +++ quote_chars s +++ dquote.

Section Stringify.

Variable h : heap.
(** [gap] is the empty string for [JSON.stringify(v)] and two spaces for
    [JSON.stringify(v, null, 2)]. *)
Variable gap : string.

Definition wrap (opening closing indent : string) (partial : list string) : string :=
  let stepback := indent in
  let indent := indent +++ gap in
  match partial with
  | [] => opening +++ closing
  | _ =>
      if String.eqb gap EmptyString
      then opening +++ join "," partial +++ closing
      else opening +++ newline +++ indent
           +++ join ("," +++ newline +++ indent) partial
           +++ newline +++ stepback +++ closing
  end.

Definition member (key : string) (strP : option string) : list string :=
  match strP with
  | None => []
  | Some s =>
      [QuoteJSONString key +++ ":"
       +++ (if String.eqb gap EmptyString then EmptyString else " ") +++ s]
  end.

Definition element (strP : option string) : string :=
  match strP with
  | None => "null"
  | Some s => s
  end.

Section Composite.
Variable rec : string -> value -> result (option string).

Definition SerializeJSONArray (indent : string) (items : list value)
  : result (option string) :=
  partial <- mapR (fun v => s <- rec (indent +++ gap) v ;; Ok (element s)) items ;;
  Ok (Some (wrap "[" "]" indent partial)).

Definition SerializeJSONObject (indent : string) (props : list (string * value))
  : result (option string) :=
  partial <- mapR (fun kv => s <- rec (indent +++ gap) (snd kv) ;;
                             Ok (member (fst kv) s)) props ;;
  Ok (Some (wrap "{" "}" indent (List.concat partial))).

Definition SerializeJSONComposite (indent : string) (v : value)
  : result (option string) :=
  match v with
  | VArr items => SerializeJSONArray indent items
  | VObj props => SerializeJSONObject indent props
  | _ => Ok None
  end.
End Composite.

(** [stack] holds the stored composites being serialized; meeting one of
    them again is the cyclic structure that [JSON.stringify] rejects with
    a [TypeError].  Running out of [fuel] is the engine running out of
    stack, a [RangeError]. *)
Fixpoint SerializeJSONProperty (fuel : nat) (stack : list addr)
  (indent : string) (v : value) : result (option string) :=
  match fuel with
  | O => Throw RangeError
  | S fuel =>
      match v with
      | VNull => Ok (Some "null"%string)
      | VUndef => Ok None
      | VBool true => Ok (Some "true"%string)
      | VBool false => Ok (Some "false"%string)
      | VNum n => Ok (Some (Number_toString n))
      | VStr s => Ok (Some (QuoteJSONString s))
      | VArr _ | VObj _ =>
          SerializeJSONComposite (SerializeJSONProperty fuel stack) indent v
      | VRef a =>
          if existsb (Nat.eqb a) stack then Throw TypeError
          else SerializeJSONComposite (SerializeJSONProperty fuel (a :: stack))
                 indent (lookup h a)
      end
  end.

End Stringify.

(** [JSON.stringify(v)] and [JSON.stringify(v, null, 2)]; the result is
    [None] where JavaScript returns [undefined]. *)
Definition JSON_stringify (h : heap) (v : value) (gap : string)
  : result (option string) :=
  SerializeJSONProperty h gap (depth_bound h v) [] EmptyString v.

(** [s.length] on what [JSON.stringify] returned. *)
Definition length_of (s : option string) : result Z :=
  match s with
  | Some s => Ok (str_length s)
  | None => Throw TypeError
  end.

(** [String(v)] on a primitive. *)
Definition String_of (v : value) : string :=
  match v with
  | VNull => "null"
  | VUndef => "undefined"
  | VBool true => "true"
  | VBool false => "false"
  | VNum n => Number_toString n
  | VStr s => s
  | _ => "[object Object]"
  end%string.

(* ================================================================== *)
(** * json-serializer.ts *)
(* ================================================================== *)

(** ** [approximateObjectSize] *)

Section SizeEstimator.

Variable h : heap.

(** The two loops of [sizeOf] over the children of a composite; [rec] is
    [sizeOf] itself.  The set [visited] is a mutable object of the
    enclosing call and is threaded through. *)
Section Children.
Variable rec : value -> list addr -> result (Z * list addr).

Fixpoint sizeOf_items (items : list value) (visited : list addr)
  (propertySize : Z) : result (Z * list addr) :=
  match items with
  | [] => Ok (propertySize, visited)
  | item :: rest =>
      '(n, visited) <- rec item visited ;;
      sizeOf_items rest visited (propertySize + n)
  end.

Fixpoint sizeOf_props (props : list (string * value)) (visited : list addr)
  (propertySize : Z) : result (Z * list addr) :=
  match props with
  | [] => Ok (propertySize, visited)
  | (key, val) :: rest =>
      '(n, visited) <- rec val visited ;;
      sizeOf_props rest visited (propertySize + str_length key * 2 + n)
  end.

Definition sizeOf_composite (v : value) (visited : list addr)
  : result (Z * list addr) :=
  match v with
  | VArr items => sizeOf_items items visited 8
  | VObj props => sizeOf_props props visited 8
  | _ => Ok (0, visited)
  end.
End Children.

(** A composite written in place is reached once, so the test
    [visited.has(value)] can only succeed on a stored composite; only
    those are recorded. *)
Fixpoint sizeOf (fuel : nat) (v : value) (visited : list addr)
  : result (Z * list addr) :=
  match fuel with
  | O => Throw RangeError
  | S fuel =>
      match v with
      | VNull => Ok (4, visited)
      | VStr s => Ok (str_length s * 2, visited)
      | VBool _ => Ok (4, visited)
      | VNum _ => Ok (8, visited)
      | VUndef => Ok (0, visited)
      | VArr _ | VObj _ => sizeOf_composite (sizeOf fuel) v visited
      | VRef a =>
          if existsb (Nat.eqb a) visited then Ok (0, visited)
          else sizeOf_composite (sizeOf fuel) (lookup h a) (a :: visited)
      end
  end.

(** The primitives are answered at once, the rest goes to [sizeOf] with
    a fresh visited set.  ([Date] objects, which the source counts as 8
    here, are not among the values of the embedding.) *)
Definition approximateObjectSize (obj : value) : result Z :=
  match obj with
  | VNull => Ok 4
  | VBool _ => Ok 4
  | VNum _ => Ok 8
  | VStr s => Ok (str_length s * 2)
  | _ =>
      '(size, _) <- sizeOf (depth_bound h obj) obj [] ;;
      Ok size
  end.

Definition isObjectTooLarge (obj : value) (maxSizeBytes : Z) : result bool :=
  size <- approximateObjectSize obj ;;
  Ok (size >? maxSizeBytes).

End SizeEstimator.

(** ** [filterObjectFields] and [serializeToJson] *)

Record SerializationOptions : Type := {
  includeFields : option (list string);
  excludeFields : option (list string);
  maxDepth : option Z;
  _currentDepth : option Z
}.

Definition no_options : SerializationOptions :=
  {| includeFields := None; excludeFields := None;
     maxDepth := None; _currentDepth := None |}.

Definition with_currentDepth (o : SerializationOptions) (d : Z) : SerializationOptions :=
  {| includeFields := includeFields o; excludeFields := excludeFields o;
     maxDepth := maxDepth o; _currentDepth := Some d |}.

(** [a ?? b] and the default of a destructured field. *)
Definition or_default {A : Type} (o : option A) (d : A) : A :=
  match o with
  | Some x => x
  | None => d
  end.

(** [_currentDepth > maxDepth], where an absent [maxDepth] is [Infinity]. *)
Definition beyond (currentDepth : Z) (maxDepth : option Z) : bool :=
  match maxDepth with
  | Some m => currentDepth >? m
  | None => false
  end.

Definition includes (l : list string) (key : string) : bool :=
  existsb (String.eqb key) l.

(** [data[key]] *)
Fixpoint get (props : list (string * value)) (key : string) : value :=
  match props with
  | [] => VUndef
  | (k, v) :: rest => if String.eqb k key then v else get rest key
  end.

Definition selected_keys (options : SerializationOptions) (keys : list string)
  : list string :=
  let keys :=
    match includeFields options with
    | Some (f :: fs) => filter (includes (f :: fs)) keys
    | _ => keys
    end in
  match excludeFields options with
  | Some (f :: fs) => filter (fun key => negb (includes (f :: fs) key)) keys
  | _ => keys
  end.

Fixpoint filterObjectFields (fuel : nat) (h : heap) (data : value)
  (options : SerializationOptions) : result value :=
  match fuel with
  | O => Throw RangeError
  | S fuel =>
      let currentDepth := or_default (_currentDepth options) 0 in
      if beyond currentDepth (maxDepth options)
      then Ok (VStr "[Maximum depth exceeded]")
      else if is_null data || negb (typeof_object data) then Ok data
      else
        let deeper := with_currentDepth options (currentDepth + 1) in
        match deref h data with
        | VArr items =>
            items' <- mapR (fun item => filterObjectFields fuel h item deeper) items ;;
            Ok (VArr items')
        | VObj props =>
            props' <- mapR (fun key =>
                              v <- filterObjectFields fuel h (get props key) deeper ;;
                              Ok (key, v))
                        (selected_keys options (map fst props)) ;;
            Ok (VObj (assigned props'))
        | other => Ok other
        end
  end.

(** The recursion of [filterObjectFields] ends on every path of the graph
    that repeats no stored composite, and at [maxDepth] when there is one;
    on a cycle without [maxDepth] it does not end, and the engine raises
    [RangeError] when the stack is full. *)
Definition filter_stack (h : heap) (data : value) (options : SerializationOptions)
  : nat :=
  match maxDepth options with
  | None => depth_bound h data
  | Some m => (depth_bound h data + Z.to_nat m + 2)%nat
  end.

Definition serializeToJson (h : heap) (data : value) (options : SerializationOptions)
  : result (option string) :=
  filteredData <- filterObjectFields (filter_stack h data options) h data
                    (with_currentDepth options 0) ;;
  JSON_stringify h filteredData "  ".

(** ** [createEfficientObjectRepresentation] *)

(** The summary that stands for an array of more than 100 items. *)
Definition array_summary (len : Z) (sample : list value) : value :=
  VObj [("_type"%string, VStr "array");
        ("length"%string, VNum len);
        ("summary"%string,
          VStr ("Array with " +++ Number_toString len +++ " items"));
        ("sample"%string, VArr sample)].

(** The function recurses through arrays only and hands every object to
    [filterObjectFields] with the options as they are, [_currentDepth]
    included; that call gets the stack of [filter_stack], and as much more
    as a negative [_currentDepth] makes it descend. *)
Fixpoint createEfficientObjectRepresentation (fuel : nat) (h : heap) (data : value)
  (options : SerializationOptions) : result value :=
  match fuel with
  | O => Throw RangeError
  | S fuel =>
      if is_null data || negb (typeof_object data) then Ok data
      else
        match deref h data with
        | VArr items =>
            let len := Z.of_nat (List.length items) in
            if len >? 100 then
              sample <- mapR (fun item =>
                                createEfficientObjectRepresentation fuel h item options)
                          (slice items 0 10) ;;
              Ok (array_summary len sample)
            else
              items' <- mapR (fun item =>
                                createEfficientObjectRepresentation fuel h item options)
                          items ;;
              Ok (VArr items')
        | VObj _ =>
            filterObjectFields
              (filter_stack h data options
               + Z.to_nat (- or_default (_currentDepth options) 0%Z))%nat
              h data options
        | other => Ok other
        end
  end.

(* ================================================================== *)
(** * response-formatter.ts *)
(* ================================================================== *)

Module DEFAULT_LIMITS.
Definition MAX_RESPONSE_SIZE : Z := 1000000.
Definition MAX_ARRAY_ITEMS : Z := 50.
Definition MAX_OBJECT_DEPTH : Z := 5.
Definition MAX_CHUNK_SIZE : Z := 500000.
End DEFAULT_LIMITS.

Record FormattingOptions : Type := {
  maxResponseSize : option Z;
  maxArrayItems : option Z;
  maxObjectDepth : option Z;
  maxChunkSize : option Z;
  truncationIndicator : option bool
}.

Definition default_options : FormattingOptions :=
  {| maxResponseSize := None; maxArrayItems := None; maxObjectDepth := None;
     maxChunkSize := None; truncationIndicator := None |}.

(** ** [needsChunking] *)

(** [try { body } catch (error) { return handler }] *)
Definition try_catch {A : Type} (body : result A) (handler : A) : A :=
  match body with
  | Ok a => a
  | Throw _ => handler
  end.

Definition needsChunking (h : heap) (data : value) (options : FormattingOptions)
  : bool :=
  let maxSize := or_default (maxResponseSize options) DEFAULT_LIMITS.MAX_RESPONSE_SIZE in
  try_catch
    (tooLarge <- isObjectTooLarge h data maxSize ;;
     if tooLarge : bool then Ok true
     else
       jsonString <- serializeToJson h data no_options ;;
       len <- length_of jsonString ;;
       Ok (len >? maxSize))
    true.

(** ** [formatTruncatedResponse] *)

(** The variables [wasTruncated], [itemsOmitted] and [reason] that the
    closure [formatValue] assigns. *)
Module Closure.
Record t : Type := {
  wasTruncated : bool;
  itemsOmitted : Z;
  reason : option string
}.

Definition init : t :=
  {| wasTruncated := false; itemsOmitted := 0; reason := None |}.
End Closure.

Module TruncationMetadata.
Record t : Type := {
  wasTruncated : bool;
  originalSize : option Z;
  itemsOmitted : option Z;
  reason : option string
}.
End TruncationMetadata.

(** [reason = reason || msg] *)
Definition or_reason (reason : option string) (msg : string) : option string :=
  match reason with
  | Some r => Some r
  | None => Some msg
  end.

(** [arr.map(f)] for an [f] that assigns the closure variables. *)
Fixpoint map_acc {A B S : Type} (f : A -> S -> B * S) (l : list A) (s : S)
  : list B * S :=
  match l with
  | [] => ([], s)
  | x :: r =>
      let (y, s) := f x s in
      let (ys, s) := map_acc f r s in
      (y :: ys, s)
  end.

Definition depth_sentinel : value := VStr "[Object depth limit exceeded]".

Definition more_items (n : Z) : value :=
  VStr ("... " +++ Number_toString n +++ " more items").

Section Truncator.

Variable h : heap.
Variables maxArrayItems maxObjectDepth : Z.

Definition note_depth (c : Closure.t) : Closure.t :=
  {| Closure.wasTruncated := true;
     Closure.itemsOmitted := Closure.itemsOmitted c;
     Closure.reason := or_reason (Closure.reason c) "Maximum object depth exceeded" |}.

Definition note_array (len : Z) (c : Closure.t) : Closure.t :=
  {| Closure.wasTruncated := true;
     Closure.itemsOmitted := Closure.itemsOmitted c + (len - maxArrayItems);
     Closure.reason := or_reason (Closure.reason c) "Array size limit exceeded" |}.

(** The recursion stops where [depth] passes [maxObjectDepth]; [fuel]
    counts the levels left down to there, see [levels]. *)
Fixpoint formatValue (fuel : nat) (v : value) (depth : Z) (c : Closure.t)
  : value * Closure.t :=
  match fuel with
  | O => (depth_sentinel, note_depth c)
  | S fuel =>
      if depth >? maxObjectDepth then (depth_sentinel, note_depth c)
      else
        match deref h v with
        | VNull => (VNull, c)
        | VUndef => (VUndef, c)
        | VArr items =>
            let len := Z.of_nat (List.length items) in
            if len >? maxArrayItems then
              let c := note_array len c in
              let (items', c) :=
                map_acc (fun item => formatValue fuel item (depth + 1))
                  (slice items 0 maxArrayItems) c in
              (VArr (items' ++ [more_items (len - maxArrayItems)]), c)
            else
              let (items', c) :=
                map_acc (fun item => formatValue fuel item (depth + 1)) items c in
              (VArr items', c)
        | VObj props =>
            let (props', c) :=
              map_acc (fun kv c =>
                         let (val, c) := formatValue fuel (snd kv) (depth + 1) c in
                         ((fst kv, val), c))
                props c in
            (VObj (assigned props'), c)
        | other => (other, c)
        end
  end.

(** Calls nested below a call at [depth], that call included. *)
Definition levels (depth : Z) : nat := S (Z.to_nat (maxObjectDepth + 1 - depth)).

End Truncator.

Definition formatTruncatedResponse (h : heap) (data : value)
  (options : FormattingOptions) : value * TruncationMetadata.t :=
  let maxArrayItems := or_default (maxArrayItems options) DEFAULT_LIMITS.MAX_ARRAY_ITEMS in
  let maxObjectDepth := or_default (maxObjectDepth options) DEFAULT_LIMITS.MAX_OBJECT_DEPTH in
  let (formattedData, c) :=
    formatValue h maxArrayItems maxObjectDepth (levels maxObjectDepth 0)
      data 0 Closure.init in
  (formattedData,
   {| TruncationMetadata.wasTruncated := Closure.wasTruncated c;
      TruncationMetadata.originalSize := None;
      TruncationMetadata.itemsOmitted :=
        if Closure.itemsOmitted c >? 0 then Some (Closure.itemsOmitted c) else None;
      TruncationMetadata.reason :=
        if Closure.wasTruncated c then Closure.reason c else None |}).

(** ** [chunkResponse] *)

(** What a continuation token describes.  The source hands out the JSON
    text of [{ type: 'array', total }] or [{ type: 'object', keys }] in
    base64; the descriptor stands for that text. *)
Inductive token : Type :=
| TokenArray (total : Z)
| TokenObject (keys : list string).

(** [Object.keys(obj).length > 0] and [arr.length > 0] *)
Definition nonempty {A : Type} (l : list A) : bool :=
  match l with
  | [] => false
  | _ => true
  end.

Section Chunker.

Variable h : heap.
Variable options : FormattingOptions.

Definition max_chunk : Z :=
  or_default (maxChunkSize options) DEFAULT_LIMITS.MAX_CHUNK_SIZE.

(** [JSON.stringify(item).length] *)
Definition itemSize (item : value) : result Z :=
  itemJson <- JSON_stringify h item EmptyString ;;
  length_of itemJson.

(** [JSON.stringify({ [key]: value }).length]; a computed key of an object
    literal defines a property whatever the key, ["__proto__"] too. *)
Definition entrySize (entry : string * value) : result Z :=
  entryJson <- JSON_stringify h (VObj [entry]) EmptyString ;;
  length_of entryJson.

(** The loop over the items of an array. *)
Fixpoint chunk_items (items : list value) (chunks : list (list value))
  (currentChunk : list value) (currentSize : Z)
  : result (list (list value) * list value) :=
  match items with
  | [] => Ok (chunks, currentChunk)
  | item :: rest =>
      size <- itemSize item ;;
      if (currentSize + size >? max_chunk) && nonempty currentChunk
      then chunk_items rest (chunks ++ [currentChunk]) [item] size
      else chunk_items rest chunks (currentChunk ++ [item]) (currentSize + size)
  end.

(** The loop over the entries of an object. *)
Fixpoint chunk_entries (entries : list (string * value)) (chunks : list value)
  (currentChunk : list (string * value)) (currentSize : Z)
  : result (list value * list (string * value)) :=
  match entries with
  | [] => Ok (chunks, currentChunk)
  | entry :: rest =>
      size <- entrySize entry ;;
      if size >? max_chunk then
        let formattedData := fst (formatTruncatedResponse h (VObj [entry]) options) in
        let chunks :=
          if (currentSize >? 0) && nonempty currentChunk
          then chunks ++ [VObj currentChunk]
          else chunks in
        chunk_entries rest (chunks ++ [formattedData]) [] 0
      else
        let '(chunks, currentChunk, currentSize) :=
          if (currentSize + size >? max_chunk) && nonempty currentChunk
          then (chunks ++ [VObj currentChunk], [], 0)
          else (chunks, currentChunk, currentSize) in
        chunk_entries rest chunks (assign currentChunk (fst entry) (snd entry))
          (currentSize + size)
  end.

Definition chunkResponse (data : value) : result (list value * option token) :=
  if negb (typeof_object data) || is_null data then Ok ([data], None)
  else
    match deref h data with
    | VArr items =>
        '(chunks, currentChunk) <- chunk_items items [] [] 0 ;;
        let chunks :=
          if nonempty currentChunk then chunks ++ [currentChunk] else chunks in
        let continuationToken :=
          if Z.of_nat (List.length chunks) >? 1
          then Some (TokenArray (Z.of_nat (List.length items)))
          else None in
        Ok (map VArr chunks, continuationToken)
    | VObj entries =>
        '(chunks, currentChunk) <- chunk_entries entries [] [] 0 ;;
        let chunks :=
          if nonempty currentChunk then chunks ++ [VObj currentChunk] else chunks in
        let continuationToken :=
          if Z.of_nat (List.length chunks) >? 1
          then Some (TokenObject (map fst entries))
          else None in
        Ok (chunks, continuationToken)
    | other => Ok ([other], None)
    end.

End Chunker.

(** ** [formatChunkedResponse], [createSuccessResponse], [createErrorResponse] *)

(** A [ChunkedToolCallResult]; its [content] is always the one item
    [{ type: 'text', text }]. *)
Record ChunkedToolCallResult : Type := {
  text : string;
  isError : option bool;
  isChunked : option bool;
  chunkIndex : option Z;
  totalChunks : option Z;
  continuationToken : option token;
  metadata : option TruncationMetadata.t
}.

(** [typeof d === 'object' ? JSON.stringify(d, null, 2) : String(d)];
    on an object [JSON.stringify] returns a string. *)
Definition formattedString (h : heap) (formattedData : value) : result string :=
  if typeof_object formattedData
  then s <- JSON_stringify h formattedData "  " ;;
       Ok (or_default s "undefined"%string)
  else Ok (String_of formattedData).

(** [if (metadata.wasTruncated) result.metadata = { truncation: metadata }] *)
Definition truncation_of (metadata : TruncationMetadata.t)
  : option TruncationMetadata.t :=
  if TruncationMetadata.wasTruncated metadata then Some metadata else None.

(** [chunks.map((chunk, index) => ...)] for a callback that may throw. *)
Fixpoint mapiR {A B : Type} (f : A -> Z -> result B) (l : list A) (index : Z)
  : result (list B) :=
  match l with
  | [] => Ok []
  | x :: r => y <- f x index ;; ys <- mapiR f r (index + 1) ;; Ok (y :: ys)
  end.

Section Formatter.

Variable h : heap.
Variable options : FormattingOptions.

Definition format_chunk (count : Z) (continuation : option token)
  (chunk : value) (index : Z) : result ChunkedToolCallResult :=
  let (formattedData, metadata) := formatTruncatedResponse h chunk options in
  s <- formattedString h formattedData ;;
  Ok {| text := s;
        isError := None;
        isChunked := Some true;
        chunkIndex := Some index;
        totalChunks := Some count;
        continuationToken :=
          if index =? count - 1 then continuation else None;
        metadata := truncation_of metadata |}.

Definition formatChunkedResponse (data : value)
  : result (list ChunkedToolCallResult) :=
  if negb (needsChunking h data options) then
    let (formattedData, metadata) := formatTruncatedResponse h data options in
    s <- formattedString h formattedData ;;
    Ok [ {| text := s;
            isError := None;
            isChunked := None;
            chunkIndex := None;
            totalChunks := None;
            continuationToken := None;
            metadata := truncation_of metadata |} ]
  else
    '(chunks, continuation) <- chunkResponse h options data ;;
    mapiR (format_chunk (Z.of_nat (List.length chunks)) continuation) chunks 0.

Definition with_text (r : ChunkedToolCallResult) (s : string)
  : ChunkedToolCallResult :=
  {| text := s;
     isError := isError r;
     isChunked := isChunked r;
     chunkIndex := chunkIndex r;
     totalChunks := totalChunks r;
     continuationToken := continuationToken r;
     metadata := metadata r |}.

Definition createSuccessResponse (data : value) (message : option string)
  : result (list ChunkedToolCallResult) :=
  results <- formatChunkedResponse data ;;
  match message, results with
  | Some m, firstChunk :: rest =>
      if String.eqb m EmptyString then Ok results
      else Ok (with_text firstChunk (m +++ newline +++ newline +++ text firstChunk)
                 :: rest)
  | _, _ => Ok results
  end.

End Formatter.

(** [errorMessage] is the message of the error, or the string given. *)
Definition createErrorResponse (errorMessage : string) : ChunkedToolCallResult :=
  {| text := errorMessage;
     isError := Some true;
     isChunked := None;
     chunkIndex := None;
     totalChunks := None;
     continuationToken := None;
     metadata := None |}.

(* ================================================================== *)
(** * pagination.ts *)
(* ================================================================== *)

Module PaginationParams.
Record t : Type := {
  offset : option Z;
  limit : option Z
}.
End PaginationParams.

Module PaginationMetadata.
Record t : Type := {
  offset : Z;
  limit : Z;
  total : Z;
  hasMore : bool;
  nextOffset : option Z;
  prevOffset : option Z
}.
End PaginationMetadata.

Record PaginatedResult (T : Type) : Type := {
  data : list T;
  pagination : PaginationMetadata.t
}.

Arguments data {T} _.
Arguments pagination {T} _.

Definition paginateResults {T : Type} (items : list T) (params : PaginationParams.t)
  : PaginatedResult T :=
  let offset := or_default (PaginationParams.offset params) 0 in
  let limit := or_default (PaginationParams.limit params) 10 in
  let total := Z.of_nat (List.length items) in
  let validOffset := Z.max 0 (Z.min offset total) in
  let validLimit := Z.max 1 limit in
  let paginatedItems := slice items validOffset (validOffset + validLimit) in
  {| data := paginatedItems;
     pagination :=
       {| PaginationMetadata.offset := validOffset;
          PaginationMetadata.limit := validLimit;
          PaginationMetadata.total := total;
          PaginationMetadata.hasMore := validOffset + validLimit <? total;
          PaginationMetadata.nextOffset :=
            if validOffset + validLimit <? total
            then Some (validOffset + validLimit) else None;
          PaginationMetadata.prevOffset :=
            if validOffset >? 0
            then Some (Z.max 0 (validOffset - validLimit)) else None |} |}.

(* ================================================================== *)
(** * tools/execution/base-handler.ts *)
(* ================================================================== *)

(** What a handler may throw: an [N8nApiError], another [Error], or a
    value that is no [Error]. *)
Inductive thrown : Type :=
| N8nApiError (message : string)
| Error (message : string)
| NotAnError.

(** An awaited promise: fulfilled with a value or rejected with what was
    thrown. *)
Inductive outcome (A : Type) : Type :=
| Returned (a : A)
| Raised (t : thrown).

Arguments Returned {A} _.
Arguments Raised {A} _.

(** [ToolCallResult | ChunkedToolCallResult[]] *)
Inductive response : Type :=
| Single (r : ChunkedToolCallResult)
| Fragments (rs : list ChunkedToolCallResult).

Section BaseExecutionToolHandler.

(** The message that the engine gives its [TypeError] and [RangeError]. *)
Variable message_of : exn -> string.

Definition formatSuccess (h : heap) (data : value) (message : option string)
  (options : FormattingOptions) : outcome response :=
  match createSuccessResponse h options data message with
  | Ok results => Returned (Fragments results)
  | Throw e => Raised (Error (message_of e))
  end.

Definition formatError (error : string) : ChunkedToolCallResult :=
  createErrorResponse error.

Definition handleExecution {Args : Type} (handler : Args -> outcome response)
  (args : Args) : response :=
  match handler args with
  | Returned r => r
  | Raised (N8nApiError message) => Single (formatError message)
  | Raised (Error message) =>
      Single (formatError ("Error executing execution tool: " +++ message))
  | Raised NotAnError =>
      Single (formatError ("Error executing execution tool: "
                           +++ "Unknown error occurred"))
  end.

End BaseExecutionToolHandler.

(* ================================================================== *)
(** * Definitions of the specification and of the proofs *)
(* ================================================================== *)

(** ** The window of the paginator, as specified *)

(** The window as the specification words it. *)
Definition clamp (lo hi x : Z) : Z :=
  if x <? lo then lo else if hi <? x then hi else x.

Definition at_least (lo x : Z) : Z := if x <? lo then lo else x.

Definition window {T : Type} (S : list T) (from count : Z) : list T :=
  firstn (Z.to_nat count) (skipn (Z.to_nat from) S).

(** ** The chunking path, as specified *)

(** The chunking path as the specification words it: truncate the value
    once, chunk the truncated value, and attach the one truncation record
    to every fragment. *)
Definition truncate_once_then_chunk (h : heap) (options : FormattingOptions)
  (data : value) : result (list ChunkedToolCallResult) :=
  let (truncated, record) := formatTruncatedResponse h data options in
  '(chunks, continuation) <- chunkResponse h options truncated ;;
  mapiR (fun chunk index =>
           s <- formattedString h chunk ;;
           Ok {| text := s;
                 isError := None;
                 isChunked := Some true;
                 chunkIndex := Some index;
                 totalChunks := Some (Z.of_nat (List.length chunks));
                 continuationToken :=
                   if index =? Z.of_nat (List.length chunks) - 1
                   then continuation else None;
                 metadata := truncation_of record |})
    chunks 0.

(** ** What the chunks hold and what the chunker measured *)

(** The elements, or the pairs, that a chunk holds. *)
Definition elements_of (chunk : value) : list value :=
  match chunk with
  | VArr items => items
  | _ => []
  end.

Definition pairs_of (chunk : value) : list (string * value) :=
  match chunk with
  | VObj props => props
  | _ => []
  end.

(** The size the chunker measured for an element or a pair. *)
Definition measured {A : Type} (size : A -> result Z) (x : A) : Z :=
  match size x with
  | Ok n => n
  | Throw _ => 0
  end.

Definition total_size {A : Type} (size : A -> result Z) (l : list A) : Z :=
  fold_right (fun x acc => measured size x + acc) 0 l.


(** A group of elements is within the budget when the sizes measured for
    its elements add up to at most [maxChunkSize], or when it is a single
    element that alone is over the budget. *)
Definition elements_within (h : heap) (options : FormattingOptions)
  (l : list value) : Prop :=
  total_size (itemSize h) l <= max_chunk options
  \/ exists x, l = [x] /\ max_chunk options < measured (itemSize h) x.

(** A chunk of a mapping is within the budget when the sizes measured for
    its pairs add up to at most [maxChunkSize], or when it is the
    truncated form of a single pair that alone is over the budget. *)
Definition pairs_within (h : heap) (options : FormattingOptions)
  (chunk : value) : Prop :=
  (exists l, chunk = VObj l /\ total_size (entrySize h) l <= max_chunk options)
  \/ exists entry,
       max_chunk options < measured (entrySize h) entry
       /\ chunk = fst (formatTruncatedResponse h (VObj [entry]) options).


(** The size bound as C3 states it: the serialized chunk is at most
    [maxChunkSize] long, unless the chunk holds a single element that
    alone is over the budget. *)
Definition serialized_within (h : heap) (options : FormattingOptions)
  (chunk : value) : Prop :=
  measured (itemSize h) chunk <= max_chunk options
  \/ exists x, elements_of chunk = [x]
               /\ max_chunk options < measured (itemSize h) x.

(** ** Objects rebuilt by assignment *)

(** The keys under which an assignment adds a property. *)
Definition settable (key : string) : bool := negb (String.eqb key proto).

(** [v] rebuilt by assignments at every depth: the same value without the
    pairs whose key is ["__proto__"]. *)
Fixpoint without_proto (v : value) : value :=
  match v with
  | VArr items => VArr (map without_proto items)
  | VObj props =>
      VObj (assigned (map (fun kv => (fst kv, without_proto (snd kv))) props))
  | _ => v
  end.

(** No object of [v], at any depth, has the key ["__proto__"]. *)
Fixpoint proto_free (v : value) : bool :=
  match v with
  | VArr items => forallb proto_free items
  | VObj props => forallb (fun kv => settable (fst kv) && proto_free (snd kv)) props
  | _ => true
  end.


(** ** The value and the flag of a truncation pass *)

Section TruncationPass.

Variables maxArrayItems maxObjectDepth : Z.

(** The value that [formatValue] returns, and whether it sets
    [wasTruncated] on the way. *)
Fixpoint truncated (fuel : nat) (h : heap) (v : value) (depth : Z) : value :=
  match fuel with
  | O => depth_sentinel
  | S fuel =>
      if depth >? maxObjectDepth then depth_sentinel
      else
        match deref h v with
        | VArr items =>
            let len := Z.of_nat (List.length items) in
            if len >? maxArrayItems then
              VArr (map (fun item => truncated fuel h item (depth + 1))
                      (slice items 0 maxArrayItems)
                    ++ [more_items (len - maxArrayItems)])
            else VArr (map (fun item => truncated fuel h item (depth + 1)) items)
        | VObj props =>
            VObj (assigned
                    (map (fun kv => (fst kv, truncated fuel h (snd kv) (depth + 1)))
                       props))
        | other => other
        end
  end.

Fixpoint cuts (fuel : nat) (h : heap) (v : value) (depth : Z) : bool :=
  match fuel with
  | O => true
  | S fuel =>
      if depth >? maxObjectDepth then true
      else
        match deref h v with
        | VArr items =>
            if Z.of_nat (List.length items) >? maxArrayItems then true
            else existsb (fun item => cuts fuel h item (depth + 1)) items
        | VObj props =>
            existsb (fun kv => cuts fuel h (snd kv) (depth + 1)) props
        | _ => false
        end
  end.


End TruncationPass.

Definition accounts (c : Closure.t) (cut : bool) (c' : Closure.t) : Prop :=
  Closure.wasTruncated c' = Closure.wasTruncated c || cut
  /\ (cut = false -> c' = c).

(** ** The reference cost of the size estimator *)

(** The cost recursion as the specification words it, on a graph [h]:
    [cost h visited v n visited'] says that [v], met when the composites
    [visited] have been seen, costs [n] and leaves [visited'] seen. *)
Inductive cost (h : heap) : list addr -> value -> Z -> list addr -> Prop :=
| cost_null visited :
    cost h visited VNull 4 visited
| cost_boolean visited b :
    cost h visited (VBool b) 4 visited
| cost_number visited n :
    cost h visited (VNum n) 8 visited
| cost_string visited s :
    cost h visited (VStr s) (2 * str_length s) visited
| cost_sequence visited items n visited' :
    cost_children h visited items n visited' ->
    cost h visited (VArr items) (8 + n) visited'
| cost_mapping visited props n visited' :
    cost_pairs h visited props n visited' ->
    cost h visited (VObj props) (8 + n) visited'
| cost_repeat visited a :
    In a visited ->
    cost h visited (VRef a) 0 visited
| cost_stored visited a n visited' :
    ~ In a visited ->
    cost h (a :: visited) (lookup h a) n visited' ->
    cost h visited (VRef a) n visited'
with cost_children (h : heap) : list addr -> list value -> Z -> list addr -> Prop :=
| cost_children_nil visited :
    cost_children h visited [] 0 visited
| cost_children_cons visited child n visited1 rest m visited2 :
    cost h visited child n visited1 ->
    cost_children h visited1 rest m visited2 ->
    cost_children h visited (child :: rest) (n + m) visited2
with cost_pairs (h : heap) : list addr -> list (string * value) -> Z -> list addr -> Prop :=
| cost_pairs_nil visited :
    cost_pairs h visited [] 0 visited
| cost_pairs_cons visited key child n visited1 rest m visited2 :
    cost h visited child n visited1 ->
    cost_pairs h visited1 rest m visited2 ->
    cost_pairs h visited ((key, child) :: rest) (2 * str_length key + n + m) visited2.

Scheme cost_mut := Induction for cost Sort Prop
  with cost_children_mut := Induction for cost_children Sort Prop
  with cost_pairs_mut := Induction for cost_pairs Sort Prop.

(** The values written without references: trees, as parsed JSON is. *)
Fixpoint ref_free (v : value) : bool :=
  match v with
  | VRef _ => false
  | VArr items => forallb ref_free items
  | VObj props => forallb (fun kv => ref_free (snd kv)) props
  | _ => true
  end.

(** The values of the specification's data model: no [undefined]. *)
Fixpoint defined (v : value) : bool :=
  match v with
  | VUndef => false
  | VArr items => forallb defined items
  | VObj props => forallb (fun kv => defined (snd kv)) props
  | _ => true
  end.

Definition heap_defined (h : heap) : bool :=
  forallb (fun c => defined (cell_value c)) h.

Definition graph_defined (h : heap) (v : value) : bool :=
  defined v && heap_defined h.

(** What the stored composites not yet visited can add to the depth of
    the recursion. *)
Definition weight_at (h : heap) (visited : list addr) (a : addr) : nat :=
  if existsb (Nat.eqb a) visited then O
  else match nth_error h a with
       | Some c => cell_weight c
       | None => O
       end.

Definition unvisited_weight (h : heap) (visited : list addr) : nat :=
  list_sum (map (weight_at h visited) (seq 0 (List.length h))).

(** What one call of [sizeOf] owes: a result, a visited set that has only
    grown, and, on the values of the specification, the reference cost. *)
Definition sized (h : heap) (r : result (Z * list addr)) (visited : list addr)
  (v : value) : Prop :=
  exists n visited',
    r = Ok (n, visited')
    /\ incl visited visited'
    /\ (heap_defined h = true -> defined v = true -> cost h visited v n visited').

(** ** Shapes of values *)

(** Every sequence of [v], at any depth, has at most [n] elements. *)
Fixpoint arrays_within (n : Z) (v : value) : bool :=
  match v with
  | VArr items =>
      (Z.of_nat (List.length items) <=? n) && forallb (arrays_within n) items
  | VObj props => forallb (fun kv => arrays_within n (snd kv)) props
  | _ => true
  end.

(** [v] is not an object in the sense of [typeof], or is [null]. *)
Definition primitive (v : value) : bool :=
  negb (typeof_object v) || is_null v.

(** The closure variables of [formatValue] agree with each other: nothing
    is recorded while [wasTruncated] is unset, and once it is set the
    reason is one of the two messages. *)
Definition consistent (c : Closure.t) : Prop :=
  0 <= Closure.itemsOmitted c
  /\ (Closure.wasTruncated c = false ->
      Closure.reason c = None /\ Closure.itemsOmitted c = 0)
  /\ (Closure.wasTruncated c = true ->
      Closure.reason c = Some "Maximum object depth exceeded"%string
      \/ Closure.reason c = Some "Array size limit exceeded"%string).

(** ** The greedy rule of the array loop *)

(** A group is closed only when the element that opens the next group did
    not fit beside it. *)
Fixpoint closed_when_full (h : heap) (options : FormattingOptions)
  (groups : list (list value)) : Prop :=
  match groups with
  | [] => True
  | g :: rest =>
      match rest with
      | [] => True
      | next :: _ =>
          match next with
          | [] => False
          | x :: _ =>
              max_chunk options
              < total_size (itemSize h) g + measured (itemSize h) x
          end
          /\ closed_when_full h options rest
      end
  end.

(** ** Following the pages *)

(** A client that asks for the page at [offset] and then follows
    [nextOffset] with the same [limit] until there is none; [fuel] bounds
    the number of requests. *)
Fixpoint pages_from {T : Type} (fuel : nat) (items : list T) (offset : Z)
  (limit : option Z) : list (list T) :=
  match fuel with
  | O => []
  | S fuel =>
      let r := paginateResults items
                 {| PaginationParams.offset := Some offset;
                    PaginationParams.limit := limit |} in
      data r ::
        match PaginationMetadata.nextOffset (pagination r) with
        | Some next => pages_from fuel items next limit
        | None => []
        end
  end.

(** ** Keys of values *)

(** Every key of [v], at any depth, passes [p]. *)
Fixpoint all_keys (p : string -> bool) (v : value) : bool :=
  match v with
  | VArr items => forallb (all_keys p) items
  | VObj props => forallb (fun kv => p (fst kv) && all_keys p (snd kv)) props
  | _ => true
  end.

(** The two tests that [filterObjectFields] applies to a key: an empty
    list is no filter. *)
Definition selected (options : SerializationOptions) (key : string) : bool :=
  match includeFields options with
  | Some (f :: fs) => includes (f :: fs) key
  | _ => true
  end
  && match excludeFields options with
     | Some (f :: fs) => negb (includes (f :: fs) key)
     | _ => true
     end.

Fixpoint distinct (keys : list string) : bool :=
  match keys with
  | [] => true
  | key :: rest => negb (includes rest key) && distinct rest
  end.

(** The objects of JavaScript hold a key once; so do the objects of [v],
    at any depth. *)
Fixpoint distinct_keys (v : value) : bool :=
  match v with
  | VArr items => forallb distinct_keys items
  | VObj props =>
      distinct (map fst props) && forallb (fun kv => distinct_keys (snd kv)) props
  | _ => true
  end.


(** Every sequence of [v] that is not below an object has at most [n]
    elements. *)
Fixpoint spine_within (n : Z) (v : value) : bool :=
  match v with
  | VArr items =>
      (Z.of_nat (List.length items) <=? n) && forallb (spine_within n) items
  | _ => true
  end.

(** ** Values and limits of the examples *)

(** The object of the repository's test: [{ name: 'circular' }] with a
    property [self] that is the object itself. *)
Definition circularObj : heap :=
  [CObj [("name"%string, VStr "circular"); ("self"%string, VRef 0%nat)]].

Definition limits (response items depth chunk : option Z) : FormattingOptions :=
  {| maxResponseSize := response; maxArrayItems := items;
     maxObjectDepth := depth; maxChunkSize := chunk;
     truncationIndicator := None |}.

Definition numbers (l : list Z) : value := VArr (map VNum l).

(* ================================================================== *)
(** * Properties *)
(* ================================================================== *)

(** ** Assignment *)

Lemma assigned_from (entries obj : list (string * value)) :
  fold_left (fun obj kv => assign obj (fst kv) (snd kv)) entries obj
  = obj ++ filter (fun kv => settable (fst kv)) entries.
Proof.
  revert obj. induction entries as [|[k v] entries IH]; intros obj;
    cbn [fold_left filter fst snd]; [now rewrite app_nil_r|].
  rewrite IH. unfold assign, settable.
  destruct (String.eqb k proto); cbn [negb]; [reflexivity|].
  now rewrite <- app_assoc.
Qed.

Lemma assigned_filter (entries : list (string * value)) :
  assigned entries = filter (fun kv => settable (fst kv)) entries.
Proof.
  unfold assigned. now rewrite assigned_from.
Qed.

Lemma assigned_In (entries : list (string * value)) (kv : string * value) :
  In kv (assigned entries) <-> In kv entries /\ settable (fst kv) = true.
Proof.
  rewrite assigned_filter. apply filter_In.
Qed.

Lemma Forall_assigned (P : string * value -> Prop) (entries : list (string * value)) :
  Forall P entries -> Forall P (assigned entries).
Proof.
  rewrite !Forall_forall. intros H kv Hkv. apply H. now apply assigned_In in Hkv.
Qed.

Lemma assigned_keys (entries : list (string * value)) :
  map fst (assigned entries) = filter settable (map fst entries).
Proof.
  rewrite assigned_filter.
  induction entries as [|[k v] entries IH]; cbn [filter map fst]; [reflexivity|].
  destruct (settable k); cbn [map fst]; now rewrite IH.
Qed.

Lemma assigned_app (l1 l2 : list (string * value)) :
  assigned (l1 ++ l2) = assigned l1 ++ assigned l2.
Proof.
  rewrite !assigned_filter. apply filter_app.
Qed.

Lemma assign_assigned (obj : list (string * value)) (key : string) (v : value) :
  assign obj key v = obj ++ assigned [(key, v)].
Proof.
  unfold assigned, assign. cbn [fold_left fst snd]. unfold assign.
  destruct (String.eqb key proto); [now rewrite app_nil_r | reflexivity].
Qed.

(** ** The paginator *)

Lemma firstn_beyond {A : Type} (l : list A) (n m : nat) :
  (List.length l <= n)%nat -> (List.length l <= m)%nat -> firstn n l = firstn m l.
Proof.
  intros Hn Hm. now rewrite !firstn_all2.
Qed.

Lemma slice_window {T : Type} (S : list T) (from count : Z) :
  0 <= from <= Z.of_nat (List.length S) -> 1 <= count ->
  slice S from (from + count) = window S from count.
Proof.
  intros Hfrom Hcount. unfold slice, window, relative_index.
  destruct (from <? 0) eqn:E1; [lia|].
  destruct (from + count <? 0) eqn:E2; [lia|].
  rewrite (Z.min_l from) by lia.
  destruct (Z.le_gt_cases (from + count) (Z.of_nat (List.length S))) as [Hle|Hgt].
  - rewrite Z.min_l by lia. f_equal. lia.
  - rewrite Z.min_r by lia.
    apply firstn_beyond; rewrite length_skipn; lia.
Qed.

Lemma clamp_max_min (total x : Z) :
  0 <= total -> Z.max 0 (Z.min x total) = clamp 0 total x.
Proof.
  intros Ht. unfold clamp.
  destruct (x <? 0) eqn:E1; [lia|].
  destruct (total <? x) eqn:E2; lia.
Qed.

Lemma at_least_max (lo x : Z) : Z.max lo x = at_least lo x.
Proof.
  unfold at_least. destruct (x <? lo) eqn:E; lia.
Qed.

Lemma window_length {T : Type} (S : list T) (from count : Z) :
  0 <= from -> 0 <= count ->
  Z.of_nat (List.length (window S from count))
  = Z.min count (Z.max 0 (Z.of_nat (List.length S) - from)).
Proof.
  intros Hf Hc. unfold window. rewrite length_firstn, length_skipn. lia.
Qed.

Lemma paginateResults_unfold {T : Type} (S : list T) (offset limit : option Z) :
  let total := Z.of_nat (List.length S) in
  let clampedOffset := clamp 0 total (or_default offset 0) in
  let clampedLimit := at_least 1 (or_default limit 10) in
  paginateResults S {| PaginationParams.offset := offset;
                       PaginationParams.limit := limit |}
  = {| data := window S clampedOffset clampedLimit;
       pagination :=
         {| PaginationMetadata.offset := clampedOffset;
            PaginationMetadata.limit := clampedLimit;
            PaginationMetadata.total := total;
            PaginationMetadata.hasMore := clampedOffset + clampedLimit <? total;
            PaginationMetadata.nextOffset :=
              if clampedOffset + clampedLimit <? total
              then Some (clampedOffset + clampedLimit) else None;
            PaginationMetadata.prevOffset :=
              if clampedOffset >? 0
              then Some (Z.max 0 (clampedOffset - clampedLimit)) else None |} |}.
Proof.
  intros total clampedOffset clampedLimit.
  assert (Ht : 0 <= total) by (unfold total; lia).
  unfold paginateResults; cbn [PaginationParams.offset PaginationParams.limit].
  fold total. rewrite !clamp_max_min by exact Ht. rewrite !at_least_max.
  fold clampedOffset clampedLimit.
  rewrite slice_window; [ reflexivity | | ].
  - unfold clampedOffset. rewrite <- clamp_max_min by exact Ht. fold total. lia.
  - unfold clampedLimit. rewrite <- at_least_max. lia.
Qed.

(** C5.  For every sequence and every [{offset, limit}]: the offset
    defaults to 0 and is clamped into [0, total], the limit defaults to 10
    and is clamped to at least 1; the data is the window
    [S[offset : offset+limit]] of the clamped values, of length
    [min(limit, max(0, total - offset))], and empty for every requested
    offset beyond the total; [hasMore], [nextOffset] and [prevOffset] are
    as specified. *)
Theorem paginateResults_window :
  forall (T : Type) (S : list T) (offset limit : option Z) (beyond : nat),
    let total := Z.of_nat (List.length S) in
    let clampedOffset := clamp 0 total (or_default offset 0) in
    let clampedLimit := at_least 1 (or_default limit 10) in
    let r := paginateResults S
               {| PaginationParams.offset := offset;
                  PaginationParams.limit := limit |} in
    let p := pagination r in
    PaginationMetadata.offset p = clampedOffset
    /\ PaginationMetadata.limit p = clampedLimit
    /\ PaginationMetadata.total p = total
    /\ 0 <= clampedOffset <= total
    /\ 1 <= clampedLimit
    /\ data r = window S clampedOffset clampedLimit
    /\ Z.of_nat (List.length (data r))
       = Z.min clampedLimit (Z.max 0 (total - clampedOffset))
    /\ data (paginateResults S
               {| PaginationParams.offset := Some (total + Z.of_nat (Datatypes.S beyond));
                  PaginationParams.limit := limit |}) = []
    /\ PaginationMetadata.hasMore p = (clampedOffset + clampedLimit <? total)
    /\ PaginationMetadata.nextOffset p
       = (if PaginationMetadata.hasMore p
          then Some (clampedOffset + clampedLimit) else None)
    /\ PaginationMetadata.prevOffset p
       = (if 0 <? clampedOffset
          then Some (Z.max 0 (clampedOffset - clampedLimit)) else None).
Proof.
  intros T S offset limit beyond total clampedOffset clampedLimit r p.
  assert (Ht : 0 <= total) by (unfold total; lia).
  assert (Ho : 0 <= clampedOffset <= total).
  { unfold clampedOffset. rewrite <- clamp_max_min by exact Ht. lia. }
  assert (Hl : 1 <= clampedLimit).
  { unfold clampedLimit. rewrite <- at_least_max. lia. }
  unfold p, r. rewrite !paginateResults_unfold.
  cbn [data pagination PaginationMetadata.offset PaginationMetadata.limit
       PaginationMetadata.total PaginationMetadata.hasMore
       PaginationMetadata.nextOffset PaginationMetadata.prevOffset].
  fold total clampedOffset clampedLimit.
  repeat split; try tauto; try lia.
  - apply window_length; lia.
  - cbn [or_default].
    assert (E : clamp 0 total (total + Z.of_nat (Datatypes.S beyond)) = total).
    { unfold clamp.
      destruct (Z.ltb_spec (total + Z.of_nat (Datatypes.S beyond)) 0); [lia|].
      destruct (Z.ltb_spec total (total + Z.of_nat (Datatypes.S beyond))); lia. }
    rewrite E. unfold window.
    rewrite skipn_all2; [ now rewrite firstn_nil | unfold total; lia ].
  - now rewrite Z.gtb_ltb.
Qed.

(** ** Exceptions and callbacks *)

Lemma bind_Ok {A B : Type} (m : result A) (k : A -> result B) (b : B) :
  bind m k = Ok b -> exists a, m = Ok a /\ k a = Ok b.
Proof.
  destruct m as [a|e]; cbn; [ eauto | discriminate ].
Qed.

Lemma bind_Throw {A B : Type} (m : result A) (k : A -> result B) (e : exn) :
  m = Throw e -> bind m k = Throw e.
Proof.
  intros ->. reflexivity.
Qed.

Ltac bind_inv H :=
  let a := fresh "a" in
  let Ha := fresh "Ha" in
  apply bind_Ok in H; destruct H as (a & Ha & H).

Lemma mapiR_nth {A B : Type} (f : A -> Z -> result B) (l : list A) :
  forall (i : Z) (rs : list B),
    mapiR f l i = Ok rs ->
    List.length rs = List.length l
    /\ forall (k : nat) (r : B),
         nth_error rs k = Some r ->
         exists x, nth_error l k = Some x /\ f x (i + Z.of_nat k) = Ok r.
Proof.
  induction l as [|x l IH]; intros i rs H; cbn in H.
  - injection H as <-. split; [reflexivity|]. intros [|k] r Hk; discriminate.
  - bind_inv H. bind_inv H. injection H as <-.
    destruct (IH _ _ Ha0) as [Hlen Hnth]. split; [cbn; congruence|].
    intros [|k] r Hk; cbn in Hk.
    + injection Hk as <-. exists x. split; [reflexivity|].
      now rewrite Z.add_0_r.
    + destruct (Hnth _ _ Hk) as (y & Hy & Hf). exists y. split; [exact Hy|].
      rewrite <- Hf. f_equal. lia.
Qed.

(** ** The admission check *)

(** C8.  Whenever the size estimate throws, or the confirming
    serialization (serialize, then measure) throws, [needsChunking]
    answers [true]; being a boolean function it hands no exception to its
    caller. *)
Theorem needsChunking_failure_is_true :
  forall (h : heap) (data : value) (options : FormattingOptions) (e : exn),
    approximateObjectSize h data = Throw e
    \/ (jsonString <- serializeToJson h data no_options ;; length_of jsonString)
       = Throw e ->
    needsChunking h data options = true.
Proof.
  intros h data options e [H|H]; unfold needsChunking, isObjectTooLarge.
  - rewrite H. reflexivity.
  - destruct (approximateObjectSize h data) as [size|e']; [|reflexivity].
    cbn [bind]. destruct (size >? _); [reflexivity|].
    destruct (serializeToJson h data no_options) as [s|e']; cbn in H |- *;
      [|reflexivity].
    rewrite H. reflexivity.
Qed.

Lemma needsChunking_failure_is_true_witness :
  (jsonString <- serializeToJson circularObj (VRef 0%nat) no_options ;;
   length_of jsonString) = Throw RangeError
  /\ needsChunking circularObj (VRef 0%nat) default_options = true.
Proof.
  split.
  - vm_compute. reflexivity.
  - apply (needsChunking_failure_is_true circularObj (VRef 0%nat)
             default_options RangeError).
    right. vm_compute. reflexivity.
Defined.

(** ** Fragments of a chunked result *)

Lemma chunkResponse_token (h : heap) (options : FormattingOptions) (data : value)
  (chunks : list value) (continuation : option token) :
  chunkResponse h options data = Ok (chunks, continuation) ->
  continuation <> None <-> (1 < List.length chunks)%nat.
Proof.
  unfold chunkResponse.
  assert (one : forall v : value,
             Ok ([v], @None token) = Ok (chunks, continuation) ->
             continuation <> None <-> (1 < List.length chunks)%nat).
  { intros v E. injection E as <- <-. cbn. split; [congruence|lia]. }
  destruct (negb (typeof_object data) || is_null data); [apply one|].
  destruct (deref h data) as [| |b|n|s|items|entries|a]; try apply one.
  - destruct (chunk_items h options items [] [] 0) as [[cs cur]|e];
      cbn [bind]; [|discriminate].
    intros E. injection E as <- <-. rewrite length_map.
    destruct (Z.gtb_spec (Z.of_nat (List.length
      (if nonempty cur then cs ++ [cur] else cs))) 1);
      split; try congruence; lia.
  - destruct (chunk_entries h options entries [] [] 0) as [[cs cur]|e];
      cbn [bind]; [|discriminate].
    intros E. injection E as <- <-.
    destruct (Z.gtb_spec (Z.of_nat (List.length
      (if nonempty cur then cs ++ [VObj cur] else cs))) 1);
      split; try congruence; lia.
Qed.

Lemma formatChunkedResponse_chunks (h : heap) (options : FormattingOptions)
  (data : value) (results : list ChunkedToolCallResult) :
  needsChunking h data options = true ->
  formatChunkedResponse h options data = Ok results ->
  exists chunks continuation,
    chunkResponse h options data = Ok (chunks, continuation)
    /\ mapiR (format_chunk h options (Z.of_nat (List.length chunks)) continuation)
         chunks 0 = Ok results.
Proof.
  intros Hn H. unfold formatChunkedResponse in H. rewrite Hn in H. cbn [negb] in H.
  bind_inv H. destruct a as [chunks continuation]. eauto.
Qed.

(** C9.  In a chunked result a continuation token exists exactly when
    there is more than one fragment, and only the last fragment carries
    it; every fragment has [isChunked = true], its 0-based [chunkIndex],
    and [totalChunks] equal to the number of fragments. *)
Theorem chunked_result_positions :
  forall (h : heap) (options : FormattingOptions) (data : value)
         (results : list ChunkedToolCallResult),
    needsChunking h data options = true ->
    formatChunkedResponse h options data = Ok results ->
    exists (chunks : list value) (continuation : option token),
      chunkResponse h options data = Ok (chunks, continuation)
      /\ List.length results = List.length chunks
      /\ (continuation <> None <-> (1 < List.length results)%nat)
      /\ forall (index : nat) (r : ChunkedToolCallResult),
           nth_error results index = Some r ->
           isChunked r = Some true
           /\ chunkIndex r = Some (Z.of_nat index)
           /\ totalChunks r = Some (Z.of_nat (List.length results))
           /\ continuationToken r
              = (if Nat.eqb (S index) (List.length results)
                 then continuation else None).
Proof.
  intros h options data results Hn H.
  destruct (formatChunkedResponse_chunks _ _ _ _ Hn H)
    as (chunks & continuation & Hc & Hm).
  destruct (mapiR_nth _ _ _ _ Hm) as [Hlen Hnth].
  exists chunks, continuation. repeat split.
  - exact Hc.
  - exact Hlen.
  - rewrite Hlen. apply (chunkResponse_token _ _ _ _ _ Hc).
  - rewrite Hlen. apply (chunkResponse_token _ _ _ _ _ Hc).
  - destruct (Hnth _ _ H0) as (chunk & _ & Hf). unfold format_chunk in Hf.
    destruct (formatTruncatedResponse h chunk options). bind_inv Hf.
    now injection Hf as <-.
  - destruct (Hnth _ _ H0) as (chunk & _ & Hf). unfold format_chunk in Hf.
    destruct (formatTruncatedResponse h chunk options). bind_inv Hf.
    now injection Hf as <-.
  - destruct (Hnth _ _ H0) as (chunk & _ & Hf). unfold format_chunk in Hf.
    destruct (formatTruncatedResponse h chunk options). bind_inv Hf.
    injection Hf as <-. cbn [totalChunks]. now rewrite Hlen.
  - destruct (Hnth _ _ H0) as (chunk & Hk & Hf). unfold format_chunk in Hf.
    destruct (formatTruncatedResponse h chunk options). bind_inv Hf.
    injection Hf as <-. cbn [continuationToken]. rewrite Hlen.
    assert (Hlt : (index < List.length chunks)%nat).
    { apply nth_error_Some. congruence. }
    destruct (Nat.eqb_spec (S index) (List.length chunks)) as [E|E];
      destruct (Z.eqb_spec (Z.of_nat index) (Z.of_nat (List.length chunks) - 1));
      try reflexivity; lia.
Qed.

Lemma chunked_result_positions_witness :
  exists results,
    formatChunkedResponse [] (limits (Some 1) None None (Some 3))
      (numbers [1; 2; 3; 4; 55555; 6]) = Ok results
    /\ List.length results = 4%nat
    /\ exists (chunks : list value) (continuation : option token),
      chunkResponse [] (limits (Some 1) None None (Some 3))
        (numbers [1; 2; 3; 4; 55555; 6]) = Ok (chunks, continuation)
      /\ List.length results = List.length chunks
      /\ (continuation <> None <-> (1 < List.length results)%nat)
      /\ forall (index : nat) (r : ChunkedToolCallResult),
           nth_error results index = Some r ->
           isChunked r = Some true
           /\ chunkIndex r = Some (Z.of_nat index)
           /\ totalChunks r = Some (Z.of_nat (List.length results))
           /\ continuationToken r
              = (if Nat.eqb (S index) (List.length results)
                 then continuation else None).
Proof.
  destruct (formatChunkedResponse [] (limits (Some 1) None None (Some 3))
              (numbers [1; 2; 3; 4; 55555; 6])) as [results|e] eqn:E;
    [ | vm_compute in E; discriminate ].
  exists results. split; [reflexivity|]. split.
  - vm_compute in E. injection E as <-. reflexivity.
  - apply (chunked_result_positions [] (limits (Some 1) None None (Some 3))
             (numbers [1; 2; 3; 4; 55555; 6]) results);
      [ vm_compute; reflexivity | exact E ].
Defined.

(** C10.  Chunking an empty sequence or an empty mapping gives no chunk
    and no continuation token; when the chunking path is taken for such a
    value the formatter returns the empty list of fragments. *)
Theorem empty_composite_no_fragments :
  forall (h : heap) (options : FormattingOptions) (data : value),
    deref h data = VArr [] \/ deref h data = VObj [] ->
    chunkResponse h options data = Ok ([], None)
    /\ (needsChunking h data options = true ->
        formatChunkedResponse h options data = Ok []).
Proof.
  intros h options data Hd.
  assert (Hc : chunkResponse h options data = Ok ([], None)).
  { unfold chunkResponse.
    assert (Ht : negb (typeof_object data) || is_null data = false).
    { destruct data; cbn in Hd; destruct Hd; try discriminate; reflexivity. }
    rewrite Ht. destruct Hd as [-> | ->]; reflexivity. }
  split; [exact Hc|].
  intros Hn. unfold formatChunkedResponse. rewrite Hn, Hc. reflexivity.
Qed.

Lemma empty_composite_no_fragments_witness :
  needsChunking [] (VArr []) (limits (Some 1) None None None) = true
  /\ chunkResponse [] (limits (Some 1) None None None) (VArr []) = Ok ([], None)
  /\ formatChunkedResponse [] (limits (Some 1) None None None) (VArr []) = Ok [].
Proof.
  destruct (empty_composite_no_fragments [] (limits (Some 1) None None None)
              (VArr []) (or_introl eq_refl)) as [Hc Hf].
  split; [vm_compute; reflexivity|]. split; [exact Hc|].
  apply Hf. vm_compute. reflexivity.
Defined.

(** ** Truncation and chunking in the formatter *)

(** Counterexample to C1.  With [maxArrayItems = 2], [maxChunkSize = 7]
    and [maxResponseSize = 1] the value [[[1,2,3],[4]]] takes the chunking
    path.  One truncation pass over it omits one item, and that record
    would be on both fragments; the code chunks the value as it is and
    truncates each chunk, so the first fragment carries a record and the
    second carries none. *)
Lemma chunking_path_truncates_each_chunk :
  let options := limits (Some 1) (Some 2) None (Some 7) in
  let v := VArr [numbers [1; 2; 3]; numbers [4]] in
  needsChunking [] v options = true
  /\ formatChunkedResponse [] options v <> truncate_once_then_chunk [] options v
  /\ exists first second,
       formatChunkedResponse [] options v = Ok [first; second]
       /\ metadata first <> None
       /\ metadata second = None
       /\ TruncationMetadata.wasTruncated
            (snd (formatTruncatedResponse [] v options)) = true.
Proof.
  cbv zeta. split; [vm_compute; reflexivity|]. split.
  - vm_compute. discriminate.
  - eexists. eexists. split; [vm_compute; reflexivity|].
    split; [cbn; discriminate|]. split; vm_compute; reflexivity.
Qed.

(** C1, amended.  On the chunking path the formatter chunks the value as
    it was given and then truncates every chunk on its own: the text of a
    fragment is the text of its truncated chunk, and the truncation record
    of a fragment, present when that chunk was truncated, is the record of
    truncating that chunk. *)
Theorem chunking_path_truncation :
  forall (h : heap) (options : FormattingOptions) (data : value)
         (results : list ChunkedToolCallResult),
    needsChunking h data options = true ->
    formatChunkedResponse h options data = Ok results ->
    exists (chunks : list value) (continuation : option token),
      chunkResponse h options data = Ok (chunks, continuation)
      /\ List.length results = List.length chunks
      /\ forall (index : nat) (r : ChunkedToolCallResult),
           nth_error results index = Some r ->
           exists chunk,
             nth_error chunks index = Some chunk
             /\ formattedString h (fst (formatTruncatedResponse h chunk options))
                = Ok (text r)
             /\ metadata r
                = truncation_of (snd (formatTruncatedResponse h chunk options)).
Proof.
  intros h options data results Hn H.
  destruct (formatChunkedResponse_chunks _ _ _ _ Hn H)
    as (chunks & continuation & Hc & Hm).
  destruct (mapiR_nth _ _ _ _ Hm) as [Hlen Hnth].
  exists chunks, continuation. repeat split; [exact Hc | exact Hlen |].
  intros index r Hr. destruct (Hnth _ _ Hr) as (chunk & Hk & Hf).
  exists chunk. split; [exact Hk|]. unfold format_chunk in Hf.
  destruct (formatTruncatedResponse h chunk options) as [formattedData record].
  bind_inv Hf. injection Hf as <-. split; [exact Ha | reflexivity].
Qed.

Lemma chunking_path_truncation_witness :
  let options := limits (Some 1) (Some 2) None (Some 7) in
  let v := VArr [numbers [1; 2; 3]; numbers [4]] in
  exists results,
    formatChunkedResponse [] options v = Ok results
    /\ exists (chunks : list value) (continuation : option token),
      chunkResponse [] options v = Ok (chunks, continuation)
      /\ List.length results = List.length chunks
      /\ forall (index : nat) (r : ChunkedToolCallResult),
           nth_error results index = Some r ->
           exists chunk,
             nth_error chunks index = Some chunk
             /\ formattedString [] (fst (formatTruncatedResponse [] chunk options))
                = Ok (text r)
             /\ metadata r
                = truncation_of (snd (formatTruncatedResponse [] chunk options)).
Proof.
  cbv zeta.
  destruct (formatChunkedResponse [] (limits (Some 1) (Some 2) None (Some 7))
              (VArr [numbers [1; 2; 3]; numbers [4]])) as [results|e] eqn:E;
    [ | vm_compute in E; discriminate ].
  exists results. split; [reflexivity|].
  apply (chunking_path_truncation [] (limits (Some 1) (Some 2) None (Some 7))
           (VArr [numbers [1; 2; 3]; numbers [4]]) results);
    [ vm_compute; reflexivity | exact E ].
Defined.

(** ** The chunker: what the chunks hold *)

Lemma measured_Ok {A : Type} (size : A -> result Z) (x : A) (n : Z) :
  size x = Ok n -> measured size x = n.
Proof.
  unfold measured. now intros ->.
Qed.

Lemma total_size_app {A : Type} (size : A -> result Z) (l1 l2 : list A) :
  total_size size (l1 ++ l2) = total_size size l1 + total_size size l2.
Proof.
  unfold total_size. induction l1 as [|x l1 IH]; cbn [app fold_right].
  - reflexivity.
  - rewrite IH. lia.
Qed.

Lemma nonempty_false {A : Type} (l : list A) : nonempty l = false -> l = [].
Proof.
  destruct l; [reflexivity | discriminate].
Qed.

Lemma nonempty_true {A : Type} (l : list A) : nonempty l = true -> l <> [].
Proof.
  destruct l; [discriminate | discriminate].
Qed.

Lemma length_append (s1 s2 : string) :
  String.length (s1 +++ s2) = (String.length s1 + String.length s2)%nat.
Proof.
  induction s1 as [|c s1 IH]; cbn; [reflexivity | now rewrite IH].
Qed.

Lemma wrap_compact_length (opening closing indent : string) (partial : list string) :
  str_length opening + str_length closing
  <= str_length (wrap EmptyString opening closing indent partial).
Proof.
  unfold wrap, str_length. destruct partial as [|p partial].
  - rewrite length_append. lia.
  - cbn [String.eqb]. rewrite !length_append. lia.
Qed.

(** An entry measures at least the two braces around it. *)
Lemma entrySize_braces (h : heap) (entry : string * value) (n : Z) :
  entrySize h entry = Ok n -> 2 <= n.
Proof.
  unfold entrySize, JSON_stringify, depth_bound. intros H. bind_inv H.
  cbn [SerializeJSONProperty SerializeJSONComposite] in Ha.
  unfold SerializeJSONObject in Ha. bind_inv Ha. injection Ha as <-.
  cbn [length_of] in H. injection H as <-.
  pose proof (wrap_compact_length "{" "}" EmptyString (List.concat a0)) as Hw.
  cbn [str_length String.length] in Hw |- *. cbn in Hw. lia.
Qed.

Lemma length_of_nonneg (s : option string) (n : Z) : length_of s = Ok n -> 0 <= n.
Proof.
  destruct s as [s|]; [|discriminate]. cbn [length_of]. intros H.
  injection H as <-. unfold str_length. lia.
Qed.

Lemma measured_itemSize_nonneg (h : heap) (item : value) :
  0 <= measured (itemSize h) item.
Proof.
  unfold measured. destruct (itemSize h item) as [n|e] eqn:E; [|lia].
  unfold itemSize in E. bind_inv E. now apply length_of_nonneg in E.
Qed.

Lemma measured_entrySize_nonneg (h : heap) (entry : string * value) :
  0 <= measured (entrySize h) entry.
Proof.
  unfold measured. destruct (entrySize h entry) as [n|e] eqn:E; [|lia].
  apply entrySize_braces in E. lia.
Qed.

Lemma total_size_nonneg {A : Type} (size : A -> result Z) (l : list A) :
  (forall x, 0 <= measured size x) -> 0 <= total_size size l.
Proof.
  intros Hm. unfold total_size. induction l as [|x l IH]; cbn [fold_right]; [lia|].
  specialize (Hm x). lia.
Qed.

Section ChunkerLoops.

Variable h : heap.
Variable options : FormattingOptions.


Lemma single_element_within (item : value) : elements_within h options [item].
Proof.
  unfold elements_within. cbn [total_size fold_right].
  destruct (Z.le_gt_cases (measured (itemSize h) item) (max_chunk options)).
  - left. lia.
  - right. exists item. split; [reflexivity | lia].
Qed.

Lemma chunk_items_within (items : list value) :
  forall (chunks : list (list value)) (cur : list value) (size : Z)
         (chunks' : list (list value)) (cur' : list value),
    chunk_items h options items chunks cur size = Ok (chunks', cur') ->
    Forall (elements_within h options) chunks ->
    size = total_size (itemSize h) cur ->
    cur = [] \/ elements_within h options cur ->
    Forall (elements_within h options) chunks' /\ (cur' = [] \/ elements_within h options cur').
Proof.
  induction items as [|item items IH];
    intros chunks cur size chunks' cur' H Hchunks Hsize Hcur;
    cbn [chunk_items] in H.
  - injection H as <- <-. now split.
  - bind_inv H. pose proof (measured_Ok _ _ _ Ha) as Hm.
    destruct (Z.gtb_spec (size + a) (max_chunk options)) as [Hgt|Hle];
      destruct (nonempty cur) eqn:Hne; cbn [andb] in H.
    + apply (IH _ _ _ _ _ H).
      * apply Forall_app. split; [exact Hchunks|]. constructor; [|constructor].
        destruct Hcur as [->|Hcur]; [discriminate | exact Hcur].
      * cbn. lia.
      * right. apply single_element_within.
    + apply nonempty_false in Hne. subst cur. cbn in Hsize.
      apply (IH _ _ _ _ _ H).
      * exact Hchunks.
      * cbn. lia.
      * right. apply single_element_within.
    + apply (IH _ _ _ _ _ H).
      * exact Hchunks.
      * rewrite total_size_app. cbn. lia.
      * right. left. rewrite total_size_app. cbn. lia.
    + apply (IH _ _ _ _ _ H).
      * exact Hchunks.
      * rewrite total_size_app. cbn. lia.
      * right. left. rewrite total_size_app. cbn. lia.
Qed.


Lemma total_size_assign (cur : list (string * value)) (key : string) (v : value) :
  total_size (entrySize h) cur
  <= total_size (entrySize h) (assign cur key v)
  <= total_size (entrySize h) cur + measured (entrySize h) (key, v).
Proof.
  unfold assign. destruct (String.eqb key proto).
  - pose proof (measured_entrySize_nonneg h (key, v)). lia.
  - rewrite total_size_app.
    change (total_size (entrySize h) [(key, v)])
      with (measured (entrySize h) (key, v) + 0).
    pose proof (measured_entrySize_nonneg h (key, v)). lia.
Qed.

(** The running size counts every pair that was assigned, those under
    ["__proto__"] too, which the chunk does not hold: it bounds the sum
    of the pairs that the chunk holds. *)
Lemma chunk_entries_within (entries : list (string * value)) :
  forall (chunks : list value) (cur : list (string * value)) (size : Z)
         (chunks' : list value) (cur' : list (string * value)),
    chunk_entries h options entries chunks cur size = Ok (chunks', cur') ->
    Forall (pairs_within h options) chunks ->
    cur = [] \/ total_size (entrySize h) cur <= max_chunk options ->
    total_size (entrySize h) cur <= size ->
    Forall (pairs_within h options) chunks'
    /\ (cur' = [] \/ total_size (entrySize h) cur' <= max_chunk options).
Proof.
  induction entries as [|entry entries IH];
    intros chunks cur size chunks' cur' H Hchunks Hle Hsize;
    cbn [chunk_entries] in H.
  - injection H as <- <-. now split.
  - bind_inv H. pose proof (measured_Ok _ _ _ Ha) as Hm.
    assert (Hcur : nonempty cur = true -> pairs_within h options (VObj cur)).
    { intros Hne. left. exists cur. split; [reflexivity|].
      destruct Hle as [-> | Hle]; [discriminate | lia]. }
    destruct (Z.gtb_spec a (max_chunk options)) as [Hover|Hfits].
    + apply (IH _ _ _ _ _ H); [ | now left | reflexivity ].
      apply Forall_app. split.
      * destruct (size >? 0); cbn [andb]; [|exact Hchunks].
        destruct (nonempty cur); [|exact Hchunks].
        apply Forall_app. split; [exact Hchunks | ]. constructor; auto.
      * constructor; [|constructor]. right. exists entry.
        split; [lia|reflexivity].
    + destruct entry as [key v]. cbn [fst snd] in H.
      pose proof (total_size_assign cur key v) as Hadd.
      pose proof (total_size_assign [] key v) as Hnew.
      change (total_size (entrySize h) []) with 0 in Hnew.
      destruct (Z.gtb_spec (size + a) (max_chunk options)) as [Hgt|Hsum];
        destruct (nonempty cur) eqn:Hne; cbn [andb] in H.
      * apply (IH _ _ _ _ _ H).
        -- apply Forall_app. split; [exact Hchunks | ]. constructor; auto.
        -- right. lia.
        -- lia.
      * apply nonempty_false in Hne. subst cur.
        apply (IH _ _ _ _ _ H); [exact Hchunks | right; lia | lia].
      * apply (IH _ _ _ _ _ H); [exact Hchunks | right; lia | lia].
      * apply (IH _ _ _ _ _ H); [exact Hchunks | right; lia | lia].
Qed.

End ChunkerLoops.

Lemma deref_array_typeof (h : heap) (data : value) (items : list value) :
  deref h data = VArr items -> negb (typeof_object data) || is_null data = false.
Proof.
  destruct data; cbn; intros E; try discriminate; reflexivity.
Qed.

Lemma deref_object_typeof (h : heap) (data : value) (entries : list (string * value)) :
  deref h data = VObj entries ->
  negb (typeof_object data) || is_null data = false.
Proof.
  destruct data; cbn; intros E; try discriminate; reflexivity.
Qed.

Lemma chunkResponse_array (h : heap) (options : FormattingOptions) (data : value)
  (items : list value) (chunks : list value) (continuation : option token) :
  deref h data = VArr items ->
  chunkResponse h options data = Ok (chunks, continuation) ->
  exists groups cur,
    chunk_items h options items [] [] 0 = Ok (groups, cur)
    /\ chunks = map VArr (if nonempty cur then groups ++ [cur] else groups).
Proof.
  intros Hd H. unfold chunkResponse in H.
  rewrite (deref_array_typeof _ _ _ Hd), Hd in H.
  bind_inv H. destruct a as [groups cur]. injection H as <- _. eauto.
Qed.

Lemma chunkResponse_object (h : heap) (options : FormattingOptions) (data : value)
  (entries : list (string * value)) (chunks : list value)
  (continuation : option token) :
  deref h data = VObj entries ->
  chunkResponse h options data = Ok (chunks, continuation) ->
  exists groups cur,
    chunk_entries h options entries [] [] 0 = Ok (groups, cur)
    /\ chunks = if nonempty cur then groups ++ [VObj cur] else groups.
Proof.
  intros Hd H. unfold chunkResponse in H.
  rewrite (deref_object_typeof _ _ _ Hd), Hd in H.
  bind_inv H. destruct a as [groups cur]. injection H as <- _. eauto.
Qed.



Lemma assigned_all (entries : list (string * value)) :
  forallb (fun entry => settable (fst entry)) entries = true ->
  assigned entries = entries.
Proof.
  rewrite assigned_filter.
  induction entries as [|entry entries IH]; cbn [forallb filter]; [reflexivity|].
  intros H. apply andb_prop in H as [-> H]. now rewrite IH.
Qed.





(** ** The chunker: the budget *)

(** Counterexample to C3.  With [maxChunkSize = 2] the elements of [[1,2]]
    measure one character each, so they share a chunk; the chunk
    serializes to [[1,2]], five characters, and its fragment's text is
    twelve characters long. *)
Lemma chunk_exceeds_budget :
  let options := limits (Some 1) None None (Some 2) in
  let v := numbers [1; 2] in
  chunkResponse [] options v = Ok ([v], None)
  /\ JSON_stringify [] v EmptyString = Ok (Some "[1,2]"%string)
  /\ ~ serialized_within [] options v
  /\ exists r, formatChunkedResponse [] options v = Ok [r]
               /\ str_length (text r) = 12.
Proof.
  cbv zeta. split; [vm_compute; reflexivity|].
  split; [vm_compute; reflexivity|]. split.
  - intros [H | (x & Hx & _)].
    + vm_compute in H. apply H. reflexivity.
    + discriminate.
  - eexists. split; vm_compute; reflexivity.
Qed.

(** C3, amended.  The budget bounds what the chunker measures, the sum of
    the serialized sizes of the elements or pairs of a chunk, not the
    serialized chunk.  In every chunk of a sequence that sum is at most
    [maxChunkSize], unless the chunk is a single element that alone is over
    the budget.  In every chunk of a mapping that sum is at most
    [maxChunkSize], unless the chunk is the truncated form of a single pair
    that alone is over the budget. *)
Theorem chunkResponse_budget :
  forall (h : heap) (options : FormattingOptions) (data : value)
         (chunks : list value) (continuation : option token),
    chunkResponse h options data = Ok (chunks, continuation) ->
    (forall items,
        deref h data = VArr items ->
        Forall (fun chunk =>
                  exists l, chunk = VArr l /\ elements_within h options l)
               chunks)
    /\ (forall entries,
           deref h data = VObj entries ->
           Forall (pairs_within h options) chunks).
Proof.
  intros h options data chunks continuation H. split.
  - intros items Hd.
    destruct (chunkResponse_array _ _ _ _ _ _ Hd H) as (groups & cur & Hloop & ->).
    destruct (chunk_items_within _ _ _ _ _ _ _ _ Hloop)
      as [Hgroups Hcur]; [constructor | reflexivity | now left |].
    apply Forall_map.
    assert (Hall : Forall (elements_within h options)
                     (if nonempty cur then groups ++ [cur] else groups)).
    { destruct (nonempty cur) eqn:Hne; [|exact Hgroups].
      apply Forall_app. split; [exact Hgroups|]. constructor; [|constructor].
      destruct Hcur as [->|Hcur]; [discriminate | exact Hcur]. }
    revert Hall. apply Forall_impl. intros l Hl. now exists l.
  - intros entries Hd.
    destruct (chunkResponse_object _ _ _ _ _ _ Hd H) as (groups & cur & Hloop & ->).
    destruct (chunk_entries_within _ _ _ _ _ _ _ _ Hloop)
      as [Hgroups Hcur]; [constructor | now left | reflexivity |].
    destruct (nonempty cur) eqn:Hne; [|exact Hgroups].
    apply Forall_app. split; [exact Hgroups|]. constructor; [|constructor].
    left. exists cur. split; [reflexivity|].
    destruct Hcur as [->|Hcur]; [discriminate | exact Hcur].
Qed.

Lemma chunkResponse_budget_witness :
  let options := limits None None None (Some 3) in
  let v := numbers [1; 2; 3; 4; 55555; 6] in
  exists chunks continuation,
    chunkResponse [] options v = Ok (chunks, continuation)
    /\ List.length chunks = 4%nat
    /\ (forall items,
           deref [] v = VArr items ->
           Forall (fun chunk =>
                     exists l, chunk = VArr l /\ elements_within [] options l)
                  chunks)
    /\ (forall entries,
           deref [] v = VObj entries ->
           Forall (pairs_within [] options) chunks).
Proof.
  cbv zeta.
  destruct (chunkResponse [] (limits None None None (Some 3))
              (numbers [1; 2; 3; 4; 55555; 6]))
    as [[chunks continuation]|e] eqn:E; [ | vm_compute in E; discriminate ].
  exists chunks, continuation. split; [reflexivity|]. split.
  - vm_compute in E. injection E as <- _. reflexivity.
  - apply (chunkResponse_budget [] (limits None None None (Some 3)) _ _ _ E).
Defined.

(** ** The truncator: a second pass *)

Lemma slice_prefix_length {A : Type} (l : list A) (stop : Z) :
  Z.of_nat (List.length (slice l 0 stop))
  = relative_index (Z.of_nat (List.length l)) stop.
Proof.
  unfold slice, relative_index. cbn [Z.ltb Z.compare].
  rewrite (Z.min_l 0) by lia. cbn [Z.to_nat skipn]. rewrite Z.sub_0_r.
  rewrite length_firstn. destruct (Z.ltb_spec stop 0); lia.
Qed.

Lemma deref_not_ref (h : heap) (v : value) (a : addr) : deref h v <> VRef a.
Proof.
  destruct v; cbn; try discriminate. unfold lookup.
  destruct (nth_error h a0) as [[items|props]|]; discriminate.
Qed.

Lemma deref_deref (h h' : heap) (v : value) : deref h' (deref h v) = deref h v.
Proof.
  destruct (deref h v) eqn:E; try reflexivity.
  now apply deref_not_ref in E.
Qed.



Section SecondPass.

Variables maxArrayItems maxObjectDepth : Z.

Lemma map_acc_pure {A B : Type} (f : A -> Closure.t -> B * Closure.t)
  (g : A -> B) (b : A -> bool) :
  (forall x c, exists c', f x c = (g x, c') /\ accounts c (b x) c') ->
  forall l c, exists c', map_acc f l c = (map g l, c') /\ accounts c (existsb b l) c'.
Proof.
  intros Hf. induction l as [|x l IH]; intros c; cbn [map_acc map existsb].
  - exists c. split; [reflexivity|]. split; [now rewrite orb_false_r | reflexivity].
  - destruct (Hf x c) as (c1 & -> & Hflag1 & Hsame1).
    destruct (IH c1) as (c2 & -> & Hflag2 & Hsame2).
    exists c2. split; [reflexivity|]. split.
    + rewrite Hflag2, Hflag1. now rewrite orb_assoc.
    + intros E. apply orb_false_elim in E as [E1 E2].
      rewrite (Hsame2 E2). exact (Hsame1 E1).
Qed.

Lemma accounts_cut (c c0 c' : Closure.t) (cut : bool) :
  Closure.wasTruncated c0 = true -> accounts c0 cut c' -> accounts c true c'.
Proof.
  intros H0 [Hflag _]. split; [|discriminate].
  rewrite Hflag, H0. now rewrite orb_true_r.
Qed.

Lemma formatValue_pure (h : heap) (fuel : nat) :
  forall (v : value) (depth : Z) (c : Closure.t),
  exists c',
    formatValue h maxArrayItems maxObjectDepth fuel v depth c
    = (truncated maxArrayItems maxObjectDepth fuel h v depth, c')
    /\ accounts c (cuts maxArrayItems maxObjectDepth fuel h v depth) c'.
Proof.
  assert (noted : forall c, accounts c true (note_depth c)).
  { intros c. split; [cbn; now rewrite orb_true_r | discriminate]. }
  assert (kept : forall c, accounts c false c).
  { intros c. split; [now rewrite orb_false_r | reflexivity]. }
  induction fuel as [|fuel IH]; intros v depth c;
    cbn [formatValue truncated cuts].
  - eexists. split; [reflexivity | apply noted].
  - destruct (depth >? maxObjectDepth).
    { eexists. split; [reflexivity | apply noted]. }
    destruct (deref h v) as [| |b|n|s|items|props|a];
      try (exists c; split; [reflexivity | apply kept]).
    + destruct (Z.of_nat (List.length items) >? maxArrayItems).
      * destruct (map_acc_pure
                    (fun item =>
                       formatValue h maxArrayItems maxObjectDepth fuel item (depth + 1))
                    _ _
                    (fun x c => IH x (depth + 1) c)
                    (slice items 0 maxArrayItems)
                    (note_array maxArrayItems (Z.of_nat (List.length items)) c))
          as (c' & -> & Hacc).
        exists c'. split; [reflexivity|].
        refine (accounts_cut _ _ _ _ _ Hacc). reflexivity.
      * destruct (map_acc_pure
                    (fun item =>
                       formatValue h maxArrayItems maxObjectDepth fuel item (depth + 1))
                    _ _
                    (fun x c => IH x (depth + 1) c) items c)
          as (c' & -> & Hacc).
        exists c'. split; [reflexivity | exact Hacc].
    + destruct (map_acc_pure
                  (fun (kv : string * value) (c : Closure.t) =>
                     let (val, c) :=
                       formatValue h maxArrayItems maxObjectDepth fuel (snd kv)
                         (depth + 1) c in
                     ((fst kv, val), c))
                  (fun kv =>
                     (fst kv,
                      truncated maxArrayItems maxObjectDepth fuel h (snd kv)
                        (depth + 1)))
                  (fun kv =>
                     cuts maxArrayItems maxObjectDepth fuel h (snd kv) (depth + 1)))
        with (l := props) (c := c)
        as (c' & -> & Hacc).
      * intros kv c0. destruct (IH (snd kv) (depth + 1) c0) as (c' & -> & Hacc).
        exists c'. split; [reflexivity | exact Hacc].
      * exists c'. split; [reflexivity | exact Hacc].
Qed.



Lemma map_fixed {A : Type} (f : A -> A) (l : list A) :
  (forall x, In x l -> f x = x) -> map f l = l.
Proof.
  intros H. rewrite <- (map_id l) at 2. now apply map_ext_in.
Qed.







End SecondPass.

Lemma formatTruncatedResponse_pure (h : heap) (v : value) (options : FormattingOptions) :
  let a := or_default (maxArrayItems options) DEFAULT_LIMITS.MAX_ARRAY_ITEMS in
  let d := or_default (maxObjectDepth options) DEFAULT_LIMITS.MAX_OBJECT_DEPTH in
  fst (formatTruncatedResponse h v options) = truncated a d (levels d 0) h v 0
  /\ TruncationMetadata.wasTruncated (snd (formatTruncatedResponse h v options))
     = cuts a d (levels d 0) h v 0
  /\ (cuts a d (levels d 0) h v 0 = false ->
      snd (formatTruncatedResponse h v options)
      = {| TruncationMetadata.wasTruncated := false;
           TruncationMetadata.originalSize := None;
           TruncationMetadata.itemsOmitted := None;
           TruncationMetadata.reason := None |}).
Proof.
  intros a d. unfold formatTruncatedResponse. fold a d.
  destruct (formatValue_pure a d h (levels d 0) v 0 Closure.init)
    as (c' & -> & Hflag & Hsame).
  cbn [fst snd TruncationMetadata.wasTruncated]. repeat split.
  - exact Hflag.
  - intros Hnone. now rewrite (Hsame Hnone).
Qed.




(** ** The size estimator *)

Lemma visited_In (visited : list addr) (a : addr) :
  existsb (Nat.eqb a) visited = true <-> In a visited.
Proof.
  rewrite existsb_exists. split.
  - intros (x & Hx & E). apply Nat.eqb_eq in E. now subst.
  - intros H. exists a. split; [exact H | apply Nat.eqb_refl].
Qed.

Lemma visited_not_In (visited : list addr) (a : addr) :
  existsb (Nat.eqb a) visited = false <-> ~ In a visited.
Proof.
  rewrite <- visited_In. destruct (existsb (Nat.eqb a) visited); split;
    congruence.
Qed.

Lemma weight_at_incl (h : heap) (visited visited' : list addr) (a : addr) :
  incl visited visited' ->
  (weight_at h visited' a <= weight_at h visited a)%nat.
Proof.
  intros Hincl. unfold weight_at.
  destruct (existsb (Nat.eqb a) visited) eqn:E.
  - apply visited_In in E. apply Hincl in E. apply visited_In in E.
    now rewrite E.
  - destruct (existsb (Nat.eqb a) visited'); lia.
Qed.

Lemma list_sum_le {A : Type} (f g : A -> nat) (l : list A) :
  (forall x, f x <= g x)%nat ->
  (list_sum (map f l) <= list_sum (map g l))%nat.
Proof.
  intros Hle. induction l as [|x l IH]; [apply Nat.le_refl|].
  change (f x + list_sum (map f l) <= g x + list_sum (map g l))%nat.
  specialize (Hle x). lia.
Qed.

Lemma list_sum_lt {A : Type} (f g : A -> nat) (l : list A) (a : A) (d : nat) :
  (forall x, f x <= g x)%nat ->
  In a l ->
  (f a + d <= g a)%nat ->
  (list_sum (map f l) + d <= list_sum (map g l))%nat.
Proof.
  intros Hle Hin Ha. induction l as [|x l IH]; [destruct Hin|].
  change (f x + list_sum (map f l) + d <= g x + list_sum (map g l))%nat.
  destruct Hin as [->|Hin].
  - pose proof (list_sum_le f g l Hle). lia.
  - specialize (IH Hin). specialize (Hle x). lia.
Qed.

Lemma unvisited_weight_incl (h : heap) (visited visited' : list addr) :
  incl visited visited' ->
  (unvisited_weight h visited' <= unvisited_weight h visited)%nat.
Proof.
  intros Hincl. apply list_sum_le. intros a. now apply weight_at_incl.
Qed.

Lemma unvisited_weight_visit (h : heap) (visited : list addr) (a : addr) (c : cell) :
  nth_error h a = Some c ->
  ~ In a visited ->
  (unvisited_weight h (a :: visited) + cell_weight c
   <= unvisited_weight h visited)%nat.
Proof.
  intros Hc Hfresh. apply list_sum_lt with (a := a).
  - intros x. apply weight_at_incl. apply incl_tl, incl_refl.
  - apply in_seq. split; [lia|]. cbn. apply nth_error_Some. congruence.
  - unfold weight_at. cbn [existsb]. rewrite Nat.eqb_refl. cbn [orb].
    apply visited_not_In in Hfresh. rewrite Hfresh, Hc. lia.
Qed.

Lemma list_max_In (l : list nat) (n : nat) : In n l -> (n <= list_max l)%nat.
Proof.
  intros Hin. pose proof (proj1 (list_max_le l (list_max l)) (Nat.le_refl _)) as H.
  rewrite Forall_forall in H. now apply H.
Qed.

Lemma height_item (items : list value) (x : value) :
  In x items -> (height x < height (VArr items))%nat.
Proof.
  intros Hin. cbn [height]. apply Nat.lt_succ_r, list_max_In.
  now apply in_map.
Qed.

Lemma height_prop (props : list (string * value)) (kv : string * value) :
  In kv props -> (height (snd kv) < height (VObj props))%nat.
Proof.
  intros Hin. cbn [height]. apply Nat.lt_succ_r, list_max_In.
  now apply (in_map (fun kv => height (snd kv))).
Qed.

Lemma unvisited_weight_nil (h : heap) :
  unvisited_weight h [] = list_sum (map cell_weight h).
Proof.
  unfold unvisited_weight. induction h as [|c h IH] using rev_ind; [reflexivity|].
  rewrite length_app, Nat.add_comm. cbn [List.length Nat.add].
  rewrite seq_S, !map_app, !list_sum_app. cbn [Nat.add map list_sum fold_right].
  rewrite <- IH. f_equal.
  - f_equal. apply map_ext_in. intros a Ha. apply in_seq in Ha.
    unfold weight_at. cbn [existsb]. rewrite nth_error_app1 by lia. reflexivity.
  - unfold weight_at. cbn [existsb].
    rewrite nth_error_app2, Nat.sub_diag by lia. reflexivity.
Qed.

Lemma lookup_defined (h : heap) (a : addr) :
  heap_defined h = true -> defined (lookup h a) = true.
Proof.
  intros Hh. unfold lookup. destruct (nth_error h a) as [c|] eqn:E; [|reflexivity].
  unfold heap_defined in Hh. rewrite forallb_forall in Hh.
  apply Hh. eapply nth_error_In. exact E.
Qed.

Lemma lookup_composite (h : heap) (a : addr) :
  (exists items, lookup h a = VArr items) \/ (exists props, lookup h a = VObj props).
Proof.
  unfold lookup. destruct (nth_error h a) as [[items|props]|]; cbn; eauto.
Qed.

Section EstimatorCorrect.

Variable h : heap.

Lemma sizeOf_items_sized (rec : value -> list addr -> result (Z * list addr))
  (visited0 : list addr) (items : list value) :
  (forall x visited, In x items -> incl visited0 visited ->
                     sized h (rec x visited) visited x) ->
  forall visited acc,
    incl visited0 visited ->
    exists n visited',
      sizeOf_items rec items visited acc = Ok (acc + n, visited')
      /\ incl visited visited'
      /\ (heap_defined h = true -> forallb defined items = true ->
          cost_children h visited items n visited').
Proof.
  induction items as [|item items IH]; intros Hrec visited acc Hincl;
    cbn [sizeOf_items].
  - exists 0, visited. rewrite Z.add_0_r. repeat split.
    + apply incl_refl.
    + intros _ _. constructor.
  - destruct (Hrec item visited (or_introl eq_refl) Hincl)
      as (n1 & visited1 & -> & Hincl1 & Hcost1).
    cbn [bind].
    destruct (IH (fun x v Hx => Hrec x v (or_intror Hx)) visited1 (acc + n1)
                (incl_tran Hincl Hincl1))
      as (n2 & visited2 & -> & Hincl2 & Hcost2).
    exists (n1 + n2), visited2. rewrite Z.add_assoc. repeat split.
    + exact (incl_tran Hincl1 Hincl2).
    + intros Hh Hd. cbn [forallb] in Hd. apply andb_prop in Hd as [Hd1 Hd2].
      econstructor; eauto.
Qed.

Lemma sizeOf_props_sized (rec : value -> list addr -> result (Z * list addr))
  (visited0 : list addr) (props : list (string * value)) :
  (forall kv visited, In kv props -> incl visited0 visited ->
                      sized h (rec (snd kv) visited) visited (snd kv)) ->
  forall visited acc,
    incl visited0 visited ->
    exists n visited',
      sizeOf_props rec props visited acc = Ok (acc + n, visited')
      /\ incl visited visited'
      /\ (heap_defined h = true ->
          forallb (fun kv => defined (snd kv)) props = true ->
          cost_pairs h visited props n visited').
Proof.
  induction props as [|[key val] props IH]; intros Hrec visited acc Hincl;
    cbn [sizeOf_props].
  - exists 0, visited. rewrite Z.add_0_r. repeat split.
    + apply incl_refl.
    + intros _ _. constructor.
  - destruct (Hrec (key, val) visited (or_introl eq_refl) Hincl)
      as (n1 & visited1 & E1 & Hincl1 & Hcost1).
    cbn [snd] in E1, Hcost1. rewrite E1. cbn [bind].
    destruct (IH (fun x v Hx => Hrec x v (or_intror Hx)) visited1
                (acc + str_length key * 2 + n1) (incl_tran Hincl Hincl1))
      as (n2 & visited2 & -> & Hincl2 & Hcost2).
    exists (2 * str_length key + n1 + n2), visited2. repeat split.
    + f_equal. f_equal. lia.
    + exact (incl_tran Hincl1 Hincl2).
    + intros Hh Hd. cbn [forallb snd] in Hd. apply andb_prop in Hd as [Hd1 Hd2].
      econstructor; eauto.
Qed.

Lemma sizeOf_sized (fuel : nat) :
  forall (v : value) (visited : list addr),
    (height v + unvisited_weight h visited < fuel)%nat ->
    sized h (sizeOf h fuel v visited) visited v.
Proof.
  induction fuel as [|fuel IH]; intros v visited Hfuel; [lia|].
  assert (Hitems : forall items visited0,
             (forall x visited1, In x items -> incl visited0 visited1 ->
                                 (height x + unvisited_weight h visited1 < fuel)%nat) ->
             sized h (sizeOf_items (sizeOf h fuel) items visited0 8) visited0
               (VArr items)).
  { intros items visited0 Hdeep.
    destruct (sizeOf_items_sized (sizeOf h fuel) visited0 items) with
      (visited := visited0) (acc := 8)
      as (n & visited' & E & Hincl & Hcost);
      [ intros x visited1 Hx Hv; apply IH; now apply Hdeep | apply incl_refl | ].
    exists (8 + n), visited'. repeat split; [exact E | exact Hincl |].
    intros Hh Hd. constructor. now apply Hcost. }
  assert (Hprops : forall props visited0,
             (forall kv visited1, In kv props -> incl visited0 visited1 ->
                (height (snd kv) + unvisited_weight h visited1 < fuel)%nat) ->
             sized h (sizeOf_props (sizeOf h fuel) props visited0 8) visited0
               (VObj props)).
  { intros props visited0 Hdeep.
    destruct (sizeOf_props_sized (sizeOf h fuel) visited0 props) with
      (visited := visited0) (acc := 8)
      as (n & visited' & E & Hincl & Hcost);
      [ intros x visited1 Hx Hv; apply IH; now apply Hdeep | apply incl_refl | ].
    exists (8 + n), visited'. repeat split; [exact E | exact Hincl |].
    intros Hh Hd. constructor. now apply Hcost. }
  destruct v as [| |b|n|s|items|props|a]; cbn [sizeOf sizeOf_composite].
  - exists 4, visited. repeat split; [apply incl_refl | constructor].
  - exists 0, visited. repeat split; [apply incl_refl | discriminate].
  - exists 4, visited. repeat split; [apply incl_refl | constructor].
  - exists 8, visited. repeat split; [apply incl_refl | constructor].
  - exists (str_length s * 2), visited. repeat split; [apply incl_refl |].
    intros _ _. rewrite Z.mul_comm. constructor.
  - apply Hitems. intros x visited1 Hx Hv.
    pose proof (height_item _ _ Hx). pose proof (unvisited_weight_incl h _ _ Hv).
    lia.
  - apply Hprops. intros kv visited1 Hx Hv.
    pose proof (height_prop _ _ Hx). pose proof (unvisited_weight_incl h _ _ Hv).
    lia.
  - destruct (existsb (Nat.eqb a) visited) eqn:Ea.
    + exists 0, visited. repeat split; [apply incl_refl |].
      intros _ _. constructor. now apply visited_In.
    + apply visited_not_In in Ea.
      assert (Hstored : sized h (sizeOf_composite (sizeOf h fuel) (lookup h a)
                                 (a :: visited)) (a :: visited) (lookup h a)).
      { unfold lookup. destruct (nth_error h a) as [c|] eqn:Ec.
        - pose proof (unvisited_weight_visit h visited a c Ec Ea) as Hw.
          unfold cell_weight in Hw.
          destruct c as [items|props]; cbn [cell_value sizeOf_composite] in *.
          + apply Hitems. intros x visited1 Hx Hv.
            pose proof (height_item _ _ Hx).
            pose proof (unvisited_weight_incl h _ _ Hv). cbn [height] in *. lia.
          + apply Hprops. intros kv visited1 Hx Hv.
            pose proof (height_prop _ _ Hx).
            pose proof (unvisited_weight_incl h _ _ Hv). cbn [height] in *. lia.
        - cbn [sizeOf_composite]. apply Hprops. intros kv visited1 []. }
      destruct Hstored as (n & visited' & E & Hincl & Hcost).
      exists n, visited'. repeat split; [exact E | |].
      * intros x Hx. apply Hincl. now right.
      * intros Hh _. apply cost_stored; [exact Ea|].
        apply Hcost; [exact Hh | now apply lookup_defined].
Qed.

(** The reference cost is a function of the value and the visited set. *)
Lemma cost_deterministic :
  forall visited v n visited',
    cost h visited v n visited' ->
    forall n2 visited2,
      cost h visited v n2 visited2 -> n = n2 /\ visited' = visited2.
Proof.
  apply (cost_mut h
           (fun visited v n visited' _ =>
              forall n2 visited2,
                cost h visited v n2 visited2 -> n = n2 /\ visited' = visited2)
           (fun visited l n visited' _ =>
              forall n2 visited2,
                cost_children h visited l n2 visited2 ->
                n = n2 /\ visited' = visited2)
           (fun visited l n visited' _ =>
              forall n2 visited2,
                cost_pairs h visited l n2 visited2 ->
                n = n2 /\ visited' = visited2)).
  - intros visited n2 visited2 H. inversion H; subst. now split.
  - intros visited b n2 visited2 H. inversion H; subst. now split.
  - intros visited n n2 visited2 H. inversion H; subst. now split.
  - intros visited s n2 visited2 H. inversion H; subst. now split.
  - intros visited items n visited' _ IH n2 visited2 H. inversion H; subst.
    match goal with
    | Hc : cost_children _ _ _ _ _ |- _ => destruct (IH _ _ Hc) as [-> ->]
    end. now split.
  - intros visited props n visited' _ IH n2 visited2 H. inversion H; subst.
    match goal with
    | Hc : cost_pairs _ _ _ _ _ |- _ => destruct (IH _ _ Hc) as [-> ->]
    end. now split.
  - intros visited a Hin n2 visited2 H.
    inversion H; subst; [now split | contradiction].
  - intros visited a n visited' Hfresh _ IH n2 visited2 H.
    inversion H; subst; [contradiction|]. now apply IH.
  - intros visited n2 visited2 H. inversion H; subst. now split.
  - intros visited child n visited1 rest m visited2 _ IH1 _ IH2 n2 visited3 H.
    inversion H; subst.
    match goal with
    | Hc : cost _ _ _ _ _ |- _ => destruct (IH1 _ _ Hc) as [-> ->]
    end.
    match goal with
    | Hc : cost_children _ _ _ _ _ |- _ => destruct (IH2 _ _ Hc) as [-> ->]
    end. now split.
  - intros visited n2 visited2 H. inversion H; subst. now split.
  - intros visited key child n visited1 rest m visited2 _ IH1 _ IH2 n2 visited3 H.
    inversion H; subst.
    match goal with
    | Hc : cost _ _ _ _ _ |- _ => destruct (IH1 _ _ Hc) as [-> ->]
    end.
    match goal with
    | Hc : cost_pairs _ _ _ _ _ |- _ => destruct (IH2 _ _ Hc) as [-> ->]
    end. now split.
Qed.

End EstimatorCorrect.

(** C7.  The size estimate is defined on every value, cyclic ones
    included, and on the values of the specification it is the reference
    cost: null and booleans 4, numbers 8, strings twice their length,
    composites 8 plus their children and, for a mapping, twice the length
    of every key, and 0 for a composite met again in the same call. *)
Theorem approximateObjectSize_cost :
  forall (h : heap) (v : value),
  exists (n : Z) (visited' : list addr),
    approximateObjectSize h v = Ok n
    /\ (graph_defined h v = true ->
        cost h [] v n visited'
        /\ forall m w, cost h [] v m w -> m = n).
Proof.
  intros h v.
  assert (Hsized : sized h (sizeOf h (depth_bound h v) v []) [] v).
  { apply sizeOf_sized. unfold depth_bound. rewrite unvisited_weight_nil. lia. }
  destruct Hsized as (n & visited' & E & _ & Hcost).
  assert (Hspec : graph_defined h v = true ->
                  cost h [] v n visited'
                  /\ forall m w, cost h [] v m w -> m = n).
  { intros Hg. unfold graph_defined in Hg. apply andb_prop in Hg as [Hv Hh].
    specialize (Hcost Hh Hv). split; [exact Hcost|].
    intros m w Hm. now destruct (cost_deterministic h _ _ _ _ Hcost _ _ Hm). }
  exists n, visited'. split; [|exact Hspec].
  unfold approximateObjectSize.
  destruct v; try (rewrite E; reflexivity);
    destruct (depth_bound h _) in E; cbn in E; try discriminate;
    injection E as <- _; reflexivity.
Qed.

Lemma approximateObjectSize_cost_witness :
  exists (n : Z) (visited' : list addr),
    approximateObjectSize circularObj (VRef 0%nat) = Ok n
    /\ n = 40
    /\ cost circularObj [] (VRef 0%nat) n visited'
    /\ forall m w, cost circularObj [] (VRef 0%nat) m w -> m = n.
Proof.
  destruct (approximateObjectSize_cost circularObj (VRef 0%nat))
    as (n & visited' & E & Hspec).
  exists n, visited'. split; [exact E|]. split.
  - vm_compute in E. now injection E as <-.
  - apply Hspec. reflexivity.
Defined.

(** ** The recursion budgets of the embedding *)

Lemma map_acc_ext {A B S : Type} (f g : A -> S -> B * S) (l : list A) :
  (forall x s, f x s = g x s) -> forall s, map_acc f l s = map_acc g l s.
Proof.
  intros E. induction l as [|x l IH]; intros s; cbn [map_acc]; [reflexivity|].
  rewrite E. destruct (g x s) as [y s1]. now rewrite IH.
Qed.

(** [formatValue] does not depend on its budget once the budget covers
    the levels down to [maxObjectDepth], as the one that
    [formatTruncatedResponse] passes does. *)
Lemma formatValue_fuel (h : heap) (maxArrayItems maxObjectDepth : Z) :
  forall (fuel1 fuel2 : nat) (v : value) (depth : Z) (c : Closure.t),
    (levels maxObjectDepth depth <= fuel1)%nat ->
    (levels maxObjectDepth depth <= fuel2)%nat ->
    formatValue h maxArrayItems maxObjectDepth fuel1 v depth c
    = formatValue h maxArrayItems maxObjectDepth fuel2 v depth c.
Proof.
  induction fuel1 as [|fuel1 IH]; intros fuel2 v depth c H1 H2;
    [unfold levels in H1; lia|].
  destruct fuel2 as [|fuel2]; [unfold levels in H2; lia|].
  cbn [formatValue].
  destruct (Z.gtb_spec depth maxObjectDepth) as [Hdeep|Hshallow]; [reflexivity|].
  assert (Hrec : forall x c0,
             formatValue h maxArrayItems maxObjectDepth fuel1 x (depth + 1) c0
             = formatValue h maxArrayItems maxObjectDepth fuel2 x (depth + 1) c0).
  { intros x c0. apply IH; unfold levels in *; lia. }
  destruct (deref h v) as [| |b|n|s|items|props|a]; try reflexivity.
  - destruct (Z.of_nat (List.length items) >? maxArrayItems);
      now rewrite (map_acc_ext _ _ _ Hrec).
  - rewrite (map_acc_ext _
               (fun kv c0 =>
                  let (val, c1) :=
                    formatValue h maxArrayItems maxObjectDepth fuel2 (snd kv)
                      (depth + 1) c0 in
                  ((fst kv, val), c1))); [reflexivity|].
    intros kv c0. now rewrite Hrec.
Qed.

Lemma mapR_Throw {A B : Type} (f : A -> result B) (l : list A) (e : exn) :
  mapR f l = Throw e -> exists x, In x l /\ f x = Throw e.
Proof.
  induction l as [|x l IH]; cbn [mapR]; [discriminate|].
  destruct (f x) as [y|e'] eqn:E; cbn [bind].
  - destruct (mapR f l) as [ys|e'']; cbn [bind]; [discriminate|].
    intros H. injection H as ->. destruct (IH eq_refl) as (x' & Hin & Hx').
    exists x'. split; [now right | exact Hx'].
  - intros H. injection H as ->. exists x. split; [now left | exact E].
Qed.

(** [JSON.stringify] never runs out of the stack it is given: it fails
    only with the [TypeError] of a cyclic structure. *)
Lemma SerializeJSONProperty_stack (h : heap) (gap : string) (fuel : nat) :
  forall (stack : list addr) (indent : string) (v : value),
    (height v + unvisited_weight h stack < fuel)%nat ->
    SerializeJSONProperty h gap fuel stack indent v <> Throw RangeError.
Proof.
  induction fuel as [|fuel IH]; intros stack indent v Hfuel; [lia|].
  assert (Hitems : forall items stack0 indent0,
             (forall x, In x items ->
                        (height x + unvisited_weight h stack0 < fuel)%nat) ->
             SerializeJSONArray gap (SerializeJSONProperty h gap fuel stack0)
               indent0 items <> Throw RangeError).
  { intros items stack0 indent0 Hdeep H. unfold SerializeJSONArray in H.
    destruct (mapR _ items) as [partial|e] eqn:E; cbn [bind] in H; [discriminate|].
    injection H as ->. apply mapR_Throw in E as (x & Hx & E).
    destruct (SerializeJSONProperty h gap fuel stack0 (indent0 +++ gap) x)
      as [s|e] eqn:Ex; cbn [bind] in E; [discriminate|].
    injection E as ->. now apply (IH stack0 (indent0 +++ gap) x (Hdeep x Hx)). }
  assert (Hprops : forall props stack0 indent0,
             (forall kv, In kv props ->
                (height (snd kv) + unvisited_weight h stack0 < fuel)%nat) ->
             SerializeJSONObject gap (SerializeJSONProperty h gap fuel stack0)
               indent0 props <> Throw RangeError).
  { intros props stack0 indent0 Hdeep H. unfold SerializeJSONObject in H.
    destruct (mapR _ props) as [partial|e] eqn:E; cbn [bind] in H; [discriminate|].
    injection H as ->. apply mapR_Throw in E as (kv & Hx & E).
    destruct (SerializeJSONProperty h gap fuel stack0 (indent0 +++ gap) (snd kv))
      as [s|e] eqn:Ex; cbn [bind] in E; [discriminate|].
    injection E as ->.
    now apply (IH stack0 (indent0 +++ gap) (snd kv) (Hdeep kv Hx)). }
  destruct v as [| |b|n|s|items|props|a];
    cbn [SerializeJSONProperty SerializeJSONComposite]; try discriminate.
  - destruct b; discriminate.
  - apply Hitems. intros x Hx. pose proof (height_item _ _ Hx). lia.
  - apply Hprops. intros kv Hx. pose proof (height_prop _ _ Hx). lia.
  - destruct (existsb (Nat.eqb a) stack) eqn:Ea; [discriminate|].
    apply visited_not_In in Ea. unfold lookup.
    destruct (nth_error h a) as [c|] eqn:Ec.
    + pose proof (unvisited_weight_visit h stack a c Ec Ea) as Hw.
      unfold cell_weight in Hw.
      destruct c as [items|props]; cbn [cell_value SerializeJSONComposite] in *.
      * apply Hitems. intros x Hx. pose proof (height_item _ _ Hx).
        cbn [height] in *. lia.
      * apply Hprops. intros kv Hx. pose proof (height_prop _ _ Hx).
        cbn [height] in *. lia.
    + cbn [SerializeJSONComposite]. apply Hprops. intros kv [].
Qed.

Lemma JSON_stringify_stack (h : heap) (v : value) (gap : string) :
  JSON_stringify h v gap <> Throw RangeError.
Proof.
  apply SerializeJSONProperty_stack. unfold depth_bound.
  rewrite unvisited_weight_nil. lia.
Qed.

(** On the circular object of the repository's test no stack is deep
    enough for [filterObjectFields]: the [RangeError] of [serializeToJson]
    is not a matter of the budget. *)
Lemma filterObjectFields_circular (fuel : nat) :
  forall options : SerializationOptions,
    maxDepth options = None ->
    includeFields options = None ->
    excludeFields options = None ->
    filterObjectFields fuel circularObj (VRef 0%nat) options = Throw RangeError.
Proof.
  induction fuel as [|fuel IH]; intros options Hm Hi He; [reflexivity|].
  cbn [filterObjectFields]. rewrite Hm.
  cbn [beyond is_null typeof_object negb orb deref].
  unfold selected_keys. rewrite Hi, He.
  change (lookup circularObj 0%nat)
    with (VObj [("name"%string, VStr "circular"); ("self"%string, VRef 0%nat)]).
  cbn [map fst mapR].
  change (get [("name"%string, VStr "circular"); ("self"%string, VRef 0%nat)] "name")
    with (VStr "circular").
  change (get [("name"%string, VStr "circular"); ("self"%string, VRef 0%nat)] "self")
    with (VRef 0%nat).
  rewrite (IH (with_currentDepth options _)) by assumption.
  destruct fuel as [|fuel']; [reflexivity|].
  cbn [filterObjectFields with_currentDepth maxDepth _currentDepth or_default].
  rewrite Hm. reflexivity.
Qed.

(** ** Where the exceptions of the formatter come from *)

Lemma mapR_Ok {A B : Type} (f : A -> result B) (l : list A) :
  (forall x, In x l -> exists y, f x = Ok y) -> exists ys, mapR f l = Ok ys.
Proof.
  induction l as [|x l IH]; intros Hf; cbn [mapR]; [now exists []|].
  destruct (Hf x (or_introl eq_refl)) as [y ->].
  destruct (IH (fun x' Hx' => Hf x' (or_intror Hx'))) as [ys ->].
  cbn [bind]. now exists (y :: ys).
Qed.

Lemma mapiR_Throw {A B : Type} (f : A -> Z -> result B) (l : list A) (e : exn) :
  forall i, mapiR f l i = Throw e -> exists x j, In x l /\ f x j = Throw e.
Proof.
  induction l as [|x l IH]; intros i; cbn [mapiR]; [discriminate|].
  destruct (f x i) as [y|e'] eqn:E; cbn [bind].
  - destruct (mapiR f l (i + 1)) as [ys|e''] eqn:El; cbn [bind]; [discriminate|].
    intros H. injection H as ->. destruct (IH _ El) as (x' & j & Hin & Hx').
    exists x', j. split; [now right | exact Hx'].
  - intros H. injection H as ->. exists x, i. split; [now left | exact E].
Qed.

(** On a tree [JSON.stringify] returns: a string, or [undefined] for the
    value [undefined] alone. *)
Lemma SerializeJSONProperty_tree (h : heap) (gap : string) (fuel : nat) :
  forall (stack : list addr) (indent : string) (v : value),
    ref_free v = true ->
    (height v < fuel)%nat ->
    exists o, SerializeJSONProperty h gap fuel stack indent v = Ok o
              /\ (o = None <-> v = VUndef).
Proof.
  induction fuel as [|fuel IH]; intros stack indent v Hv Hfuel; [lia|].
  destruct v as [| |b|n|s|items|props|a];
    cbn [SerializeJSONProperty SerializeJSONComposite];
    try (eexists; split; [reflexivity | split; discriminate]).
  - exists None. now split.
  - destruct b; eexists; (split; [reflexivity | split; discriminate]).
  - unfold SerializeJSONArray.
    destruct (mapR_Ok
                (fun v => s <- SerializeJSONProperty h gap fuel stack
                                 (indent +++ gap) v ;; Ok (element s)) items)
      as [partial ->].
    + intros x Hx. cbn [ref_free] in Hv. rewrite forallb_forall in Hv.
      pose proof (height_item _ _ Hx).
      destruct (IH stack (indent +++ gap) x (Hv x Hx)) as (o & -> & _); [lia|].
      cbn [bind]. eauto.
    + cbn [bind]. eexists. split; [reflexivity | split; discriminate].
  - unfold SerializeJSONObject.
    destruct (mapR_Ok
                (fun kv => s <- SerializeJSONProperty h gap fuel stack
                                  (indent +++ gap) (snd kv) ;;
                           Ok (member gap (fst kv) s)) props)
      as [partial ->].
    + intros kv Hx. cbn [ref_free] in Hv. rewrite forallb_forall in Hv.
      pose proof (height_prop _ _ Hx).
      destruct (IH stack (indent +++ gap) (snd kv) (Hv kv Hx)) as (o & -> & _);
        [lia|].
      cbn [bind]. eauto.
    + cbn [bind]. eexists. split; [reflexivity | split; discriminate].
  - discriminate.
Qed.

Lemma JSON_stringify_tree (h : heap) (v : value) (gap : string) :
  ref_free v = true ->
  exists o, JSON_stringify h v gap = Ok o /\ (o = None <-> v = VUndef).
Proof.
  intros Hv. apply SerializeJSONProperty_tree; [exact Hv|].
  unfold depth_bound. lia.
Qed.

Lemma itemSize_tree (h : heap) (item : value) :
  ref_free item = true -> item <> VUndef -> exists n, itemSize h item = Ok n.
Proof.
  intros Hv Hd. unfold itemSize.
  destruct (JSON_stringify_tree h item EmptyString Hv) as (o & -> & Ho).
  cbn [bind]. destruct o as [s|]; [cbn; eauto|]. now destruct Hd; apply Ho.
Qed.

Lemma entrySize_tree (h : heap) (entry : string * value) :
  ref_free (snd entry) = true -> exists n, entrySize h entry = Ok n.
Proof.
  intros Hv. unfold entrySize.
  destruct (JSON_stringify_tree h (VObj [entry]) EmptyString) as (o & -> & Ho).
  - cbn [ref_free forallb]. now rewrite Hv.
  - cbn [bind]. destruct o as [s|]; [cbn; eauto|].
    now assert (VObj [entry] = VUndef) by now apply Ho.
Qed.

Lemma chunk_items_returns (h : heap) (options : FormattingOptions)
  (items : list value) :
  (forall x, In x items -> exists n, itemSize h x = Ok n) ->
  forall chunks cur size,
  exists r, chunk_items h options items chunks cur size = Ok r.
Proof.
  induction items as [|item items IH]; intros Hs chunks cur size;
    cbn [chunk_items]; [eauto|].
  destruct (Hs item (or_introl eq_refl)) as [n ->]. cbn [bind].
  destruct ((size + n >? max_chunk options) && nonempty cur);
    apply IH; intros x Hx; apply Hs; now right.
Qed.

Lemma chunk_entries_returns (h : heap) (options : FormattingOptions)
  (entries : list (string * value)) :
  (forall x, In x entries -> exists n, entrySize h x = Ok n) ->
  forall chunks cur size,
  exists r, chunk_entries h options entries chunks cur size = Ok r.
Proof.
  induction entries as [|entry entries IH]; intros Hs chunks cur size;
    cbn [chunk_entries]; [eauto|].
  destruct (Hs entry (or_introl eq_refl)) as [n ->]. cbn [bind].
  destruct (n >? max_chunk options).
  - apply IH. intros x Hx. apply Hs. now right.
  - destruct ((size + n >? max_chunk options) && nonempty cur);
      apply IH; intros x Hx; apply Hs; now right.
Qed.

(** On a tree whose elements, if it is a sequence, are not [undefined],
    the chunker returns. *)
Lemma chunkResponse_returns (h : heap) (options : FormattingOptions) (data : value) :
  ref_free data = true ->
  ~ In VUndef (elements_of data) ->
  exists chunks continuation,
    chunkResponse h options data = Ok (chunks, continuation).
Proof.
  intros Hv Hd. unfold chunkResponse.
  destruct data as [| |b|n|s|items|entries|a]; cbn [typeof_object is_null negb orb deref];
    eauto; [ | | discriminate ].
  - destruct (chunk_items_returns h options items) with
      (chunks := @nil (list value)) (cur := @nil value) (size := 0)
      as [[groups cur] ->]; [|cbn [bind]; eauto].
    intros x Hx. cbn [ref_free] in Hv. rewrite forallb_forall in Hv.
    apply itemSize_tree; [now apply Hv|]. intros ->. now apply Hd.
  - destruct (chunk_entries_returns h options entries) with
      (chunks := @nil value) (cur := @nil (string * value)) (size := 0)
      as [[groups cur] ->]; [|cbn [bind]; eauto].
    intros x Hx. cbn [ref_free] in Hv. rewrite forallb_forall in Hv.
    apply entrySize_tree. now apply Hv.
Qed.

(** What a truncation pass returns is a tree, whatever the graph. *)
Lemma truncated_ref_free (maxArrayItems maxObjectDepth : Z) (h : heap) (fuel : nat) :
  forall (v : value) (depth : Z),
    ref_free (truncated maxArrayItems maxObjectDepth fuel h v depth) = true.
Proof.
  induction fuel as [|fuel IH]; intros v depth; cbn [truncated]; [reflexivity|].
  destruct (depth >? maxObjectDepth); [reflexivity|].
  destruct (deref h v) as [| |b|n|s|items|props|a] eqn:Ev; try reflexivity.
  - destruct (Z.of_nat (List.length items) >? maxArrayItems); cbn [ref_free].
    + rewrite forallb_app. cbn [forallb more_items ref_free].
      rewrite andb_true_r. apply forallb_forall. intros x Hx.
      apply in_map_iff in Hx as (y & <- & _). apply IH.
    + apply forallb_forall. intros x Hx.
      apply in_map_iff in Hx as (y & <- & _). apply IH.
  - cbn [ref_free]. apply forallb_forall. intros x Hx.
    apply assigned_In in Hx as [Hx _].
    apply in_map_iff in Hx as (y & <- & _). cbn [snd]. apply IH.
  - now apply deref_not_ref in Ev.
Qed.

Lemma formattedString_returns (h : heap) (data : value) (options : FormattingOptions) :
  exists s, formattedString h (fst (formatTruncatedResponse h data options)) = Ok s.
Proof.
  destruct (formatTruncatedResponse_pure h data options) as (-> & _).
  unfold formattedString. destruct (typeof_object _); [|eauto].
  destruct (JSON_stringify_tree h
              (truncated
                 (or_default (maxArrayItems options) DEFAULT_LIMITS.MAX_ARRAY_ITEMS)
                 (or_default (maxObjectDepth options) DEFAULT_LIMITS.MAX_OBJECT_DEPTH)
                 (levels (or_default (maxObjectDepth options)
                            DEFAULT_LIMITS.MAX_OBJECT_DEPTH) 0) h data 0)
              "  ") as (o & -> & _); [apply truncated_ref_free|].
  cbn [bind]. eauto.
Qed.

(** The formatter throws only what the chunker throws. *)
Lemma formatChunkedResponse_Throw (h : heap) (options : FormattingOptions)
  (data : value) (e : exn) :
  formatChunkedResponse h options data = Throw e ->
  needsChunking h data options = true /\ chunkResponse h options data = Throw e.
Proof.
  unfold formatChunkedResponse. destruct (needsChunking h data options); cbn [negb].
  - destruct (chunkResponse h options data) as [[chunks continuation]|e'];
      cbn [bind]; [|intros H; injection H as ->; now split].
    intros H. apply mapiR_Throw in H as (chunk & index & _ & H).
    unfold format_chunk in H.
    destruct (formattedString_returns h chunk options) as [s Hs].
    destruct (formatTruncatedResponse h chunk options) as [formattedData record].
    cbn [fst] in Hs. rewrite Hs in H. discriminate.
  - destruct (formattedString_returns h data options) as [s Hs].
    destruct (formatTruncatedResponse h data options) as [formattedData record].
    cbn [fst] in Hs. rewrite Hs. discriminate.
Qed.

(** On a tree whose elements, if it is a sequence, are not [undefined],
    the formatter returns its fragments. *)
Lemma formatChunkedResponse_returns (h : heap) (options : FormattingOptions)
  (data : value) :
  ref_free data = true ->
  ~ In VUndef (elements_of data) ->
  exists results, formatChunkedResponse h options data = Ok results.
Proof.
  intros Hv Hd.
  destruct (formatChunkedResponse h options data) as [results|e] eqn:E; [eauto|].
  apply formatChunkedResponse_Throw in E as [_ E].
  destruct (chunkResponse_returns h options data Hv Hd) as (chunks & c & Hc).
  congruence.
Qed.

Lemma get_In (props : list (string * value)) (key : string) :
  In key (map fst props) -> In (key, get props key) props.
Proof.
  induction props as [|[k v] props IH]; cbn [map fst get In]; [tauto|].
  intros Hin. destruct (String.eqb_spec k key) as [->|Hne]; [now left|].
  right. apply IH. destruct Hin as [E|Hin]; [contradiction | exact Hin].
Qed.

Lemma selected_keys_In (options : SerializationOptions) (keys : list string)
  (key : string) :
  In key (selected_keys options keys) -> In key keys.
Proof.
  unfold selected_keys.
  destruct (excludeFields options) as [[|f fs]|];
    destruct (includeFields options) as [[|g gs]|]; intros Hin;
    repeat (apply filter_In in Hin as [Hin _]); exact Hin.
Qed.

Lemma mapR_Forall {A B : Type} (f : A -> result B) (P : B -> Prop) (l : list A) :
  (forall x, In x l -> exists y, f x = Ok y /\ P y) ->
  exists ys, mapR f l = Ok ys /\ Forall P ys.
Proof.
  induction l as [|x l IH]; intros Hf; cbn [mapR]; [now exists []|].
  destruct (Hf x (or_introl eq_refl)) as (y & -> & Hy).
  destruct (IH (fun x' Hx' => Hf x' (or_intror Hx'))) as (ys & -> & Hys).
  cbn [bind]. exists (y :: ys). split; [reflexivity | now constructor].
Qed.

(** On a tree [filterObjectFields] returns, and returns a tree: within the
    budget that [serializeToJson] passes, it has stack enough. *)
Lemma filterObjectFields_tree (h : heap) (fuel : nat) :
  forall (data : value) (options : SerializationOptions),
    ref_free data = true ->
    (height data < fuel)%nat ->
    exists t, filterObjectFields fuel h data options = Ok t
              /\ ref_free t = true.
Proof.
  induction fuel as [|fuel IH]; intros data options Hv Hfuel; [lia|].
  cbn [filterObjectFields].
  destruct (beyond _ _); [eexists; split; reflexivity|].
  destruct (is_null data || negb (typeof_object data)); [eauto|].
  destruct data as [| |b|n|s|items|props|a]; cbn [deref]; eauto;
    [ | | discriminate ].
  - destruct (mapR_Forall
                (fun item => filterObjectFields fuel h item
                               (with_currentDepth options
                                  (or_default (_currentDepth options) 0 + 1)))
                (fun t => ref_free t = true) items) as (items' & -> & Hall).
    + intros x Hx. cbn [ref_free] in Hv. rewrite forallb_forall in Hv.
      pose proof (height_item _ _ Hx). apply IH; [now apply Hv | lia].
    + cbn [bind]. eexists. split; [reflexivity|]. cbn [ref_free].
      apply forallb_forall. now apply Forall_forall.
  - destruct (mapR_Forall
                (fun key =>
                   v <- filterObjectFields fuel h (get props key)
                          (with_currentDepth options
                             (or_default (_currentDepth options) 0 + 1)) ;;
                   Ok (key, v))
                (fun kv => ref_free (snd kv) = true)
                (selected_keys options (map fst props))) as (props' & -> & Hall).
    + intros key Hkey. apply selected_keys_In, get_In in Hkey.
      cbn [ref_free] in Hv. rewrite forallb_forall in Hv.
      pose proof (height_prop _ _ Hkey) as Hh. cbn [snd] in Hh.
      destruct (IH (get props key)
                  (with_currentDepth options
                     (or_default (_currentDepth options) 0 + 1)))
        as (t & -> & Ht); [exact (Hv _ Hkey) | lia |].
      cbn [bind]. eexists. split; [reflexivity | exact Ht].
    + cbn [bind]. eexists. split; [reflexivity|]. cbn [ref_free].
      apply forallb_forall. now apply Forall_forall, Forall_assigned.
Qed.

Lemma serializeToJson_tree (h : heap) (data : value) (options : SerializationOptions) :
  ref_free data = true ->
  exists o, serializeToJson h data options = Ok o.
Proof.
  intros Hv. unfold serializeToJson.
  destruct (filterObjectFields_tree h (filter_stack h data options) data
              (with_currentDepth options 0) Hv) as (t & -> & Ht).
  - unfold filter_stack, depth_bound. destruct (maxDepth options); lia.
  - cbn [bind]. destruct (JSON_stringify_tree h t "  " Ht) as (o & -> & _). eauto.
Qed.

(** ** Exceptions in the formatter *)




(** ** The truncator: what it returns *)

Lemma list_max_bound {A : Type} (f : A -> nat) (l : list A) (n : nat) :
  (forall x, In x l -> (f x <= n)%nat) -> (list_max (map f l) <= n)%nat.
Proof.
  intros H. apply list_max_le, Forall_forall. intros k Hk.
  apply in_map_iff in Hk as (x & <- & Hx). now apply H.
Qed.

Lemma forallb_map_true {A B : Type} (p : B -> bool) (g : A -> B) (l : list A) :
  (forall x, In x l -> p (g x) = true) -> forallb p (map g l) = true.
Proof.
  intros H. apply forallb_forall. intros y Hy.
  apply in_map_iff in Hy as (x & <- & Hx). now apply H.
Qed.

Lemma truncated_arrays_within (a d : Z) (h : heap) (fuel : nat) :
  0 <= a ->
  forall (v : value) (depth : Z),
    arrays_within (a + 1) (truncated a d fuel h v depth) = true.
Proof.
  intros Ha. induction fuel as [|fuel IH]; intros v depth; cbn [truncated];
    [reflexivity|].
  destruct (depth >? d); [reflexivity|].
  destruct (deref h v) as [| |b|n|s|items|props|r] eqn:Ev; try reflexivity.
  - destruct (Z.gtb_spec (Z.of_nat (List.length items)) a) as [Hgt|Hle];
      cbn [arrays_within]; apply andb_true_intro; split.
    + rewrite length_app, length_map. cbn [List.length].
      rewrite Nat2Z.inj_add, slice_prefix_length. unfold relative_index.
      destruct (Z.ltb_spec a 0); [lia|]. apply Z.leb_le. lia.
    + rewrite forallb_app. cbn [forallb more_items arrays_within].
      rewrite andb_true_r. apply forallb_map_true. intros x _. apply IH.
    + rewrite length_map. apply Z.leb_le. lia.
    + apply forallb_map_true. intros x _. apply IH.
  - cbn [arrays_within]. apply forallb_forall. intros x Hx.
    apply assigned_In in Hx as [Hx _].
    apply in_map_iff in Hx as (kv & <- & _). cbn [snd]. apply IH.
Qed.

Lemma truncated_height (a d : Z) (h : heap) (fuel : nat) :
  forall (v : value) (depth : Z),
    (height (truncated a d fuel h v depth) <= Z.to_nat (d + 1 - depth))%nat.
Proof.
  induction fuel as [|fuel IH]; intros v depth; cbn [truncated];
    [cbn; lia|].
  destruct (Z.gtb_spec depth d) as [Hdeep|Hshallow]; [cbn; lia|].
  assert (Hstep : Z.to_nat (d + 1 - depth) = S (Z.to_nat (d + 1 - (depth + 1))))
    by lia.
  destruct (deref h v) as [| |b|n|s|items|props|r] eqn:Ev; try (cbn; lia).
  - destruct (Z.of_nat (List.length items) >? a); cbn [height]; rewrite Hstep;
      apply le_n_S.
    + rewrite map_app. cbn [map more_items height].
      rewrite list_max_app. cbn [list_max]. rewrite Nat.max_0_r.
      rewrite map_map. apply list_max_bound. intros x _. apply IH.
    + rewrite map_map. apply list_max_bound. intros x _. apply IH.
  - cbn [height]. rewrite Hstep. apply le_n_S.
    apply (list_max_bound (fun kv : string * value => height (snd kv))).
    intros x Hx. apply assigned_In in Hx as [Hx _].
    apply in_map_iff in Hx as (kv & <- & _). cbn [snd]. apply IH.
Qed.

(** X1.  When [maxArrayItems] is not negative, no sequence of the
    formatted data, at any depth, has more than [maxArrayItems + 1]
    elements: the items kept and the marker. *)
Theorem formatTruncatedResponse_arrays_bounded :
  forall (h : heap) (data : value) (options : FormattingOptions),
    0 <= or_default (maxArrayItems options) DEFAULT_LIMITS.MAX_ARRAY_ITEMS ->
    arrays_within
      (or_default (maxArrayItems options) DEFAULT_LIMITS.MAX_ARRAY_ITEMS + 1)
      (fst (formatTruncatedResponse h data options)) = true.
Proof.
  intros h data options Ha.
  destruct (formatTruncatedResponse_pure h data options) as (-> & _).
  now apply truncated_arrays_within.
Qed.

Lemma formatTruncatedResponse_arrays_bounded_witness :
  arrays_within 3
    (fst (formatTruncatedResponse []
            (VArr [numbers [1; 2; 3; 4; 5]; numbers [6; 7; 8]])
            (limits None (Some 2) None None))) = true.
Proof.
  apply (formatTruncatedResponse_arrays_bounded []
           (VArr [numbers [1; 2; 3; 4; 5]; numbers [6; 7; 8]])
           (limits None (Some 2) None None)).
  vm_compute. discriminate.
Defined.

(** X2.  On every object graph, cyclic ones included, the formatted data
    is a tree, and its composites are nested at most [maxObjectDepth + 1]
    deep. *)
Theorem formatTruncatedResponse_depth_bounded :
  forall (h : heap) (data : value) (options : FormattingOptions),
    ref_free (fst (formatTruncatedResponse h data options)) = true
    /\ (height (fst (formatTruncatedResponse h data options))
        <= Z.to_nat (or_default (maxObjectDepth options)
                       DEFAULT_LIMITS.MAX_OBJECT_DEPTH + 1))%nat.
Proof.
  intros h data options.
  destruct (formatTruncatedResponse_pure h data options) as (-> & _). split.
  - apply truncated_ref_free.
  - pose proof (truncated_height
                  (or_default (maxArrayItems options) DEFAULT_LIMITS.MAX_ARRAY_ITEMS)
                  (or_default (maxObjectDepth options) DEFAULT_LIMITS.MAX_OBJECT_DEPTH)
                  h
                  (levels (or_default (maxObjectDepth options)
                             DEFAULT_LIMITS.MAX_OBJECT_DEPTH) 0)
                  data 0) as H.
    now rewrite Z.sub_0_r in H.
Qed.

Lemma truncated_unchanged (a d : Z) (h : heap) (fuel : nat) :
  forall (v : value) (depth : Z),
    ref_free v = true ->
    cuts a d fuel h v depth = false ->
    truncated a d fuel h v depth = without_proto v.
Proof.
  induction fuel as [|fuel IH]; intros v depth Hv; cbn [truncated cuts];
    [discriminate|].
  destruct (depth >? d); [discriminate|].
  destruct v as [| |b|n|s|items|props|r]; cbn [deref without_proto]; try reflexivity;
    [ | | discriminate ].
  - destruct (Z.of_nat (List.length items) >? a); [discriminate|].
    intros Hnone. f_equal.
    apply map_ext_in. intros x Hx. cbn [ref_free] in Hv.
    rewrite forallb_forall in Hv. apply IH; [now apply Hv|].
    destruct (cuts a d fuel h x (depth + 1)) eqn:Ec; [|reflexivity].
    rewrite <- Hnone. symmetry. apply existsb_exists. now exists x.
  - intros Hnone. do 2 f_equal.
    apply map_ext_in. intros [k x] Hx. cbn [fst snd]. f_equal.
    cbn [ref_free] in Hv. rewrite forallb_forall in Hv.
    apply IH; [exact (Hv _ Hx)|].
    destruct (cuts a d fuel h x (depth + 1)) eqn:Ec; [|reflexivity].
    rewrite <- Hnone. symmetry. apply existsb_exists. now exists (k, x).
Qed.

(** A value without the key is rebuilt as it is. *)
Lemma without_proto_free (n : nat) :
  forall v : value,
    (height v < n)%nat -> proto_free v = true -> without_proto v = v.
Proof.
  induction n as [|n IH]; intros v Hn Hfree; [lia|].
  destruct v as [| |b|m|s|items|props|r]; cbn [without_proto]; try reflexivity.
  - f_equal. cbn [proto_free] in Hfree. rewrite forallb_forall in Hfree.
    apply map_fixed. intros x Hx. pose proof (height_item _ _ Hx).
    apply IH; [lia | now apply Hfree].
  - f_equal. cbn [proto_free] in Hfree. rewrite forallb_forall in Hfree.
    rewrite map_fixed.
    + apply assigned_all. apply forallb_forall. intros kv Hkv.
      now apply Hfree, andb_prop in Hkv as [Hk _].
    + intros [k x] Hx. cbn [fst snd]. f_equal.
      pose proof (height_prop _ _ Hx) as Hh. cbn [snd] in Hh.
      apply IH; [lia|]. now apply Hfree, andb_prop in Hx as [_ Hx].
Qed.

(** X3.  Where the truncator does not flag a tree, what it returns is the
    tree rebuilt by assignment: the input without the pairs under the key
    ["__proto__"], hence the input itself when it has no such key; the
    record is [{ wasTruncated: false }]. *)
Theorem formatTruncatedResponse_unchanged :
  forall (h : heap) (data : value) (options : FormattingOptions),
    ref_free data = true ->
    TruncationMetadata.wasTruncated (snd (formatTruncatedResponse h data options))
    = false ->
    formatTruncatedResponse h data options
    = (without_proto data,
       {| TruncationMetadata.wasTruncated := false;
          TruncationMetadata.originalSize := None;
          TruncationMetadata.itemsOmitted := None;
          TruncationMetadata.reason := None |})
    /\ (proto_free data = true -> without_proto data = data).
Proof.
  intros h data options Hv Hflag.
  destruct (formatTruncatedResponse_pure h data options) as (Hfst & Hcut & Hmeta).
  rewrite Hcut in Hflag. split.
  - rewrite (surjective_pairing (formatTruncatedResponse h data options)).
    rewrite Hfst, (Hmeta Hflag). f_equal. now apply truncated_unchanged.
  - apply (without_proto_free (S (height data))). lia.
Qed.

Lemma formatTruncatedResponse_unchanged_witness :
  formatTruncatedResponse []
    (VObj [("id"%string, VNum 1); ("__proto__"%string, VObj [("a"%string, VNum 1)]);
           ("tags"%string, numbers [1; 2; 3])])
    default_options
  = (VObj [("id"%string, VNum 1); ("tags"%string, numbers [1; 2; 3])],
     {| TruncationMetadata.wasTruncated := false;
        TruncationMetadata.originalSize := None;
        TruncationMetadata.itemsOmitted := None;
        TruncationMetadata.reason := None |}).
Proof.
  apply (formatTruncatedResponse_unchanged []
           (VObj [("id"%string, VNum 1);
                  ("__proto__"%string, VObj [("a"%string, VNum 1)]);
                  ("tags"%string, numbers [1; 2; 3])])
           default_options); vm_compute; reflexivity.
Defined.

Lemma map_acc_invariant {A B S : Type} (P : S -> Prop) (f : A -> S -> B * S)
  (l : list A) :
  (forall x s, P s -> P (snd (f x s))) ->
  forall s, P s -> P (snd (map_acc f l s)).
Proof.
  intros Hf. induction l as [|x l IH]; intros s Hs; cbn [map_acc]; [exact Hs|].
  specialize (Hf x s Hs). destruct (f x s) as [y s1]. cbn [snd] in Hf.
  specialize (IH s1 Hf). destruct (map_acc f l s1) as [ys s2]. exact IH.
Qed.

Lemma note_depth_consistent (c : Closure.t) : consistent c -> consistent (note_depth c).
Proof.
  intros (Hpos & Hunset & Hset). unfold consistent, note_depth.
  cbn [Closure.wasTruncated Closure.itemsOmitted Closure.reason].
  split; [exact Hpos|]. split; [discriminate|]. intros _.
  destruct (Closure.wasTruncated c).
  - destruct (Hset eq_refl) as [-> | ->]; cbn; auto.
  - destruct (Hunset eq_refl) as [-> _]. cbn. auto.
Qed.

Lemma note_array_consistent (a len : Z) (c : Closure.t) :
  a < len -> consistent c -> consistent (note_array a len c).
Proof.
  intros Hlen (Hpos & Hunset & Hset). unfold consistent, note_array.
  cbn [Closure.wasTruncated Closure.itemsOmitted Closure.reason].
  split; [lia|]. split; [discriminate|]. intros _.
  destruct (Closure.wasTruncated c).
  - destruct (Hset eq_refl) as [-> | ->]; cbn; auto.
  - destruct (Hunset eq_refl) as [-> _]. cbn. auto.
Qed.

Lemma formatValue_consistent (h : heap) (a d : Z) (fuel : nat) :
  forall (v : value) (depth : Z) (c : Closure.t),
    consistent c -> consistent (snd (formatValue h a d fuel v depth c)).
Proof.
  induction fuel as [|fuel IH]; intros v depth c Hc; cbn [formatValue];
    [now apply note_depth_consistent|].
  destruct (depth >? d); [now apply note_depth_consistent|].
  destruct (deref h v) as [| |b|n|s|items|props|r]; try exact Hc.
  - destruct (Z.gtb_spec (Z.of_nat (List.length items)) a) as [Hgt|Hle].
    + pose proof (map_acc_invariant consistent
                    (fun item => formatValue h a d fuel item (depth + 1))
                    (slice items 0 a)
                    (fun x s => IH x (depth + 1) s)
                    (note_array a (Z.of_nat (List.length items)) c)
                    (note_array_consistent _ _ _ Hgt Hc)) as H.
      destruct (map_acc _ (slice items 0 a) _) as [items' c']. exact H.
    + pose proof (map_acc_invariant consistent
                    (fun item => formatValue h a d fuel item (depth + 1))
                    items (fun x s => IH x (depth + 1) s) c Hc) as H.
      destruct (map_acc _ items c) as [items' c']. exact H.
  - pose proof (map_acc_invariant consistent
                  (fun (kv : string * value) (c0 : Closure.t) =>
                     let (val, c1) := formatValue h a d fuel (snd kv) (depth + 1) c0 in
                     ((fst kv, val), c1))
                  props) as H.
    specialize (H (fun kv s Hs =>
                     match formatValue h a d fuel (snd kv) (depth + 1) s as r
                       return consistent (snd r) ->
                              consistent (snd (let (val, c1) := r in ((fst kv, val), c1)))
                     with (val, c1) => fun H0 => H0 end (IH (snd kv) (depth + 1) s Hs))
                  c Hc).
    destruct (map_acc _ props c) as [props' c']. exact H.
Qed.

(** X4.  The truncation record is coherent: it carries a reason exactly
    when [wasTruncated] is set, the reason is one of the two messages, and
    an [itemsOmitted] count, when present, is positive and comes with
    [wasTruncated]. *)
Theorem formatTruncatedResponse_record_coherent :
  forall (h : heap) (data : value) (options : FormattingOptions),
    let record := snd (formatTruncatedResponse h data options) in
    match TruncationMetadata.reason record with
    | None => TruncationMetadata.wasTruncated record = false
    | Some r =>
        TruncationMetadata.wasTruncated record = true
        /\ (r = "Maximum object depth exceeded"%string
            \/ r = "Array size limit exceeded"%string)
    end
    /\ match TruncationMetadata.itemsOmitted record with
       | None => True
       | Some n => 0 < n /\ TruncationMetadata.wasTruncated record = true
       end.
Proof.
  intros h data options. cbv zeta. unfold formatTruncatedResponse.
  pose proof (formatValue_consistent h
                (or_default (maxArrayItems options) DEFAULT_LIMITS.MAX_ARRAY_ITEMS)
                (or_default (maxObjectDepth options) DEFAULT_LIMITS.MAX_OBJECT_DEPTH)
                (levels (or_default (maxObjectDepth options)
                           DEFAULT_LIMITS.MAX_OBJECT_DEPTH) 0)
                data 0 Closure.init) as H.
  destruct (formatValue _ _ _ _ data 0 Closure.init) as [formattedData c].
  cbn [snd] in H |- *.
  destruct H as (Hpos & Hunset & Hset).
  { unfold consistent. cbn. repeat split; (lia || discriminate || auto). }
  cbn [TruncationMetadata.reason TruncationMetadata.wasTruncated
       TruncationMetadata.itemsOmitted].
  destruct (Closure.wasTruncated c) eqn:Ew.
  - split.
    + destruct (Hset eq_refl) as [-> | ->]; split; auto.
    + destruct (Z.gtb_spec (Closure.itemsOmitted c) 0); [split; [lia|reflexivity] | exact I].
  - split; [reflexivity|]. destruct (Hunset eq_refl) as [_ ->]. exact I.
Qed.

Lemma map_acc_same {A S : Type} (f : A -> S -> A * S) (l : list A) :
  (forall x, In x l -> forall s, f x s = (x, s)) ->
  forall s, map_acc f l s = (l, s).
Proof.
  induction l as [|x l IH]; intros Hf s; cbn [map_acc]; [reflexivity|].
  rewrite (Hf x (or_introl eq_refl)).
  rewrite (IH (fun y Hy => Hf y (or_intror Hy))). reflexivity.
Qed.

Lemma slice_prefix {A : Type} (l : list A) (n : Z) :
  0 <= n -> slice l 0 n = firstn (Z.to_nat n) l.
Proof.
  intros Hn. unfold slice, relative_index. cbn [Z.ltb Z.compare].
  rewrite (Z.min_l 0) by lia. cbn [Z.to_nat skipn]. rewrite Z.sub_0_r.
  destruct (Z.ltb_spec n 0); [lia|].
  destruct (Z.le_gt_cases n (Z.of_nat (List.length l))).
  - now rewrite Z.min_l by lia.
  - rewrite Z.min_r by lia. rewrite !firstn_all2 by lia. reflexivity.
Qed.

Lemma In_prefix {A : Type} (l : list A) (n : nat) (x : A) :
  In x (firstn n l) -> In x l.
Proof.
  intros H. rewrite <- (firstn_skipn n l). apply in_or_app. now left.
Qed.

Lemma formatValue_primitive (h : heap) (a d : Z) (fuel : nat) (v : value)
  (depth : Z) (c : Closure.t) :
  primitive v = true -> depth <= d ->
  formatValue h a d (S fuel) v depth c = (v, c).
Proof.
  intros Hv Hd. cbn [formatValue].
  destruct (Z.gtb_spec depth d); [lia|].
  destruct v; try discriminate; reflexivity.
Qed.

(** X5.  A sequence of primitives that is longer than [maxArrayItems] is
    cut to its first [maxArrayItems] elements followed by the marker, and
    the record counts the elements left out (with [maxArrayItems] not
    negative and [maxObjectDepth] at least 1). *)
Theorem formatTruncatedResponse_flat_array :
  forall (h : heap) (items : list value) (options : FormattingOptions),
    let a := or_default (maxArrayItems options) DEFAULT_LIMITS.MAX_ARRAY_ITEMS in
    let len := Z.of_nat (List.length items) in
    forallb primitive items = true ->
    0 <= a < len ->
    1 <= or_default (maxObjectDepth options) DEFAULT_LIMITS.MAX_OBJECT_DEPTH ->
    formatTruncatedResponse h (VArr items) options
    = (VArr (firstn (Z.to_nat a) items ++ [more_items (len - a)]),
       {| TruncationMetadata.wasTruncated := true;
          TruncationMetadata.originalSize := None;
          TruncationMetadata.itemsOmitted := Some (len - a);
          TruncationMetadata.reason := Some "Array size limit exceeded"%string |}).
Proof.
  intros h items options a len Hprim Ha Hd.
  unfold formatTruncatedResponse, levels. fold a.
  set (d := or_default (maxObjectDepth options) DEFAULT_LIMITS.MAX_OBJECT_DEPTH) in *.
  destruct (Z.to_nat (d + 1 - 0)) as [|fuel] eqn:Ef; [lia|].
  cbn [formatValue deref]. fold len.
  destruct (Z.gtb_spec 0 d); [lia|].
  destruct (Z.gtb_spec len a); [|lia].
  rewrite map_acc_same.
  - rewrite slice_prefix by lia.
    cbn [note_array Closure.wasTruncated Closure.itemsOmitted Closure.reason
         Closure.init or_reason].
    destruct (Z.gtb_spec (0 + (len - a)) 0); [|lia].
    now rewrite Z.add_0_l.
  - intros x Hx s. rewrite slice_prefix in Hx by lia. apply In_prefix in Hx.
    rewrite forallb_forall in Hprim.
    destruct fuel as [|fuel]; [lia|].
    apply formatValue_primitive; [now apply Hprim | lia].
Qed.

Lemma formatTruncatedResponse_flat_array_witness :
  formatTruncatedResponse [] (VArr [VNum 7; VStr "x"; VNull; VBool true])
    (limits None (Some 2) None None)
  = (VArr [VNum 7; VStr "x"; VStr "... 2 more items"],
     {| TruncationMetadata.wasTruncated := true;
        TruncationMetadata.originalSize := None;
        TruncationMetadata.itemsOmitted := Some 2;
        TruncationMetadata.reason := Some "Array size limit exceeded"%string |}).
Proof.
  apply (formatTruncatedResponse_flat_array []
           [VNum 7; VStr "x"; VNull; VBool true]
           (limits None (Some 2) None None));
    [ reflexivity
    | vm_compute; split; [discriminate | reflexivity]
    | vm_compute; discriminate ].
Defined.

Lemma map_acc_const {A B S : Type} (f : A -> S -> B * S) (g : A -> B)
  (k : S -> S) (l : list A) :
  (forall s, k (k s) = k s) ->
  (forall x s, f x s = (g x, k s)) ->
  forall s, map_acc f l s = (map g l, if nonempty l then k s else s).
Proof.
  intros Hk Hf. induction l as [|x l IH]; intros s; cbn [map_acc map nonempty];
    [reflexivity|].
  rewrite Hf, IH. destruct l; cbn [nonempty]; [reflexivity | now rewrite Hk].
Qed.

Lemma note_depth_twice (c : Closure.t) : note_depth (note_depth c) = note_depth c.
Proof.
  unfold note_depth. cbn [Closure.itemsOmitted Closure.reason].
  now destruct (Closure.reason c).
Qed.

(** X6.  With [maxObjectDepth = 0] every member of the top-level container
    is replaced by the depth marker, numbers and strings included: the
    depth test comes before the test for primitives.  An object keeps its
    keys in their order, except ["__proto__"], to which the marker is
    assigned without effect; the record reports the depth limit whenever
    the container has a member, that one included. *)
Theorem formatTruncatedResponse_depth_zero :
  forall (h : heap) (options : FormattingOptions),
    or_default (maxObjectDepth options) DEFAULT_LIMITS.MAX_OBJECT_DEPTH = 0 ->
    let record (touched : bool) :=
      {| TruncationMetadata.wasTruncated := touched;
         TruncationMetadata.originalSize := None;
         TruncationMetadata.itemsOmitted := None;
         TruncationMetadata.reason :=
           if touched then Some "Maximum object depth exceeded"%string else None |} in
    (forall items : list value,
        Z.of_nat (List.length items)
        <= or_default (maxArrayItems options) DEFAULT_LIMITS.MAX_ARRAY_ITEMS ->
        formatTruncatedResponse h (VArr items) options
        = (VArr (map (fun _ => depth_sentinel) items), record (nonempty items)))
    /\ (forall props : list (string * value),
           formatTruncatedResponse h (VObj props) options
           = (VObj (assigned (map (fun kv => (fst kv, depth_sentinel)) props)),
              record (nonempty props))).
Proof.
  intros h options Hd record. subst record. unfold formatTruncatedResponse, levels.
  rewrite Hd. change (Z.to_nat (0 + 1 - 0)) with 1%nat. split.
  - intros items Hlen. cbn [formatValue deref].
    destruct (Z.gtb_spec 0 0); [lia|].
    destruct (Z.gtb_spec (Z.of_nat (List.length items))
                (or_default (maxArrayItems options) DEFAULT_LIMITS.MAX_ARRAY_ITEMS));
      [lia|].
    rewrite (map_acc_const _ (fun _ => depth_sentinel) note_depth items
               note_depth_twice).
    + destruct items; reflexivity.
    + intros x s. destruct (Z.gtb_spec (0 + 1) 0); [reflexivity | lia].
  - intros props. cbn [formatValue deref].
    destruct (Z.gtb_spec 0 0); [lia|].
    rewrite (map_acc_const _ (fun kv : string * value => (fst kv, depth_sentinel))
               note_depth props note_depth_twice).
    + destruct props; reflexivity.
    + intros x s. destruct (Z.gtb_spec (0 + 1) 0); [reflexivity | lia].
Qed.

Lemma formatTruncatedResponse_depth_zero_witness :
  let record :=
    {| TruncationMetadata.wasTruncated := true;
       TruncationMetadata.originalSize := None;
       TruncationMetadata.itemsOmitted := None;
       TruncationMetadata.reason := Some "Maximum object depth exceeded"%string |} in
  formatTruncatedResponse [] (VArr [VNum 1; VStr "a"]) (limits None None (Some 0) None)
  = (VArr [depth_sentinel; depth_sentinel], record)
  /\ formatTruncatedResponse []
       (VObj [("__proto__"%string, VNum 1); ("a"%string, VNum 2)])
       (limits None None (Some 0) None)
     = (VObj [("a"%string, depth_sentinel)], record).
Proof.
  cbv zeta. split.
  - refine (proj1 (formatTruncatedResponse_depth_zero []
                     (limits None None (Some 0) None) _) [VNum 1; VStr "a"] _).
    + reflexivity.
    + vm_compute. discriminate.
  - exact (proj2 (formatTruncatedResponse_depth_zero []
                    (limits None None (Some 0) None) eq_refl)
             [("__proto__"%string, VNum 1); ("a"%string, VNum 2)]).
Defined.

(** ** The chunker: how many chunks, and where they are cut *)

Section ChunkerCuts.

Variable h : heap.
Variable options : FormattingOptions.

Lemma chunk_items_count (items : list value) :
  forall (chunks : list (list value)) (cur : list value) (size : Z)
         (chunks' : list (list value)) (cur' : list value),
    chunk_items h options items chunks cur size = Ok (chunks', cur') ->
    Forall (fun g => g <> []) chunks ->
    Forall (fun g => g <> []) chunks'
    /\ (List.length chunks' + (if nonempty cur' then 1 else 0)
        <= List.length chunks + (if nonempty cur then 1 else 0) + List.length items)%nat
    /\ (items <> [] \/ cur <> [] -> cur' <> []).
Proof.
  induction items as [|item items IH]; intros chunks cur size chunks' cur' H Hchunks;
    cbn [chunk_items] in H.
  - injection H as <- <-. split; [exact Hchunks|]. split; [cbn; lia|].
    intros [Hn|Hn]; [now elim Hn | exact Hn].
  - bind_inv H.
    destruct (size + a >? max_chunk options); cbn [andb] in H;
      [destruct (nonempty cur) eqn:Hne|].
    + destruct (IH _ _ _ _ _ H) as (Hall & Hcount & Hcur).
      { apply Forall_app. split; [exact Hchunks|].
        constructor; [now apply nonempty_true | constructor]. }
      split; [exact Hall|]. split.
      * rewrite length_app in Hcount. cbn [List.length nonempty] in Hcount |- *. lia.
      * intros _. apply Hcur. right. discriminate.
    + destruct (IH _ _ _ _ _ H Hchunks) as (Hall & Hcount & Hcur).
      split; [exact Hall|]. split.
      * apply nonempty_false in Hne. subst cur.
        cbn [app List.length nonempty] in Hcount |- *. lia.
      * intros _. apply Hcur. right. now destruct cur.
    + destruct (IH _ _ _ _ _ H Hchunks) as (Hall & Hcount & Hcur).
      split; [exact Hall|]. split.
      * assert (nonempty (cur ++ [item]) = true) as Hn by now destruct cur.
        rewrite Hn in Hcount. cbn [List.length]. destruct (nonempty cur); lia.
      * intros _. apply Hcur. right. now destruct cur.
Qed.

Lemma chunk_entries_count (entries : list (string * value)) :
  forall (chunks : list value) (cur : list (string * value)) (size : Z)
         (chunks' : list value) (cur' : list (string * value)),
    chunk_entries h options entries chunks cur size = Ok (chunks', cur') ->
    (List.length chunks' + (if nonempty cur' then 1 else 0)
     <= List.length chunks + (if nonempty cur then 1 else 0) + List.length entries)%nat.
Proof.
  induction entries as [|entry entries IH]; intros chunks cur size chunks' cur' H;
    cbn [chunk_entries] in H.
  - injection H as <- <-. cbn; lia.
  - bind_inv H. destruct (a >? max_chunk options).
    + apply IH in H. rewrite length_app in H. cbn [List.length nonempty] in H |- *.
      destruct ((size >? 0) && nonempty cur) eqn:Hflush.
      * apply andb_prop in Hflush. destruct Hflush as [_ ->].
        rewrite length_app in H. cbn [List.length] in H. lia.
      * destruct (nonempty cur); lia.
    + assert (Hone : forall obj : list (string * value),
                 ((if nonempty (assign obj (fst entry) (snd entry)) then 1 else 0)
                  <= (if nonempty obj then 1 else 0) + 1)%nat).
      { intros obj. destruct (nonempty (assign obj _ _)), (nonempty obj); lia. }
      destruct ((size + a >? max_chunk options) && nonempty cur) eqn:Hflush.
      * apply IH in H. apply andb_prop in Hflush. destruct Hflush as [_ ->].
        rewrite length_app in H. specialize (Hone []).
        cbn [app List.length nonempty] in H, Hone |- *. lia.
      * apply IH in H. specialize (Hone cur). cbn [List.length]. lia.
Qed.

(** The loop ends with nothing to return exactly when it started with
    nothing and every pair was assigned under ["__proto__"] without being
    over the budget. *)
Lemma chunk_entries_none (entries : list (string * value)) :
  forall (chunks : list value) (cur : list (string * value)) (size : Z)
         (chunks' : list value) (cur' : list (string * value)),
    chunk_entries h options entries chunks cur size = Ok (chunks', cur') ->
    (chunks' = [] /\ cur' = [])
    <-> (chunks = [] /\ cur = []
         /\ Forall (fun entry =>
                      settable (fst entry) = false
                      /\ measured (entrySize h) entry <= max_chunk options)
                   entries).
Proof.
  induction entries as [|entry entries IH]; intros chunks cur size chunks' cur' H;
    cbn [chunk_entries] in H.
  - injection H as <- <-. split; [intros [-> ->]; now repeat split | tauto].
  - bind_inv H. pose proof (measured_Ok _ _ _ Ha) as Hm.
    destruct (Z.gtb_spec a (max_chunk options)) as [Hover|Hfits].
    + rewrite (IH _ _ _ _ _ H). split.
      * intros (Hn & _). now apply app_eq_nil in Hn as [_ Hn].
      * intros (_ & _ & Hall). inversion Hall as [|? ? [_ Hle] _]. lia.
    + assert (Hassign : forall obj : list (string * value),
                 assign obj (fst entry) (snd entry) = []
                 <-> obj = [] /\ settable (fst entry) = false).
      { intros obj. unfold assign, settable.
        destruct (String.eqb (fst entry) proto); cbn [negb].
        - tauto.
        - split; [intros Hn; now apply app_eq_nil in Hn as [_ Hn] | intros [_ Hn]; discriminate]. }
      destruct ((size + a >? max_chunk options) && nonempty cur) eqn:Hflush.
      * rewrite (IH _ _ _ _ _ H). split.
        -- intros (Hn & _). now apply app_eq_nil in Hn as [_ Hn].
        -- intros (_ & -> & _). apply andb_prop in Hflush as [_ Hne]. discriminate.
      * rewrite (IH _ _ _ _ _ H), Hassign. split.
        -- intros (-> & (-> & Hk) & Hall). repeat split.
           constructor; [split; [exact Hk | lia] | exact Hall].
        -- intros (-> & -> & Hall). inversion Hall as [|? ? [Hk _] Hrest].
           now repeat split.
Qed.

Lemma chunk_items_fit (items : list value) :
  forall (cur : list value) (size : Z)
         (chunks' : list (list value)) (cur' : list value),
    chunk_items h options items [] cur size = Ok (chunks', cur') ->
    size = total_size (itemSize h) cur ->
    total_size (itemSize h) cur + total_size (itemSize h) items <= max_chunk options ->
    chunks' = [] /\ cur' = cur ++ items.
Proof.
  induction items as [|item items IH]; intros cur size chunks' cur' H Hsize Hfit;
    cbn [chunk_items] in H.
  - injection H as <- <-. now rewrite app_nil_r.
  - bind_inv H. pose proof (measured_Ok _ _ _ Ha) as Hm.
    pose proof (total_size_nonneg (itemSize h) items (measured_itemSize_nonneg h)) as Hrest.
    change (total_size (itemSize h) (item :: items))
      with (measured (itemSize h) item + total_size (itemSize h) items) in Hfit.
    destruct (Z.gtb_spec (size + a) (max_chunk options)); [lia|].
    cbn [andb] in H.
    destruct (IH _ _ _ _ H) as [-> ->].
    + rewrite total_size_app. cbn. lia.
    + rewrite total_size_app. cbn. lia.
    + now rewrite <- app_assoc.
Qed.

Lemma chunk_entries_fit (entries : list (string * value)) :
  forall (cur : list (string * value)) (size : Z)
         (chunks' : list value) (cur' : list (string * value)),
    chunk_entries h options entries [] cur size = Ok (chunks', cur') ->
    0 <= size ->
    size + total_size (entrySize h) entries <= max_chunk options ->
    chunks' = [] /\ cur' = cur ++ assigned entries.
Proof.
  induction entries as [|entry entries IH]; intros cur size chunks' cur' H Hsize Hfit;
    cbn [chunk_entries] in H.
  - injection H as <- <-. now rewrite app_nil_r.
  - bind_inv H. pose proof (measured_Ok _ _ _ Ha) as Hm.
    pose proof (total_size_nonneg (entrySize h) entries (measured_entrySize_nonneg h))
      as Hrest.
    pose proof (measured_entrySize_nonneg h entry) as Hentry.
    change (total_size (entrySize h) (entry :: entries))
      with (measured (entrySize h) entry + total_size (entrySize h) entries) in Hfit.
    destruct (Z.gtb_spec a (max_chunk options)); [lia|].
    destruct (Z.gtb_spec (size + a) (max_chunk options)); [lia|].
    cbn [andb] in H. rewrite assign_assigned in H.
    destruct (IH _ _ _ _ H) as [-> ->]; [lia | lia |].
    split; [reflexivity|]. destruct entry as [key v]. cbn [fst snd].
    change ((key, v) :: entries) with ([(key, v)] ++ entries).
    now rewrite assigned_app, <- app_assoc.
Qed.

Lemma closed_when_full_extend (groups : list (list value)) (g : list value)
  (y : value) :
  g <> [] ->
  closed_when_full h options (groups ++ [g]) ->
  closed_when_full h options (groups ++ [g ++ [y]]).
Proof.
  intros Hg. induction groups as [|g0 groups IH]; [intros _; exact I|].
  destruct groups as [|g1 groups].
  - cbn [app closed_when_full]. destruct g as [|x g]; [now elim Hg|].
    cbn [app]. tauto.
  - change ((g0 :: g1 :: groups) ++ [g]) with (g0 :: (g1 :: groups) ++ [g]).
    change ((g0 :: g1 :: groups) ++ [g ++ [y]])
      with (g0 :: (g1 :: groups) ++ [g ++ [y]]).
    cbn [closed_when_full app] in IH |- *. intros [Hfirst Hrest].
    split; [exact Hfirst | exact (IH Hrest)].
Qed.

Lemma closed_when_full_open (groups : list (list value)) (g : list value)
  (x : value) :
  max_chunk options < total_size (itemSize h) g + measured (itemSize h) x ->
  closed_when_full h options (groups ++ [g]) ->
  closed_when_full h options ((groups ++ [g]) ++ [[x]]).
Proof.
  intros Hfull. induction groups as [|g0 groups IH].
  - intros _. cbn [app closed_when_full]. split; [exact Hfull | exact I].
  - destruct groups as [|g1 groups].
    + cbn [app closed_when_full] in IH |- *. intros [Hfirst _].
      split; [exact Hfirst | exact (IH I)].
    + change ((g0 :: g1 :: groups) ++ [g]) with (g0 :: (g1 :: groups) ++ [g]).
      change ((g0 :: (g1 :: groups) ++ [g]) ++ [[x]])
        with (g0 :: ((g1 :: groups) ++ [g]) ++ [[x]]).
      cbn [closed_when_full app] in IH |- *. intros [Hfirst Hrest].
      split; [exact Hfirst | exact (IH Hrest)].
Qed.

Lemma chunk_items_closed (items : list value) :
  forall (chunks : list (list value)) (cur : list value) (size : Z)
         (chunks' : list (list value)) (cur' : list value),
    chunk_items h options items chunks cur size = Ok (chunks', cur') ->
    size = total_size (itemSize h) cur ->
    (cur = [] -> chunks = []) ->
    closed_when_full h options (chunks ++ [cur]) ->
    (cur' = [] -> chunks' = []) /\ closed_when_full h options (chunks' ++ [cur']).
Proof.
  induction items as [|item items IH];
    intros chunks cur size chunks' cur' H Hsize Hempty Hclosed; cbn [chunk_items] in H.
  - injection H as <- <-. now split.
  - bind_inv H. pose proof (measured_Ok _ _ _ Ha) as Hm.
    destruct (Z.gtb_spec (size + a) (max_chunk options)) as [Hgt|Hle];
      cbn [andb] in H; [destruct (nonempty cur) eqn:Hne|].
    + apply (IH _ _ _ _ _ H).
      * cbn. lia.
      * discriminate.
      * apply closed_when_full_open; [lia | exact Hclosed].
    + apply nonempty_false in Hne. subst cur. rewrite (Hempty eq_refl) in *.
      apply (IH _ _ _ _ _ H); [ | reflexivity | exact I].
      unfold total_size in *. cbn [app fold_right] in *. lia.
    + apply (IH _ _ _ _ _ H).
      * rewrite total_size_app. cbn. lia.
      * intros Hn. now destruct cur.
      * destruct cur as [|x cur].
        -- rewrite (Hempty eq_refl). exact I.
        -- apply closed_when_full_extend; [discriminate | exact Hclosed].
Qed.

End ChunkerCuts.

Lemma map_elements_of (groups : list (list value)) :
  map elements_of (map VArr groups) = groups.
Proof.
  induction groups as [|g groups IH]; cbn [map elements_of]; [reflexivity|].
  now rewrite IH.
Qed.

(** X7.  The chunker never makes more chunks than the input has members.
    For a sequence it makes none exactly when the sequence is empty, and
    no chunk is empty.  For an object it makes none exactly when every
    pair sits under the key ["__proto__"] and is within the budget (an
    empty object, or an object whose one pair has that key): such a pair
    is measured and assigned, and the chunk gets no property. *)
Theorem chunkResponse_chunk_count :
  forall (h : heap) (options : FormattingOptions) (data : value)
         (chunks : list value) (continuation : option token),
    chunkResponse h options data = Ok (chunks, continuation) ->
    (forall items,
        deref h data = VArr items ->
        (List.length chunks <= List.length items)%nat
        /\ (chunks = [] <-> items = [])
        /\ Forall (fun chunk => elements_of chunk <> []) chunks)
    /\ (forall entries,
           deref h data = VObj entries ->
           (List.length chunks <= List.length entries)%nat
           /\ (chunks = []
               <-> Forall (fun entry =>
                             settable (fst entry) = false
                             /\ measured (entrySize h) entry <= max_chunk options)
                          entries)
           /\ (entries = [] -> chunks = [])).
Proof.
  intros h options data chunks continuation H. split.
  - intros items Hd.
    destruct (chunkResponse_array _ _ _ _ _ _ Hd H) as (groups & cur & Hloop & ->).
    destruct (chunk_items_count h options _ _ _ _ _ _ Hloop (Forall_nil _))
      as (Hall & Hcount & Hcur).
    cbn [List.length nonempty] in Hcount. rewrite length_map.
    split; [|split].
    + destruct (nonempty cur); [rewrite length_app; cbn [List.length]|]; lia.
    + split.
      * intros Hnil. destruct items as [|item items]; [reflexivity|].
        exfalso. assert (cur <> []) as Hne by (apply Hcur; left; discriminate).
        destruct cur as [|x cur]; [now elim Hne|]. cbn [nonempty] in Hnil.
        apply map_eq_nil in Hnil. now apply app_eq_nil in Hnil as [_ Hnil].
      * intros ->. cbn [chunk_items] in Hloop. injection Hloop as <- <-. reflexivity.
    + apply Forall_forall. intros chunk Hin. apply in_map_iff in Hin.
      destruct Hin as (g & <- & Hin). cbn [elements_of].
      destruct (nonempty cur) eqn:Hne.
      * apply in_app_or in Hin. destruct Hin as [Hin | [<- | []]].
        -- rewrite Forall_forall in Hall. now apply Hall.
        -- now apply nonempty_true.
      * rewrite Forall_forall in Hall. now apply Hall.
  - intros entries Hd.
    destruct (chunkResponse_object _ _ _ _ _ _ Hd H) as (groups & cur & Hloop & ->).
    pose proof (chunk_entries_count h options _ _ _ _ _ _ Hloop) as Hcount.
    pose proof (chunk_entries_none h options _ _ _ _ _ _ Hloop) as Hnone.
    cbn [List.length nonempty] in Hcount.
    assert (Hiff : (if nonempty cur then groups ++ [VObj cur] else groups) = []
                   <-> Forall (fun entry =>
                                 settable (fst entry) = false
                                 /\ measured (entrySize h) entry <= max_chunk options)
                              entries).
    { split.
      - intros Hnil. apply Hnone. destruct cur as [|kv cur]; cbn [nonempty] in Hnil.
        + now split.
        + now apply app_eq_nil in Hnil as [_ Hnil].
      - intros Hall. destruct Hnone as [_ Hnone].
        destruct Hnone as [-> ->]; [now repeat split | reflexivity]. }
    split; [|split].
    + destruct (nonempty cur); [rewrite length_app; cbn [List.length]|]; lia.
    + exact Hiff.
    + intros ->. apply Hiff. constructor.
Qed.

Lemma chunkResponse_chunk_count_witness :
  (exists chunks continuation,
      chunkResponse [] (limits None None None (Some 3)) (numbers [1; 2; 3; 4; 5])
      = Ok (chunks, continuation)
      /\ (List.length chunks <= 5)%nat)
  /\ (exists chunks continuation,
         chunkResponse [] (limits None None None (Some 14))
           (VObj [("a"%string, VNum 1); ("b"%string, VNum 2); ("c"%string, VNum 3)])
         = Ok (chunks, continuation)
         /\ (List.length chunks <= 3)%nat)
  /\ chunkResponse [] default_options (VObj [("__proto__"%string, VNum 5)])
     = Ok ([], None).
Proof.
  split; [|split].
  - destruct (chunkResponse [] (limits None None None (Some 3))
                (numbers [1; 2; 3; 4; 5]))
      as [[chunks continuation]|e] eqn:E; [ | vm_compute in E; discriminate ].
    exists chunks, continuation. split; [reflexivity|].
    exact (proj1 (proj1 (chunkResponse_chunk_count [] _ _ _ _ E)
                    (elements_of (numbers [1; 2; 3; 4; 5])) eq_refl)).
  - destruct (chunkResponse [] (limits None None None (Some 14))
                (VObj [("a"%string, VNum 1); ("b"%string, VNum 2);
                       ("c"%string, VNum 3)]))
      as [[chunks continuation]|e] eqn:E; [ | vm_compute in E; discriminate ].
    exists chunks, continuation. split; [reflexivity|].
    exact (proj1 (proj2 (chunkResponse_chunk_count [] _ _ _ _ E) _ eq_refl)).
  - destruct (chunkResponse [] default_options (VObj [("__proto__"%string, VNum 5)]))
      as [[chunks continuation]|e] eqn:E; [ | vm_compute in E; discriminate ].
    destruct (proj2 (chunkResponse_chunk_count [] _ _ _ _ E) _ eq_refl)
      as (_ & Hnone & _).
    assert (Hchunks : chunks = []).
    { apply Hnone. constructor; [|constructor].
      split; [reflexivity|]. vm_compute. discriminate. }
    subst chunks. vm_compute in E. injection E as <-. reflexivity.
Defined.

(** X8.  A container whose members' measured sizes add up to at most
    [maxChunkSize] is not split, and there is no continuation token.  A
    non-empty sequence comes back as one chunk holding all its elements.
    An object comes back as one chunk holding its pairs in their order,
    except a pair under the key ["__proto__"], which is measured but not
    held; when no pair is left there is no chunk. *)
Theorem chunkResponse_single_chunk :
  forall (h : heap) (options : FormattingOptions) (data : value)
         (chunks : list value) (continuation : option token),
    chunkResponse h options data = Ok (chunks, continuation) ->
    (forall items,
        deref h data = VArr items ->
        items <> [] ->
        total_size (itemSize h) items <= max_chunk options ->
        chunks = [VArr items] /\ continuation = None)
    /\ (forall entries,
           deref h data = VObj entries ->
           total_size (entrySize h) entries <= max_chunk options ->
           chunks = (if nonempty (assigned entries)
                     then [VObj (assigned entries)] else [])
           /\ continuation = None
           /\ (forallb (fun entry => settable (fst entry)) entries = true ->
               assigned entries = entries)).
Proof.
  intros h options data chunks continuation H. split.
  - intros items Hd Hne Hfit. unfold chunkResponse in H.
    rewrite (deref_array_typeof _ _ _ Hd), Hd in H. bind_inv H.
    destruct a as [groups cur].
    destruct (chunk_items_fit h options _ _ _ _ _ Ha eq_refl) as [-> ->];
      [cbn; lia|].
    cbn [app] in H. destruct items as [|item items]; [now elim Hne|].
    cbn in H. injection H as <- <-. now split.
  - intros entries Hd Hfit. unfold chunkResponse in H.
    rewrite (deref_object_typeof _ _ _ Hd), Hd in H. bind_inv H.
    destruct a as [groups cur].
    destruct (chunk_entries_fit h options _ _ _ _ _ Ha) as [-> ->]; [lia | lia |].
    cbn [app] in H. split; [|split; [|apply assigned_all]].
    + destruct (nonempty (assigned entries)); now injection H as <- _.
    + destruct (nonempty (assigned entries)); now injection H as _ <-.
Qed.

Lemma chunkResponse_single_chunk_witness :
  chunkResponse [] (limits None None None (Some 3)) (numbers [1; 2; 3])
  = Ok ([numbers [1; 2; 3]], None)
  /\ chunkResponse [] default_options
       (VObj [("a"%string, VNum 1); ("__proto__"%string, VNum 5);
              ("b"%string, VNum 2)])
     = Ok ([VObj [("a"%string, VNum 1); ("b"%string, VNum 2)]], None).
Proof.
  split.
  - destruct (chunkResponse [] (limits None None None (Some 3)) (numbers [1; 2; 3]))
      as [[chunks continuation]|e] eqn:E; [ | vm_compute in E; discriminate ].
    destruct (proj1 (chunkResponse_single_chunk [] _ _ _ _ E)
                (elements_of (numbers [1; 2; 3])) eq_refl) as [-> ->].
    + discriminate.
    + vm_compute. discriminate.
    + reflexivity.
  - destruct (chunkResponse [] default_options
                (VObj [("a"%string, VNum 1); ("__proto__"%string, VNum 5);
                       ("b"%string, VNum 2)]))
      as [[chunks continuation]|e] eqn:E; [ | vm_compute in E; discriminate ].
    destruct (proj2 (chunkResponse_single_chunk [] _ _ _ _ E)
                [("a"%string, VNum 1); ("__proto__"%string, VNum 5);
                 ("b"%string, VNum 2)] eq_refl) as (-> & -> & _).
    + vm_compute. discriminate.
    + reflexivity.
Defined.

(** X9.  The array loop is greedy: a chunk is closed only when the first
    element of the next chunk, added to it, would have measured more than
    [maxChunkSize]. *)
Theorem chunkResponse_greedy :
  forall (h : heap) (options : FormattingOptions) (data : value)
         (items : list value) (chunks : list value) (continuation : option token),
    deref h data = VArr items ->
    chunkResponse h options data = Ok (chunks, continuation) ->
    closed_when_full h options (map elements_of chunks).
Proof.
  intros h options data items chunks continuation Hd H.
  destruct (chunkResponse_array _ _ _ _ _ _ Hd H) as (groups & cur & Hloop & ->).
  rewrite map_elements_of.
  destruct (chunk_items_closed h options _ _ _ _ _ _ Hloop eq_refl
              (fun _ => eq_refl) I) as [Hempty Hclosed].
  destruct (nonempty cur) eqn:Hne; [exact Hclosed|].
  apply nonempty_false in Hne. now rewrite (Hempty Hne).
Qed.

Lemma chunkResponse_greedy_witness :
  exists chunks continuation,
    chunkResponse [] (limits None None None (Some 3)) (numbers [1; 2; 3; 4; 5])
    = Ok (chunks, continuation)
    /\ closed_when_full [] (limits None None None (Some 3)) (map elements_of chunks).
Proof.
  destruct (chunkResponse [] (limits None None None (Some 3)) (numbers [1; 2; 3; 4; 5]))
    as [[chunks continuation]|e] eqn:E; [ | vm_compute in E; discriminate ].
  exists chunks, continuation. split; [reflexivity|].
  exact (chunkResponse_greedy [] _ (numbers [1; 2; 3; 4; 5])
           (elements_of (numbers [1; 2; 3; 4; 5])) _ _ eq_refl E).
Defined.

(** ** The paginator: following [nextOffset] and [prevOffset] *)

Lemma clamp_inside (total x : Z) : 0 <= x <= total -> clamp 0 total x = x.
Proof.
  intros Hx. unfold clamp.
  destruct (Z.ltb_spec x 0); [lia|]. destruct (Z.ltb_spec total x); lia.
Qed.

Lemma window_then_rest {T : Type} (S : list T) (from count : Z) :
  0 <= from -> 0 <= count ->
  window S from count ++ skipn (Z.to_nat (from + count)) S = skipn (Z.to_nat from) S.
Proof.
  intros Hf Hc. unfold window. rewrite Z2Nat.inj_add by lia.
  rewrite Nat.add_comm, <- skipn_skipn. apply firstn_skipn.
Qed.

Lemma pages_from_rest {T : Type} (S : list T) (limit : option Z) (fuel : nat) :
  forall offset : Z,
    0 <= offset <= Z.of_nat (List.length S) ->
    Z.of_nat (List.length S) - offset < Z.of_nat fuel ->
    List.concat (pages_from fuel S offset limit) = skipn (Z.to_nat offset) S.
Proof.
  induction fuel as [|fuel IH]; intros offset Ho Hfuel; [lia|].
  cbn [pages_from]. rewrite paginateResults_unfold.
  cbn [data pagination PaginationMetadata.nextOffset or_default].
  rewrite (clamp_inside _ _ Ho).
  assert (Hl : 1 <= at_least 1 (or_default limit 10))
    by (rewrite <- at_least_max; lia).
  cbn [List.concat].
  destruct (Z.ltb_spec (offset + at_least 1 (or_default limit 10))
              (Z.of_nat (List.length S))) as [Hmore|Hlast].
  - rewrite IH by lia. apply window_then_rest; lia.
  - cbn [List.concat]. rewrite app_nil_r. unfold window.
    apply firstn_all2. rewrite length_skipn. lia.
Qed.

(** X10.  A client that starts at offset 0 and follows [nextOffset] with
    the same limit receives every item exactly once and in order: the
    pages, concatenated, are the list. *)
Theorem paginateResults_pages_cover :
  forall (T : Type) (S : list T) (limit : option Z),
    List.concat (pages_from (Datatypes.S (List.length S)) S 0 limit) = S.
Proof.
  intros T S limit.
  rewrite pages_from_rest; [reflexivity | lia | lia].
Qed.

(** X11.  [nextOffset] and [prevOffset] undo each other: the page at
    [nextOffset] has the offset of this page as its [prevOffset], and,
    when this page starts at least one limit into the list and before its
    end, the page at [prevOffset] has this page's offset as its
    [nextOffset]. *)
Theorem paginateResults_next_prev :
  forall (T : Type) (S : list T) (offset limit : option Z),
    let page (o : option Z) :=
      pagination (paginateResults S {| PaginationParams.offset := o;
                                       PaginationParams.limit := limit |}) in
    let here := PaginationMetadata.offset (page offset) in
    (forall next,
        PaginationMetadata.nextOffset (page offset) = Some next ->
        PaginationMetadata.prevOffset (page (Some next)) = Some here)
    /\ (forall prev,
           PaginationMetadata.prevOffset (page offset) = Some prev ->
           PaginationMetadata.limit (page offset) <= here
           < PaginationMetadata.total (page offset) ->
           PaginationMetadata.nextOffset (page (Some prev)) = Some here).
Proof.
  intros T S offset limit page here. subst here page. cbv beta.
  rewrite !paginateResults_unfold.
  cbn [pagination PaginationMetadata.offset PaginationMetadata.limit
       PaginationMetadata.total PaginationMetadata.nextOffset
       PaginationMetadata.prevOffset or_default].
  set (total := Z.of_nat (List.length S)).
  set (o := clamp 0 total (or_default offset 0)).
  set (l := at_least 1 (or_default limit 10)).
  assert (Ho : 0 <= o <= total)
    by (unfold o; rewrite <- clamp_max_min by (unfold total; lia); lia).
  assert (Hl : 1 <= l) by (unfold l; rewrite <- at_least_max; lia).
  split.
  - intros next Hnext.
    destruct (Z.ltb_spec (o + l) total); [|discriminate].
    injection Hnext as <-.
    rewrite paginateResults_unfold.
    cbn [pagination PaginationMetadata.prevOffset or_default].
    fold total l. rewrite clamp_inside by lia.
    destruct (Z.gtb_spec (o + l) 0); [|lia]. f_equal. lia.
  - intros prev Hprev Hhere.
    destruct (Z.gtb_spec o 0); [|discriminate].
    injection Hprev as <-.
    rewrite paginateResults_unfold.
    cbn [pagination PaginationMetadata.nextOffset or_default].
    fold total l. rewrite clamp_inside by lia.
    rewrite Z.max_r by lia.
    destruct (Z.ltb_spec (o - l + l) total); [|lia]. f_equal. lia.
Qed.

Lemma paginateResults_next_prev_witness :
  PaginationMetadata.prevOffset
    (pagination (paginateResults [1; 2; 3; 4; 5; 6; 7]
                   {| PaginationParams.offset := Some 3;
                      PaginationParams.limit := Some 3 |}))
  = Some 0
  /\ PaginationMetadata.nextOffset
       (pagination (paginateResults [1; 2; 3; 4; 5; 6; 7]
                      {| PaginationParams.offset := Some 0;
                         PaginationParams.limit := Some 3 |}))
     = Some 3.
Proof.
  split.
  - exact (proj1 (paginateResults_next_prev Z [1; 2; 3; 4; 5; 6; 7] (Some 0) (Some 3))
             3 eq_refl).
  - refine (proj2 (paginateResults_next_prev Z [1; 2; 3; 4; 5; 6; 7] (Some 3) (Some 3))
              0 eq_refl _).
    vm_compute. split; [discriminate | reflexivity].
Defined.

(** ** The field filter *)

Lemma mapR_In {A B : Type} (f : A -> result B) (l : list A) :
  forall ys, mapR f l = Ok ys ->
             forall y, In y ys -> exists x, In x l /\ f x = Ok y.
Proof.
  induction l as [|x l IH]; intros ys H; cbn [mapR] in H.
  - injection H as <-. intros y [].
  - bind_inv H. bind_inv H. injection H as <-. intros y [<- | Hy].
    + exists x. split; [now left | exact Ha].
    + destruct (IH _ Ha0 y Hy) as (x' & Hx' & Hf). exists x'. split; [now right | exact Hf].
Qed.

Lemma mapR_same {A B : Type} (f : A -> result B) (g : A -> B) (l : list A) :
  (forall x, In x l -> f x = Ok (g x)) -> mapR f l = Ok (map g l).
Proof.
  induction l as [|x l IH]; intros Hf; cbn [mapR map]; [reflexivity|].
  rewrite (Hf x (or_introl eq_refl)), (IH (fun y Hy => Hf y (or_intror Hy))).
  reflexivity.
Qed.

Lemma mapR_keys {B : Type} (f : string -> result B) (keys : list string) :
  forall props, mapR (fun key => v <- f key ;; Ok (key, v)) keys = Ok props ->
                map fst props = keys.
Proof.
  induction keys as [|key keys IH]; intros props H; cbn [mapR] in H.
  - now injection H as <-.
  - bind_inv H. bind_inv H. injection H as <-. bind_inv Ha. injection Ha as <-.
    cbn [map fst]. now rewrite (IH _ Ha0).
Qed.

Lemma primitive_shape (data : value) :
  is_null data || negb (typeof_object data) = true ->
  ref_free data = true /\ height data = O /\ forall p, all_keys p data = true.
Proof.
  destruct data; cbn; intros H; try discriminate; now repeat split.
Qed.

Lemma deref_shape (h : heap) (data other : value) :
  deref h data = other ->
  match other with
  | VArr _ | VObj _ => True
  | _ => ref_free other = true /\ height other = O
         /\ forall p, all_keys p other = true
  end.
Proof.
  intros E. destruct other; try exact I; try (now repeat split).
  now apply deref_not_ref in E.
Qed.

Lemma filterObjectFields_bounded (h : heap) (m : Z) (fuel : nat) :
  forall (data : value) (options : SerializationOptions),
    maxDepth options = Some m ->
    (Z.to_nat (m + 1 - or_default (_currentDepth options) 0%Z) < fuel)%nat ->
    exists t,
      filterObjectFields fuel h data options = Ok t
      /\ ref_free t = true
      /\ (height t <= Z.to_nat (m + 1 - or_default (_currentDepth options) 0%Z))%nat.
Proof.
  induction fuel as [|fuel IH]; intros data options Hm Hfuel; [lia|].
  cbn [filterObjectFields]. rewrite Hm. cbn [beyond].
  set (cd := or_default (_currentDepth options) 0) in *.
  destruct (Z.gtb_spec cd m) as [Hdeep|Hshallow].
  - eexists. split; [reflexivity|]. split; [reflexivity | cbn; lia].
  - assert (Hstep : Z.to_nat (m + 1 - cd) = S (Z.to_nat (m + 1 - (cd + 1)))) by lia.
    assert (Hrec : forall x,
               exists t,
                 filterObjectFields fuel h x (with_currentDepth options (cd + 1)) = Ok t
                 /\ ref_free t = true
                 /\ (height t <= Z.to_nat (m + 1 - (cd + 1)))%nat).
    { intros x. apply (IH x (with_currentDepth options (cd + 1)) Hm).
      cbn [with_currentDepth _currentDepth or_default]. lia. }
    destruct (is_null data || negb (typeof_object data)) eqn:Ep.
    { apply primitive_shape in Ep as (Hr & Hh & _). exists data. rewrite Hh.
      split; [reflexivity|]. split; [exact Hr | lia]. }
    pose proof (deref_shape h data _ eq_refl) as Hs.
    destruct (deref h data) as [| |b|n|s|items|props|a];
      try (destruct Hs as (Hr & Hh & _); eexists; split; [reflexivity|];
           split; [exact Hr | rewrite Hh; lia]).
    + destruct (mapR_Forall
                  (fun item => filterObjectFields fuel h item
                                 (with_currentDepth options (cd + 1)))
                  (fun t => ref_free t = true
                            /\ (height t <= Z.to_nat (m + 1 - (cd + 1)))%nat)
                  items (fun x _ => Hrec x)) as (items' & -> & Hall).
      cbn [bind]. eexists. split; [reflexivity|].
      rewrite Forall_forall in Hall. split.
      * cbn [ref_free]. apply forallb_forall. intros x Hx. now apply Hall.
      * cbn [height]. rewrite Hstep. apply le_n_S, list_max_bound.
        intros x Hx. now apply Hall.
    + destruct (mapR_Forall
                  (fun key =>
                     v <- filterObjectFields fuel h (get props key)
                            (with_currentDepth options (cd + 1)) ;;
                     Ok (key, v))
                  (fun kv => ref_free (snd kv) = true
                             /\ (height (snd kv) <= Z.to_nat (m + 1 - (cd + 1)))%nat)
                  (selected_keys options (map fst props))) as (props' & -> & Hall).
      { intros key _. destruct (Hrec (get props key)) as (t & -> & Ht).
        cbn [bind]. eexists. split; [reflexivity | exact Ht]. }
      cbn [bind]. eexists. split; [reflexivity|].
      apply Forall_assigned in Hall. rewrite Forall_forall in Hall. split.
      * cbn [ref_free]. apply forallb_forall. intros x Hx. now apply Hall.
      * cbn [height]. rewrite Hstep. apply le_n_S.
        apply (list_max_bound (fun kv : string * value => height (snd kv))).
        intros x Hx. now apply Hall.
Qed.

(** X12.  With a finite [maxDepth] the filter returns on every object
    graph, a circular one included: what it returns is a tree that shares
    nothing with the input and nests at most [maxDepth + 1] containers,
    and [serializeToJson] returns too. *)
Theorem serializeToJson_maxDepth_returns :
  forall (h : heap) (data : value) (options : SerializationOptions) (m : Z),
    maxDepth options = Some m ->
    (exists t,
        filterObjectFields (filter_stack h data options) h data
          (with_currentDepth options 0) = Ok t
        /\ ref_free t = true
        /\ (height t <= Z.to_nat (m + 1))%nat)
    /\ exists o, serializeToJson h data options = Ok o.
Proof.
  intros h data options m Hm.
  destruct (filterObjectFields_bounded h m (filter_stack h data options) data
              (with_currentDepth options 0) Hm) as (t & Ht & Hr & Hh).
  { unfold filter_stack. rewrite Hm.
    cbn [with_currentDepth _currentDepth or_default]. lia. }
  cbn [with_currentDepth _currentDepth or_default] in Hh.
  rewrite Z.sub_0_r in Hh. split; [eauto|].
  unfold serializeToJson. rewrite Ht. cbn [bind].
  destruct (JSON_stringify_tree h t "  " Hr) as (o & Ho & _). eauto.
Qed.

Lemma serializeToJson_maxDepth_returns_witness :
  exists o,
    serializeToJson circularObj (VRef 0%nat)
      {| includeFields := None; excludeFields := None;
         maxDepth := Some 2; _currentDepth := None |} = Ok o.
Proof.
  exact (proj2 (serializeToJson_maxDepth_returns circularObj (VRef 0%nat)
                  {| includeFields := None; excludeFields := None;
                     maxDepth := Some 2; _currentDepth := None |} 2 eq_refl)).
Defined.

Lemma filter_both {A : Type} (p q : A -> bool) (l : list A) :
  filter q (filter p l) = filter (fun x => p x && q x) l.
Proof.
  induction l as [|x l IH]; cbn [filter]; [reflexivity|].
  destruct (p x); cbn [filter andb]; [|exact IH].
  destruct (q x); now rewrite IH.
Qed.

Lemma filter_all {A : Type} (l : list A) : filter (fun _ => true) l = l.
Proof.
  induction l as [|x l IH]; cbn [filter]; [reflexivity | now rewrite IH].
Qed.

Lemma selected_keys_filter (options : SerializationOptions) (keys : list string) :
  selected_keys options keys = filter (selected options) keys.
Proof.
  unfold selected_keys, selected.
  destruct (includeFields options) as [[|f fs]|];
    destruct (excludeFields options) as [[|g gs]|];
    rewrite ?filter_both; cbn [andb];
    try (symmetry; apply filter_all);
    try reflexivity;
    apply filter_ext; intros key; now rewrite ?andb_true_r.
Qed.

Lemma filterObjectFields_selected (h : heap) (fuel : nat) :
  forall (data : value) (options : SerializationOptions) (t : value),
    filterObjectFields fuel h data options = Ok t ->
    all_keys (fun key => selected options key && settable key) t = true.
Proof.
  induction fuel as [|fuel IH]; intros data options t H; cbn [filterObjectFields] in H;
    [discriminate|].
  destruct (beyond _ _); [now injection H as <-|].
  destruct (is_null data || negb (typeof_object data)) eqn:Ep.
  { injection H as <-. now apply primitive_shape in Ep as (_ & _ & Hk). }
  pose proof (deref_shape h data _ eq_refl) as Hs.
  destruct (deref h data) as [| |b|n|s|items|props|a];
    try (injection H as <-; now destruct Hs as (_ & _ & Hk)).
  - bind_inv H. injection H as <-. cbn [all_keys]. apply forallb_forall.
    intros y Hy. destruct (mapR_In _ _ _ Ha y Hy) as (x & _ & Hx).
    exact (IH _ _ _ Hx).
  - bind_inv H. injection H as <-. cbn [all_keys]. apply forallb_forall.
    intros kv Hkv. apply assigned_In in Hkv as [Hkv ->].
    destruct (mapR_In _ _ _ Ha kv Hkv) as (key & Hkey & Hx).
    bind_inv Hx. injection Hx as <-. cbn [fst snd].
    rewrite selected_keys_filter in Hkey. apply filter_In in Hkey as [_ ->].
    exact (IH _ _ _ Ha0).
Qed.

(** X13.  The field lists apply at every level: every key of the filtered
    value, at any depth, is in [includeFields] (when that list is not
    empty) and not in [excludeFields], and none is ["__proto__"], which
    the assignment that fills the result does not keep; the keys of a
    filtered object are the keys of the input that pass both lists, in
    their order, without ["__proto__"]. *)
Theorem filterObjectFields_keys :
  forall (h : heap) (fuel : nat) (data : value) (options : SerializationOptions)
         (t : value),
    filterObjectFields fuel h data options = Ok t ->
    all_keys (fun key => selected options key && settable key) t = true
    /\ forall props,
         deref h data = VObj props ->
         beyond (or_default (_currentDepth options) 0) (maxDepth options) = false ->
         map fst (pairs_of t)
         = filter settable (filter (selected options) (map fst props)).
Proof.
  intros h fuel data options t H. split; [exact (filterObjectFields_selected _ _ _ _ _ H)|].
  intros props Hd Hb. destruct fuel as [|fuel]; [discriminate|].
  cbn [filterObjectFields] in H. rewrite Hb, Hd in H.
  rewrite (proj2 (orb_false_iff _ _)) in H.
  - bind_inv H. injection H as <-. cbn [pairs_of].
    rewrite assigned_keys, (mapR_keys _ _ _ Ha). now rewrite selected_keys_filter.
  - destruct data; cbn in Hd |- *; try discriminate; now split.
Qed.

Lemma filterObjectFields_keys_witness :
  exists t,
    filterObjectFields 3 []
      (VObj [("id"%string, VNum 1);
             ("secret"%string, VStr "x");
             ("__proto__"%string, VNum 7);
             ("meta"%string, VObj [("id"%string, VNum 2); ("note"%string, VNull)])])
      {| includeFields :=
           Some ["id"%string; "meta"%string; "secret"%string; "__proto__"%string];
         excludeFields := Some ["secret"%string];
         maxDepth := None; _currentDepth := None |} = Ok t
    /\ map fst (pairs_of t) = ["id"%string; "meta"%string].
Proof.
  destruct (filterObjectFields 3 []
              (VObj [("id"%string, VNum 1);
                     ("secret"%string, VStr "x");
                     ("__proto__"%string, VNum 7);
                     ("meta"%string,
                       VObj [("id"%string, VNum 2); ("note"%string, VNull)])])
              {| includeFields :=
                   Some ["id"%string; "meta"%string; "secret"%string;
                         "__proto__"%string];
                 excludeFields := Some ["secret"%string];
                 maxDepth := None; _currentDepth := None |})
    as [t|e] eqn:E; [ | vm_compute in E; discriminate ].
  exists t. split; [reflexivity|].
  exact (proj2 (filterObjectFields_keys _ _ _ _ _ E) _ eq_refl eq_refl).
Defined.

Lemma includes_In (l : list string) (key : string) :
  includes l key = false -> forall k, In k l -> String.eqb key k = false.
Proof.
  unfold includes. intros H k Hk.
  destruct (String.eqb key k) eqn:E; [|reflexivity].
  rewrite <- H. symmetry. apply existsb_exists. now exists k.
Qed.

Lemma get_distinct {B : Type} (g : value -> B) (props : list (string * value)) :
  distinct (map fst props) = true ->
  map (fun key => (key, g (get props key))) (map fst props)
  = map (fun kv => (fst kv, g (snd kv))) props.
Proof.
  induction props as [|[k v] props IH]; cbn [map fst snd distinct]; [reflexivity|].
  intros H. apply andb_prop in H as [Hk Hd]. apply negb_true_iff in Hk.
  cbn [get]. rewrite String.eqb_refl. f_equal.
  rewrite <- (IH Hd). apply map_ext_in. intros key Hkey.
  now rewrite (includes_In _ _ Hk key Hkey).
Qed.

(** Without options the filter rebuilds its input by assignment. *)
Lemma filterObjectFields_identity (h : heap) (fuel : nat) :
  forall (data : value) (options : SerializationOptions),
    includeFields options = None ->
    excludeFields options = None ->
    maxDepth options = None ->
    ref_free data = true ->
    distinct_keys data = true ->
    (height data < fuel)%nat ->
    filterObjectFields fuel h data options = Ok (without_proto data).
Proof.
  induction fuel as [|fuel IH]; intros data options Hi He Hm Hr Hk Hfuel; [lia|].
  cbn [filterObjectFields]. rewrite Hm. cbn [beyond].
  destruct data as [| |b|n|s|items|props|a];
    cbn [is_null typeof_object negb orb deref without_proto]; try reflexivity;
    [ | | discriminate ].
  - cbn [ref_free distinct_keys] in Hr, Hk. rewrite forallb_forall in Hr, Hk.
    rewrite (mapR_same _ without_proto); [reflexivity|].
    intros x Hx. pose proof (height_item _ _ Hx).
    apply IH; auto. lia.
  - cbn [ref_free distinct_keys] in Hr, Hk. apply andb_prop in Hk as [Hd Hk].
    rewrite forallb_forall in Hr, Hk.
    unfold selected_keys. rewrite Hi, He.
    rewrite (mapR_same _ (fun key => (key, without_proto (get props key)))).
    + cbn [bind]. now rewrite get_distinct.
    + intros key Hkey. apply get_In in Hkey.
      pose proof (height_prop _ _ Hkey) as Hh. cbn [snd] in Hh.
      rewrite IH; auto.
      * exact (Hr _ Hkey).
      * exact (Hk _ Hkey).
      * lia.
Qed.

Lemma serializeToJson_plain (h : heap) (data : value) (options : SerializationOptions) :
  includeFields options = None ->
  excludeFields options = None ->
  maxDepth options = None ->
  ref_free data = true ->
  distinct_keys data = true ->
  serializeToJson h data options = JSON_stringify h (without_proto data) "  ".
Proof.
  intros Hi He Hm Hr Hk. unfold serializeToJson.
  rewrite filterObjectFields_identity; auto.
  unfold filter_stack, depth_bound. rewrite Hm. lia.
Qed.

(** X14.  Without field lists and without [maxDepth] the filter rebuilds
    its input by assignment: on a tree whose objects hold each key once
    it returns the input without the pairs under the key ["__proto__"],
    and [serializeToJson] is [JSON.stringify], with two spaces, of that
    value; on an input without that key the filter changes nothing and
    [serializeToJson] is [JSON.stringify(data, null, 2)]. *)
Theorem serializeToJson_is_stringify :
  forall (h : heap) (data : value) (options : SerializationOptions),
    includeFields options = None ->
    excludeFields options = None ->
    maxDepth options = None ->
    ref_free data = true ->
    distinct_keys data = true ->
    filterObjectFields (filter_stack h data options) h data
      (with_currentDepth options 0) = Ok (without_proto data)
    /\ serializeToJson h data options = JSON_stringify h (without_proto data) "  "
    /\ (proto_free data = true ->
        without_proto data = data
        /\ serializeToJson h data options = JSON_stringify h data "  ").
Proof.
  intros h data options Hi He Hm Hr Hk. split; [|split].
  - apply filterObjectFields_identity; auto.
    unfold filter_stack, depth_bound. rewrite Hm. lia.
  - now apply serializeToJson_plain.
  - intros Hfree.
    assert (Hsame : without_proto data = data)
      by (apply (without_proto_free (S (height data))); [lia | exact Hfree]).
    split; [exact Hsame|]. rewrite <- Hsame at 2. now apply serializeToJson_plain.
Qed.

Lemma serializeToJson_is_stringify_witness :
  serializeToJson [] (VObj [("a"%string, numbers [1; 2]); ("b"%string, VNull)])
    no_options
  = JSON_stringify [] (VObj [("a"%string, numbers [1; 2]); ("b"%string, VNull)]) "  "
  /\ serializeToJson []
       (VObj [("__proto__"%string, VObj [("a"%string, VNum 1)]); ("b"%string, VNum 2)])
       no_options
     = JSON_stringify [] (VObj [("b"%string, VNum 2)]) "  ".
Proof.
  split.
  - exact (proj2 (proj2 (proj2 (serializeToJson_is_stringify []
                    (VObj [("a"%string, numbers [1; 2]); ("b"%string, VNull)])
                    no_options eq_refl eq_refl eq_refl eq_refl eq_refl)) eq_refl)).
  - exact (proj1 (proj2 (serializeToJson_is_stringify []
                    (VObj [("__proto__"%string, VObj [("a"%string, VNum 1)]);
                           ("b"%string, VNum 2)])
                    no_options eq_refl eq_refl eq_refl eq_refl eq_refl))).
Defined.

(** ** The formatter: the path without chunks *)








(** X16.  Lowering [maxResponseSize] never turns a response that needs
    chunking into one that does not. *)
Theorem needsChunking_monotone :
  forall (h : heap) (data : value) (smaller larger : FormattingOptions),
    or_default (maxResponseSize smaller) DEFAULT_LIMITS.MAX_RESPONSE_SIZE
    <= or_default (maxResponseSize larger) DEFAULT_LIMITS.MAX_RESPONSE_SIZE ->
    needsChunking h data larger = true ->
    needsChunking h data smaller = true.
Proof.
  intros h data smaller larger Hle. unfold needsChunking, isObjectTooLarge, try_catch.
  destruct (approximateObjectSize h data) as [size|e]; cbn [bind]; [|reflexivity].
  destruct (Z.gtb_spec size
              (or_default (maxResponseSize larger) DEFAULT_LIMITS.MAX_RESPONSE_SIZE));
    destruct (Z.gtb_spec size
                (or_default (maxResponseSize smaller) DEFAULT_LIMITS.MAX_RESPONSE_SIZE));
    try reflexivity; try lia.
  destruct (serializeToJson h data no_options) as [[s|]|e]; cbn [bind length_of];
    try reflexivity.
  destruct (Z.gtb_spec (str_length s)
              (or_default (maxResponseSize larger) DEFAULT_LIMITS.MAX_RESPONSE_SIZE));
    destruct (Z.gtb_spec (str_length s)
                (or_default (maxResponseSize smaller) DEFAULT_LIMITS.MAX_RESPONSE_SIZE));
    try reflexivity; lia.
Qed.

Lemma needsChunking_monotone_witness :
  needsChunking [] (numbers [1; 2; 3]) (limits (Some 5) None None None) = true.
Proof.
  apply (needsChunking_monotone [] (numbers [1; 2; 3])
           (limits (Some 5) None None None) (limits (Some 10) None None None)).
  - vm_compute. discriminate.
  - reflexivity.
Defined.

(** ** The handler around the formatter *)

(** X17.  A handler that returns [formatSuccess(data, message, options)]
    inside [handleExecution] never lets an exception out: it answers with
    the fragments of [createSuccessResponse] when that returns, and
    otherwise with a single error fragment whose text is the engine's
    message behind 'Error executing execution tool: '; the error fragment
    arises only on the chunking path, from an exception of the chunker. *)
Theorem handleExecution_formatSuccess :
  forall (message_of : exn -> string) (h : heap) (data : value)
         (message : option string) (options : FormattingOptions),
    let answer :=
      handleExecution (fun _ : unit => formatSuccess message_of h data message options)
        tt in
    (forall results,
        createSuccessResponse h options data message = Ok results ->
        answer = Fragments results)
    /\ (forall e,
           createSuccessResponse h options data message = Throw e ->
           answer = Single (createErrorResponse
                              ("Error executing execution tool: " +++ message_of e)))
    /\ (forall r,
           answer = Single r ->
           isError r = Some true
           /\ needsChunking h data options = true
           /\ exists e,
                chunkResponse h options data = Throw e
                /\ text r = "Error executing execution tool: " +++ message_of e).
Proof.
  intros message_of h data message options answer. subst answer.
  unfold handleExecution, formatSuccess.
  destruct (createSuccessResponse h options data message) as [results|e] eqn:E.
  - split; [|split].
    + intros rs Hrs. now injection Hrs as <-.
    + discriminate.
    + discriminate.
  - split; [|split].
    + discriminate.
    + intros e' He'. now injection He' as <-.
    + intros r Hr. injection Hr as <-. split; [reflexivity|].
      unfold createSuccessResponse in E.
      destruct (formatChunkedResponse h options data) as [results|e'] eqn:Ef.
      * cbn [bind] in E. destruct message as [m|]; [|discriminate].
        destruct results as [|firstChunk rest]; [discriminate|].
        destruct (String.eqb m EmptyString); discriminate.
      * cbn [bind] in E. injection E as ->.
        apply formatChunkedResponse_Throw in Ef as [Hn Hc].
        split; [exact Hn|]. exists e. split; [exact Hc | reflexivity].
Qed.

Lemma handleExecution_formatSuccess_witness :
  handleExecution
    (fun _ : unit =>
       formatSuccess (fun _ => "cyclic object value"%string) circularObj (VRef 0%nat)
         None default_options) tt
  = Single (createErrorResponse
              "Error executing execution tool: cyclic object value").
Proof.
  exact (proj1 (proj2 (handleExecution_formatSuccess
                         (fun _ => "cyclic object value"%string) circularObj
                         (VRef 0%nat) None default_options))
           TypeError eq_refl).
Defined.

(** ** The efficient representation *)





(** X19.  Arrays inside objects are never summarised: without field
    lists and without [maxDepth], a tree whose arrays outside objects have
    at most 100 elements is returned rebuilt by assignment, however long
    the arrays below its objects are: the result is the input without the
    pairs under the key ["__proto__"], hence the input itself when it has
    no such key. *)
Theorem createEfficientObjectRepresentation_unchanged :
  forall (h : heap) (options : SerializationOptions) (fuel : nat) (data : value),
    includeFields options = None ->
    excludeFields options = None ->
    maxDepth options = None ->
    ref_free data = true ->
    distinct_keys data = true ->
    spine_within 100 data = true ->
    (height data < fuel)%nat ->
    createEfficientObjectRepresentation fuel h data options
    = Ok (without_proto data)
    /\ (proto_free data = true -> without_proto data = data).
Proof.
  intros h options fuel data Hi He Hm Hr Hk Hs Hfuel. split;
    [|apply (without_proto_free (S (height data))); lia].
  revert data Hr Hk Hs Hfuel.
  induction fuel as [|fuel IH]; intros data Hr Hk Hs Hfuel; [lia|].
  cbn [createEfficientObjectRepresentation].
  destruct data as [| |b|n|s|items|props|a];
    cbn [is_null typeof_object negb orb deref]; try reflexivity; [ | | discriminate ].
  - cbn [ref_free distinct_keys spine_within] in Hr, Hk, Hs.
    apply andb_prop in Hs as [Hlen Hs]. apply Z.leb_le in Hlen.
    rewrite forallb_forall in Hr, Hk, Hs.
    destruct (Z.gtb_spec (Z.of_nat (List.length items)) 100); [lia|].
    rewrite (mapR_same _ without_proto); [reflexivity|].
    intros x Hx. pose proof (height_item _ _ Hx). apply IH; auto. lia.
  - apply filterObjectFields_identity; auto.
    unfold filter_stack, depth_bound. rewrite Hm. lia.
Qed.

Lemma createEfficientObjectRepresentation_unchanged_witness :
  createEfficientObjectRepresentation 3 []
    (VObj [("__proto__"%string, VNum 1);
           ("items"%string, numbers (map Z.of_nat (seq 0 101)))]) no_options
  = Ok (VObj [("items"%string, numbers (map Z.of_nat (seq 0 101)))]).
Proof.
  refine (proj1 (createEfficientObjectRepresentation_unchanged [] no_options 3
                   (VObj [("__proto__"%string, VNum 1);
                          ("items"%string, numbers (map Z.of_nat (seq 0 101)))])
                   eq_refl eq_refl eq_refl eq_refl eq_refl eq_refl _)).
  vm_compute. lia.
Defined.

(** ** Primitives through the formatter *)

(** X20.  A primitive is never split and never shortened: for every
    limit with [maxObjectDepth] not negative, the formatter returns one
    fragment whose text is [String(data)] in full, without a truncation
    record and without a continuation token; only the three chunk fields
    ([isChunked], [chunkIndex], [totalChunks]) tell whether
    [needsChunking] held. *)
Theorem formatChunkedResponse_primitive :
  forall (h : heap) (options : FormattingOptions) (data : value),
    primitive data = true ->
    0 <= or_default (maxObjectDepth options) DEFAULT_LIMITS.MAX_OBJECT_DEPTH ->
    exists r,
      formatChunkedResponse h options data = Ok [r]
      /\ text r = String_of data
      /\ metadata r = None
      /\ continuationToken r = None
      /\ isChunked r = (if needsChunking h data options then Some true else None)
      /\ totalChunks r = (if needsChunking h data options then Some 1 else None)
      /\ chunkIndex r = (if needsChunking h data options then Some 0 else None).
Proof.
  intros h options data Hp Hd.
  assert (Hf : formatTruncatedResponse h data options
               = (data, {| TruncationMetadata.wasTruncated := false;
                           TruncationMetadata.originalSize := None;
                           TruncationMetadata.itemsOmitted := None;
                           TruncationMetadata.reason := None |})).
  { unfold formatTruncatedResponse, levels.
    rewrite formatValue_primitive by (exact Hp || lia). reflexivity. }
  assert (Hs : formattedString h data = Ok (String_of data)).
  { unfold formattedString, JSON_stringify, depth_bound.
    destruct data; try discriminate Hp; reflexivity. }
  assert (Hc : chunkResponse h options data = Ok ([data], None)).
  { unfold chunkResponse. unfold primitive in Hp. now rewrite Hp. }
  unfold formatChunkedResponse.
  destruct (needsChunking h data options); cbn [negb].
  - rewrite Hc. cbn [bind mapiR List.length]. unfold format_chunk.
    rewrite Hf, Hs. cbn [bind]. eexists. split; [reflexivity|].
    cbn. now repeat split.
  - rewrite Hf, Hs. cbn [bind]. eexists. split; [reflexivity|].
    cbn. now repeat split.
Qed.

Lemma formatChunkedResponse_primitive_witness :
  exists r,
    formatChunkedResponse [] (limits (Some 4) None None (Some 2)) (VStr "a long text")
    = Ok [r]
    /\ text r = "a long text"%string
    /\ isChunked r = Some true.
Proof.
  destruct (formatChunkedResponse_primitive [] (limits (Some 4) None None (Some 2))
              (VStr "a long text") eq_refl)
    as (r & Hr & Ht & _ & _ & Hc & _).
  - vm_compute. discriminate.
  - exists r. split; [exact Hr|]. split; [exact Ht | exact Hc].
Defined.

(** ** Objects with an own key ["__proto__"] *)

Section ProtoKey.

Local Open Scope string_scope.

(** [JSON.parse('{"__proto__":{"a":1},"b":2}')] through the truncator and
    the serializer: the pair is gone and nothing is flagged. *)
Example proto_key_dropped_by_truncator_and_filter :
  let data := VObj [("__proto__", VObj [("a", VNum 1)]); ("b", VNum 2)] in
  formatTruncatedResponse [] data default_options
  = (VObj [("b", VNum 2)],
     {| TruncationMetadata.wasTruncated := false;
        TruncationMetadata.originalSize := None;
        TruncationMetadata.itemsOmitted := None;
        TruncationMetadata.reason := None |})
  /\ filterObjectFields (filter_stack [] data no_options) [] data no_options
     = Ok (VObj [("b", VNum 2)])
  /\ serializeToJson [] data no_options
     = JSON_stringify [] (VObj [("b", VNum 2)]) "  "
  /\ serializeToJson [] data no_options <> JSON_stringify [] data "  ".
Proof.
  cbv zeta. repeat split; try (vm_compute; reflexivity).
  vm_compute. discriminate.
Qed.

(** [{"a":1,"__proto__":5,"b":2}] and [{"__proto__":5}] through the
    chunker: the pair is measured and not held, and a chunk that holds
    nothing is not returned. *)
Example proto_key_dropped_by_chunker :
  chunkResponse [] default_options
    (VObj [("a", VNum 1); ("__proto__", VNum 5); ("b", VNum 2)])
  = Ok ([VObj [("a", VNum 1); ("b", VNum 2)]], None)
  /\ chunkResponse [] default_options (VObj [("__proto__", VNum 5)])
     = Ok ([], None)
  /\ entrySize [] ("__proto__", VNum 5) = Ok 15.
Proof.
  repeat split; vm_compute; reflexivity.
Qed.

(** [{"__proto__":[1,2,3]}] with [maxArrayItems = 2]: the first pass
    truncates the array and then keeps nothing of it; the second pass
    finds an empty object. *)
Example proto_key_second_pass :
  let options := limits None (Some 2) None None in
  let first := formatTruncatedResponse [] (VObj [("__proto__", numbers [1; 2; 3])])
                 options in
  let second := formatTruncatedResponse [] (fst first) options in
  fst first = VObj []
  /\ TruncationMetadata.wasTruncated (snd first) = true
  /\ TruncationMetadata.itemsOmitted (snd first) = Some 1
  /\ TruncationMetadata.wasTruncated (snd second) = false.
Proof.
  cbv zeta. repeat split; vm_compute; reflexivity.
Qed.

End ProtoKey.

(** ** The repository's tests, on the embedding *)

Section RepositoryTests.

Local Open Scope string_scope.

Example test_approximateObjectSize_primitives :
  approximateObjectSize [] VNull = Ok 4
  /\ approximateObjectSize [] (VBool true) = Ok 4
  /\ approximateObjectSize [] (VNum 42) = Ok 8
  /\ approximateObjectSize [] (VStr "hello") = Ok 10.
Proof.
  repeat split; reflexivity.
Qed.

Example test_approximateObjectSize_composites :
  approximateObjectSize []
    (VObj [("id"%string, VNum 1); ("name"%string, VStr "test")]) = Ok 36
  /\ approximateObjectSize [] (numbers [1; 2; 3; 4; 5]) = Ok 48.
Proof.
  split; vm_compute; reflexivity.
Qed.

Example test_serializeToJson_primitives :
  serializeToJson [] (VNum 42) no_options = Ok (Some "42"%string)
  /\ serializeToJson [] (VStr "test") no_options
     = Ok (Some (dquote +++ "test" +++ dquote))
  /\ serializeToJson [] (VBool true) no_options = Ok (Some "true"%string)
  /\ serializeToJson [] VNull no_options = Ok (Some "null"%string).
Proof.
  repeat split; vm_compute; reflexivity.
Qed.

Example test_filterObjectFields_depth :
  let nested (key : string) (v : value) := VObj [(key, v)] in
  let deepObj :=
    nested "level1" (nested "level2" (nested "level3" (nested "level4"
      (nested "level5" (nested "data" (VStr "deep")))))) in
  let options :=
    {| includeFields := None; excludeFields := None;
       maxDepth := Some 3; _currentDepth := None |} in
  filterObjectFields (filter_stack [] deepObj options) [] deepObj options
  = Ok (nested "level1" (nested "level2" (nested "level3" (nested "level4"
          (VStr "[Maximum depth exceeded]"))))).
Proof.
  vm_compute. reflexivity.
Qed.

Example test_filterObjectFields_fields :
  let obj := VObj [("id"%string, VNum 1); ("name"%string, VStr "test");
                   ("password"%string, VStr "secret");
                   ("token"%string, VStr "12345")] in
  let kept := VObj [("id"%string, VNum 1); ("name"%string, VStr "test")] in
  let including :=
    {| includeFields := Some ["id"%string; "name"%string]; excludeFields := None;
       maxDepth := None; _currentDepth := None |} in
  let excluding :=
    {| includeFields := None;
       excludeFields := Some ["password"%string; "token"%string];
       maxDepth := None; _currentDepth := None |} in
  filterObjectFields (filter_stack [] obj including) [] obj including = Ok kept
  /\ filterObjectFields (filter_stack [] obj excluding) [] obj excluding = Ok kept.
Proof.
  split; vm_compute; reflexivity.
Qed.

Example test_needsChunking :
  needsChunking [] (VObj [("id"%string, VNum 1); ("name"%string, VStr "test")])
    (limits (Some 1000) None None None) = false
  /\ needsChunking [] (VObj [("small"%string, VStr "object")]) default_options
     = false
  /\ needsChunking circularObj (VRef 0%nat) default_options = true.
Proof.
  repeat split; vm_compute; reflexivity.
Qed.

Example test_formatTruncatedResponse_array :
  let largeArray := numbers (map Z.of_nat (seq 0 100)) in
  let r := formatTruncatedResponse [] largeArray (limits None (Some 10) None None) in
  List.length (elements_of (fst r)) = 11%nat
  /\ TruncationMetadata.wasTruncated (snd r) = true
  /\ TruncationMetadata.itemsOmitted (snd r) = Some 90
  /\ TruncationMetadata.reason (snd r) = Some "Array size limit exceeded"%string
  /\ formatTruncatedResponse [] (numbers [1; 2; 3; 4; 5]) default_options
     = (numbers [1; 2; 3; 4; 5],
        {| TruncationMetadata.wasTruncated := false;
           TruncationMetadata.originalSize := None;
           TruncationMetadata.itemsOmitted := None;
           TruncationMetadata.reason := None |}).
Proof.
  repeat split; vm_compute; reflexivity.
Qed.

Example test_formatTruncatedResponse_depth :
  let nested (key : string) (v : value) := VObj [(key, v)] in
  let deepObj :=
    nested "level1" (nested "level2" (nested "level3" (nested "level4"
      (nested "data" (VStr "deep"))))) in
  let r := formatTruncatedResponse [] deepObj (limits None None (Some 2) None) in
  fst r = nested "level1" (nested "level2" (nested "level3" depth_sentinel))
  /\ TruncationMetadata.wasTruncated (snd r) = true.
Proof.
  split; vm_compute; reflexivity.
Qed.

Example test_chunkResponse_small :
  chunkResponse [] default_options
    (VObj [("id"%string, VNum 1); ("name"%string, VStr "test")])
  = Ok ([VObj [("id"%string, VNum 1); ("name"%string, VStr "test")]], None)
  /\ chunkResponse [] default_options (VStr "test string")
     = Ok ([VStr "test string"], None).
Proof.
  split; vm_compute; reflexivity.
Qed.

Example test_paginateResults :
  let testItems := map Z.of_nat (seq 1 10) in
  let params (offset limit : option Z) :=
    {| PaginationParams.offset := offset; PaginationParams.limit := limit |} in
  paginateResults testItems (params None None)
  = {| data := testItems;
       pagination :=
         {| PaginationMetadata.offset := 0; PaginationMetadata.limit := 10;
            PaginationMetadata.total := 10; PaginationMetadata.hasMore := false;
            PaginationMetadata.nextOffset := None;
            PaginationMetadata.prevOffset := None |} |}
  /\ paginateResults testItems (params (Some 3) (Some 4))
     = {| data := [4; 5; 6; 7];
          pagination :=
            {| PaginationMetadata.offset := 3; PaginationMetadata.limit := 4;
               PaginationMetadata.total := 10; PaginationMetadata.hasMore := true;
               PaginationMetadata.nextOffset := Some 7;
               PaginationMetadata.prevOffset := Some 0 |} |}
  /\ paginateResults testItems (params (Some 15) None)
     = {| data := [];
          pagination :=
            {| PaginationMetadata.offset := 10; PaginationMetadata.limit := 10;
               PaginationMetadata.total := 10; PaginationMetadata.hasMore := false;
               PaginationMetadata.nextOffset := None;
               PaginationMetadata.prevOffset := Some 0 |} |}
  /\ PaginationMetadata.limit
       (pagination (paginateResults testItems (params None (Some 0)))) = 1
  /\ List.length (data (paginateResults testItems (params None (Some 0)))) = 1%nat.
Proof.
  repeat split; vm_compute; reflexivity.
Qed.

Example test_createEfficientObjectRepresentation :
  let largeArray :=
    VArr (map (fun i => VObj [("id"%string, VNum (Z.of_nat i))]) (seq 0 200)) in
  let obj := VObj [("id"%string, VNum 1); ("name"%string, VStr "test");
                   ("sensitive"%string, VStr "secret")] in
  let excluding :=
    {| includeFields := None; excludeFields := Some ["sensitive"%string];
       maxDepth := None; _currentDepth := None |} in
  createEfficientObjectRepresentation 1 [] (VNum 42) no_options = Ok (VNum 42)
  /\ createEfficientObjectRepresentation 1 [] (VStr "test") no_options
     = Ok (VStr "test")
  /\ createEfficientObjectRepresentation 1 [] VNull no_options = Ok VNull
  /\ (exists t,
         createEfficientObjectRepresentation (depth_bound [] largeArray) []
           largeArray no_options = Ok t
         /\ get (pairs_of t) "_type" = VStr "array"
         /\ get (pairs_of t) "length" = VNum 200
         /\ List.length (elements_of (get (pairs_of t) "sample")) = 10%nat)
  /\ createEfficientObjectRepresentation 2 [] (numbers [1; 2; 3; 4; 5]) no_options
     = Ok (numbers [1; 2; 3; 4; 5])
  /\ createEfficientObjectRepresentation 2 [] obj excluding
     = Ok (VObj [("id"%string, VNum 1); ("name"%string, VStr "test")]).
Proof.
  repeat split; try (vm_compute; reflexivity).
  eexists. repeat split; vm_compute; reflexivity.
Qed.

End RepositoryTests.
